(** * tessdb-tools: the reconciliation utilities, embedded and verified

    The development follows the Python modules of [tessdb.tools]:
    - [utils.py]   : MAC formatting and the MAC predicates;
    - [dbutils.py] : key-set reconciliation and [group_by];
    - [zptess.py], [tessdb.py] : the row remapping functions, the validity
      history of a photometer and the easy/repaired/renamed/complicated
      classification;
    - [mongodb.py] : [mongo_get_all] and the by-name lookups.

    Python values are modelled by a small value type, exceptions by an
    explicit result type, [while True] loops by fuel (no fuel left is the
    only way to get [None] out of a loop), dictionaries by [gmap] and
    Python sets by [gset]. *)

From Stdlib Require Import ZArith List Ascii String Lia Permutation Sorted.
From stdpp Require Import base option list gmap sets strings.
Import ListNotations.

Local Open Scope Z_scope.

(** ** Exceptions and results *)

Inductive exn : Type :=
| ValueError
| AttributeError
| TypeError
| IndexError
| KeyError
| AssertionError
| DuplicatesError
| ListLengthMismatchError
| NamesMismatchError.

Inductive result (A : Type) : Type :=
| Ok (a : A)
| Raise (e : exn).
Arguments Ok {A} a.
Arguments Raise {A} e.

#[global] Instance result_ret : MRet result := fun A a => Ok a.
#[global] Instance result_bind : MBind result := fun A B k m =>
  match m with
  | Ok a => k a
  | Raise e => Raise e
  end.

(** ** Python strings

    A [str] is a sequence of code points.  The model keeps the code points
    below 256 (one [ascii] each); the functions below follow CPython on
    that range. *)

Definition str := list ascii.

Definition colon : ascii := ":"%char.

(** [s.split(":")]: always at least one segment. *)
Fixpoint split (s : str) : list str :=
  match s with
  | [] => [[]]
  | c :: s' =>
      if Ascii.eqb c colon then [] :: split s'
      else match split s' with
           | seg :: segs => (c :: seg) :: segs
           | [] => [[c]]
           end
  end.

(** [":".join(segs)]. *)
Fixpoint join (segs : list str) : str :=
  match segs with
  | [] => []
  | [seg] => seg
  | seg :: rest => seg ++ colon :: join rest
  end.

(** *** [int(x, 16)]

    [_PyUnicode_TransformDecimalAndSpaceToASCII] leaves an ASCII string as
    it is and otherwise maps the Unicode white space above 127 (NEL and
    NBSP in this range) to a blank; no code point in 128..255 is a decimal
    digit, so the others stay invalid. [PyLong_FromString] then skips
    [Py_ISSPACE] characters, an optional sign, an optional [0x]/[0X]
    radix prefix followed by at most one underscore, reads digits separated
    by single underscores, and skips trailing white space. *)

Definition code (c : ascii) : Z := Z.of_nat (nat_of_ascii c).

Definition Py_ISSPACE (c : ascii) : bool :=
  (code c =? 32) || ((9 <=? code c) && (code c <=? 13)).

Definition space_to_ascii (c : ascii) : ascii :=
  if (code c =? 133) || (code c =? 160) then " "%char else c.

(** [_PyLong_DigitValue[c] < 16] *)
Definition digit_value (c : ascii) : option Z :=
  let n := code c in
  if (48 <=? n) && (n <=? 57) then Some (n - 48)
  else if (65 <=? n) && (n <=? 70) then Some (n - 55)
  else if (97 <=? n) && (n <=? 102) then Some (n - 87)
  else None.

Definition underscore : ascii := "_"%char.

(** The digit loop: [prev_us] records that the previous character was an
    underscore, [acc] is the value read so far, [n] the number of digits.
    The result is the value, the digit count and the unread rest. *)
Fixpoint scan_digits (s : str) (prev_us : bool) (acc : Z) (n : nat)
  : option (Z * nat * str) :=
  match s with
  | [] => if prev_us then None else Some (acc, n, [])
  | c :: r =>
      if Ascii.eqb c underscore then
        if prev_us then None else scan_digits r true acc n
      else
        match digit_value c with
        | Some d => scan_digits r false (acc * 16 + d) (S n)
        | None => if prev_us then None else Some (acc, n, s)
        end
  end.

Fixpoint skip_spaces (s : str) : str :=
  match s with
  | c :: r => if Py_ISSPACE c then skip_spaces r else s
  | [] => []
  end.

Definition read_sign (s : str) : Z * str :=
  match s with
  | c :: r =>
      if Ascii.eqb c "+"%char then (1, r)
      else if Ascii.eqb c "-"%char then (-1, r)
      else (1, s)
  | [] => (1, s)
  end.

Definition skip_radix_prefix (s : str) : str :=
  match s with
  | c0 :: c1 :: r =>
      if Ascii.eqb c0 "0"%char && (Ascii.eqb c1 "x"%char || Ascii.eqb c1 "X"%char)
      then match r with
           | c2 :: r' => if Ascii.eqb c2 underscore then r' else r
           | [] => r
           end
      else s
  | _ => s
  end.

Definition starts_with_underscore (s : str) : bool :=
  match s with
  | c :: _ => Ascii.eqb c underscore
  | [] => false
  end.

(** [int(x, 16)]; [None] stands for [ValueError]. *)
Definition int16 (x : str) : option Z :=
  let s := skip_spaces (map space_to_ascii x) in
  let '(sign, s) := read_sign s in
  let s := skip_radix_prefix s in
  if starts_with_underscore s then None
  else
    match scan_digits s false 0 0 with
    | Some (v, n, rest) =>
        match n, skip_spaces rest with
        | S _, [] => Some (sign * v)
        | _, _ => None
        end
    | None => None
    end.

(** *** [f"{n:02X}"] *)

Definition hex_char (d : Z) : ascii :=
  if d <? 10 then ascii_of_nat (Z.to_nat (d + 48))
  else ascii_of_nat (Z.to_nat (d + 55)).

Fixpoint hex_digits_aux (fuel : nat) (n : Z) (acc : str) : str :=
  match fuel with
  | O => hex_char n :: acc
  | S fuel' =>
      if n <? 16 then hex_char n :: acc
      else hex_digits_aux fuel' (n / 16) (hex_char (n mod 16) :: acc)
  end.

(** Upper-case hexadecimal digits of [n >= 0], most significant first. *)
Definition hex_digits (n : Z) : str :=
  hex_digits_aux (Z.to_nat (Z.log2 n)) n [].

(** Format spec [02X]: zero fill, minimum width 2 (the sign counts), upper
    case hexadecimal. *)
Definition format_02X (n : Z) : str :=
  if n <? 0 then "-"%char :: hex_digits (- n)
  else
    let h := hex_digits n in
    if (length h <? 2)%nat then "0"%char :: h else h.

(** ** Python values held in rows *)

Inductive pyval : Type :=
| PyNone
| PyStr (s : string)
| PyInt (z : Z)
| PyFloat (bits : Z)     (* a double, by its bit pattern *)
| PyBytes (b : string)
| PyOther (repr : string).   (* a bool, list or nested document, by its repr *)

Definition s2l := list_ascii_of_string.
Definition l2s := string_of_list_ascii.

(** ** utils.py *)

Fixpoint traverse_int16 (segs : list str) : option (list Z) :=
  match segs with
  | [] => Some []
  | seg :: rest =>
      match int16 seg with
      | Some n =>
          match traverse_int16 rest with
          | Some ns => Some (n :: ns)
          | None => None
          end
      | None => None
      end
  end.

(** [formatted_mac] on a [str]; [None] is the [ValueError] of the source. *)
Definition formatted_mac_str (mac : string) : option string :=
  match traverse_int16 (split (s2l mac)) with
  | Some ns => Some (l2s (join (map format_02X ns)))
  | None => None
  end.

(** [formatted_mac(mac)]: [mac.split] does not exist on [None], numbers,
    lists and dicts ([AttributeError], turned into [ValueError]); on
    [bytes] the [str] separator is a [TypeError], which is not caught. *)
Definition formatted_mac (mac : pyval) : result string :=
  match mac with
  | PyStr s =>
      match formatted_mac_str s with
      | Some r => Ok r
      | None => Raise ValueError
      end
  | PyBytes _ => Raise TypeError
  | PyNone | PyInt _ | PyFloat _ | PyOther _ => Raise ValueError
  end.

(** [is_tess_mac(mac)] for a [str]. *)
Definition is_tess_mac (mac : string) : bool :=
  let mac_list := split (s2l mac) in
  let result := forallb (fun x => match int16 x with Some _ => true | None => false end) mac_list in
  result && (length mac_list =? 6)%nat.

(** [is_mac(mac)] for a [str]. *)
Definition is_mac (mac : string) : bool :=
  is_tess_mac mac && (String.length mac =? 17)%nat.

(** ** Proof vocabulary: the upper-case hexadecimal digits *)

Definition hexU (c : ascii) : Prop := In c (s2l "0123456789ABCDEF").

(** What the parser sees in such a character: a digit, and nothing else. *)
Definition plain_digit (c : ascii) : Prop :=
  space_to_ascii c = c /\ Py_ISSPACE c = false /\
  Ascii.eqb c "+"%char = false /\ Ascii.eqb c "-"%char = false /\
  Ascii.eqb c "x"%char = false /\ Ascii.eqb c "X"%char = false /\
  Ascii.eqb c underscore = false /\ Ascii.eqb c colon = false /\
  exists d, digit_value c = Some d.

(** Two strings whose colon-separated segments are as many and denote,
    one by one, the same integer under [int(x, 16)]. *)
Definition same_segment_values (m1 m2 : string) : Prop :=
  Forall2 (fun a b => int16 a = int16 b) (split (s2l m1)) (split (s2l m2)).

(** ** Rows

    A row fetched from SQLite is a tuple, read by position; a remapped row
    and a document of the REST API is a [dict] with string keys. *)

Abbreviation tuple := (list pyval).
Abbreviation dict := (gmap string pyval).

#[global] Instance pyval_eq_dec : EqDecision pyval.
Proof. solve_decision. Defined.

Definition pyval_encode (v : pyval) : unit + (string + (Z + (Z + (string + string)))) :=
  match v with
  | PyNone => inl tt
  | PyStr s => inr (inl s)
  | PyInt z => inr (inr (inl z))
  | PyFloat b => inr (inr (inr (inl b)))
  | PyBytes b => inr (inr (inr (inr (inl b))))
  | PyOther r => inr (inr (inr (inr (inr r))))
  end.

Definition pyval_decode (x : unit + (string + (Z + (Z + (string + string))))) : pyval :=
  match x with
  | inl _ => PyNone
  | inr (inl s) => PyStr s
  | inr (inr (inl z)) => PyInt z
  | inr (inr (inr (inl b))) => PyFloat b
  | inr (inr (inr (inr (inl b)))) => PyBytes b
  | inr (inr (inr (inr (inr r)))) => PyOther r
  end.

#[global] Instance pyval_countable : Countable pyval.
Proof.
  apply (inj_countable' pyval_encode pyval_decode).
  intros []; reflexivity.
Defined.

(** [row[i]] on a tuple *)
Definition index (row : tuple) (i : nat) : result pyval :=
  match row !! i with
  | Some v => Ok v
  | None => Raise IndexError
  end.

(** [row[key]] on a dict *)
Definition getitem {V : Type} (row : gmap string V) (key : string) : result V :=
  match row !! key with
  | Some v => Ok v
  | None => Raise KeyError
  end.

(** [list(map(f, iterable))]: the first exception ends the traversal. *)
Fixpoint list_map {A B : Type} (f : A -> result B) (l : list A) : result (list B) :=
  match l with
  | [] => Ok []
  | a :: l' => b ← f a; bs ← list_map f l'; Ok (b :: bs)
  end.

(** ** dbutils.py *)

(** [map.keys()] *)
Definition keys `{Countable K} {V : Type} (m : gmap K V) : list K :=
  (map_to_list m).*1.

Definition common_A_B_items `{Countable K} {V W : Type}
    (map_A : gmap K V) (map_B : gmap K W) : gset K :=
  list_to_set (keys map_A) ∩ list_to_set (keys map_B).

Definition in_A_not_in_B `{Countable K} {V W : Type}
    (map_A : gmap K V) (map_B : gmap K W) : gset K :=
  list_to_set (keys map_A) ∖ list_to_set (keys map_B).

(** One turn of the loop of [group_by]: [result[row[key]].append(row)] on a
    [defaultdict(list)], rows that are [None] being skipped. *)
Definition group_by_step `{Countable V} (key : string)
    (groups : gmap V (list (gmap string V))) (row : option (gmap string V))
  : result (gmap V (list (gmap string V))) :=
  match row with
  | Some r =>
      k ← getitem r key;
      Ok (<[k := default [] (groups !! k) ++ [r]]> groups)
  | None => Ok groups
  end.

Fixpoint group_by_loop `{Countable V} (key : string)
    (groups : gmap V (list (gmap string V))) (iterable : list (option (gmap string V)))
  : result (gmap V (list (gmap string V))) :=
  match iterable with
  | [] => Ok groups
  | row :: rest =>
      groups' ← group_by_step key groups row;
      group_by_loop key groups' rest
  end.

Definition group_by `{Countable V} (iterable : list (option (gmap string V))) (key : string)
  : result (gmap V (list (gmap string V))) :=
  group_by_loop key ∅ iterable.

Definition group_by_mac (iterable : list (option dict)) : result (gmap pyval (list dict)) :=
  group_by iterable "mac".

(** The rows that are not [None], in input order. *)
Definition not_None {A : Type} (iterable : list (option A)) : list A :=
  omap id iterable.

(** The group of key [k], empty when [k] is not a key of the result. *)
Definition group_of `{Countable V} {A : Type} (g : gmap V (list A)) (k : V) : list A :=
  default [] (g !! k).

(** All grouped rows, group after group. *)
Definition grouped_rows `{Countable V} {A : Type} (g : gmap V (list A)) : list A :=
  concat (map snd (map_to_list g)).

(** ** zptess.py *)

Module zptess.

Definition tessdb_remap_info (row : tuple) : result (option dict) :=
  match (mac ← index row 0; formatted_mac mac) with
  | Raise _ => Ok None                      (* except Exception *)
  | Ok m =>
      let new_row : dict := <["mac" := PyStr m]> ∅ in
      v1 ← index row 1;
      let new_row := <["tessdb_state" := v1]> new_row in
      v2 ← index row 2;
      let new_row := <["tessdb_zp" := v2]> new_row in
      v3 ← index row 3;
      let new_row := <["tessdb_date" := v3]> new_row in
      v4 ← index row 4;
      let new_row := <["tessdb_registered" := v4]> new_row in
      Ok (Some new_row)
  end.

Definition zptess_remap_info (row : tuple) : result (option dict) :=
  match (mac ← index row 0; formatted_mac mac) with
  | Raise _ => Ok None                      (* except Exception *)
  | Ok m =>
      let new_row : dict := <["mac" := PyStr m]> ∅ in
      v1 ← index row 1;
      let new_row := <["zptess_zp" := v1]> new_row in
      v2 ← index row 2;
      let new_row := <["zptess_date" := v2]> new_row in
      v3 ← index row 3;
      let new_row := <["zptess_name" := v3]> new_row in
      v4 ← index row 4;
      let new_row := <["zptess_method" := v4]> new_row in
      Ok (Some new_row)
  end.

End zptess.

(** ** tessdb.py *)

(** [ORDER BY]: a stable insertion sort for the order [leb]. SQLite leaves
    the order of rows with equal keys open; here they keep their table
    order. *)
Fixpoint insert_by {A : Type} (leb : A -> A -> bool) (x : A) (l : list A) : list A :=
  match l with
  | [] => [x]
  | y :: l' => if leb x y then x :: l else y :: insert_by leb x l'
  end.

Fixpoint order_by {A : Type} (leb : A -> A -> bool) (l : list A) : list A :=
  match l with
  | [] => []
  | x :: l' => insert_by leb x (order_by leb l')
  end.

(** [l[-1]] *)
Definition last_item {A : Type} (l : list A) : result A :=
  match last l with
  | Some x => Ok x
  | None => Raise IndexError
  end.

(** [l[0]] *)
Definition first_item {A : Type} (l : list A) : result A :=
  match l with
  | x :: _ => Ok x
  | [] => Raise IndexError
  end.

Module tessdb.

(** [formatted_mac(row[1])] is under [try ... except ValueError]; the
    other exceptions and the later reads of the tuple propagate. *)
Definition tessdb_remap_info (row : tuple) : result (option dict) :=
  match (mac ← index row 1; formatted_mac mac) with
  | Raise ValueError => Ok None
  | Raise e => Raise e
  | Ok m =>
      let new_row : dict := <["mac" := PyStr m]> ∅ in
      m' ← (mac ← index row 1; formatted_mac mac);
      let new_row := <["mac" := PyStr m']> new_row in
      v2 ← index row 2;
      let new_row := <["zero_point" := v2]> new_row in
      v3 ← index row 3;
      let new_row := <["filter" := v3]> new_row in
      v0 ← index row 0;
      let new_row := <["name" := v0]> new_row in
      Ok (Some new_row)
  end.

(** A record of the table [name_to_mac_t]; the five columns hold text
    (time stamps are ISO 8601 text, compared as text by SQLite). *)
Record name_to_mac : Type := {
  name : string;
  mac_address : string;
  valid_since : string;
  valid_until : string;
  valid_state : string
}.

#[global] Instance name_to_mac_eq_dec : EqDecision name_to_mac.
Proof. solve_decision. Defined.

(** The state of the table: its records in storage order. *)
Abbreviation database := (list name_to_mac).

(** A row of the three history queries, a Python list of seven items:
    the searched column, the other one, [valid_since], [valid_until], the
    contiguity flag (selected as ['+']), [valid_state] and the length of
    the interval in days, [julianday(valid_until) - julianday(valid_since)],
    a float that is kept as the pair of its two arguments. *)
Record history_row : Type := {
  item0 : string;
  item1 : string;
  item2 : string;
  item3 : string;
  item4 : string;
  item5 : string;
  item6 : string * string
}.

#[global] Instance history_row_eq_dec : EqDecision history_row.
Proof. solve_decision. Defined.

(** [history[i][4] = flag] *)
Definition set_item4 (flag : string) (h : history_row) : history_row :=
  {| item0 := item0 h; item1 := item1 h; item2 := item2 h; item3 := item3 h;
     item4 := flag; item5 := item5 h; item6 := item6 h |}.

(** The [SELECT] list of the history queries: [name, mac_address, ...]
    when a name is given, [mac_address, name, ...] otherwise. *)
Definition select_history (by_name : bool) (r : name_to_mac) : history_row :=
  {| item0 := if by_name then name r else mac_address r;
     item1 := if by_name then mac_address r else name r;
     item2 := valid_since r;
     item3 := valid_until r;
     item4 := "+";
     item5 := valid_state r;
     item6 := (valid_until r, valid_since r) |}.

Definition since_leb (a b : name_to_mac) : bool :=
  String.leb (valid_since a) (valid_since b).

Definition is_Some_b {A : Type} (o : option A) : bool :=
  match o with Some _ => true | None => false end.

(** [name_mac_current_history_sql(name)], run with [params]: the records
    of the name ([name] given) or of the MAC, [ORDER BY valid_since]. A
    parameter that is [None] is NULL, which equals nothing. *)
Definition name_mac_current_history_sql (db : database) (name_ mac : option string)
  : list history_row :=
  match name_ with
  | Some n =>
      select_history true <$> order_by since_leb (filter (fun r => name r = n) db)
  | None =>
      select_history false
        <$> order_by since_leb (filter (fun r => Some (mac_address r) = mac) db)
  end.

(** [name_mac_previous_related_history_sql(name)] with [:tstamp] *)
Definition name_mac_previous_related_history_sql
    (db : database) (name_ : option string) (tstamp : string) : list history_row :=
  select_history (is_Some_b name_)
    <$> order_by since_leb (filter (fun r => valid_until r = tstamp) db).

(** [name_mac_next_related_history_sql(name)] with [:tstamp] *)
Definition name_mac_next_related_history_sql
    (db : database) (name_ : option string) (tstamp : string) : list history_row :=
  select_history (is_Some_b name_)
    <$> order_by since_leb (filter (fun r => valid_since r = tstamp) db).

(** The [while True] loop of [name_mac_previous_related_history]. Each
    turn executes one query; [queries] logs the [:tstamp] parameter of
    every [cursor.execute]. Running out of [fuel] gives [None]. *)
Fixpoint previous_loop (fuel : nat) (db : database) (name_ : option string)
    (tstamp : string) (history : list history_row) (queries : list string)
  : option (list history_row * bool * list string) :=
  match fuel with
  | O => None
  | S fuel' =>
      let fragment := name_mac_previous_related_history_sql db name_ tstamp in
      let queries := queries ++ [tstamp] in
      match fragment with
      | [] => Some (history, false, queries)
      | [row] => previous_loop fuel' db name_ (item2 row) (history ++ fragment) queries
      | _ => Some (history ++ fragment, true, queries)
      end
  end.

(** Returns [(history, complicated)] and, third, the log of the queries. *)
Definition name_mac_previous_related_history (fuel : nat) (db : database)
    (start_tstamp : string) (name_ mac : option string)
  : option (list history_row * bool * list string) :=
  match previous_loop fuel db name_ start_tstamp [] [] with
  | Some (history, complicated, queries) => Some (rev history, complicated, queries)
  | None => None
  end.

Fixpoint next_loop (fuel : nat) (db : database) (name_ : option string)
    (tstamp : string) (history : list history_row) (queries : list string)
  : option (list history_row * bool * list string) :=
  match fuel with
  | O => None
  | S fuel' =>
      let fragment := name_mac_next_related_history_sql db name_ tstamp in
      let queries := queries ++ [tstamp] in
      match fragment with
      | [] => Some (history, false, queries)
      | [row] => next_loop fuel' db name_ (item3 row) (history ++ fragment) queries
      | _ => Some (history ++ fragment, true, queries)
      end
  end.

Definition name_mac_next_related_history (fuel : nat) (db : database)
    (end_tstamp : string) (name_ mac : option string)
  : option (list history_row * bool * list string) :=
  next_loop fuel db name_ end_tstamp [] [].

(** One turn of the [for i in range(len(history) - 1)] loop of
    [name_mac_current_history]. *)
Definition mark_break (i : nat)
    (st : list history_row * list string * list string)
  : list history_row * list string * list string :=
  let '(history, break_end_tstamps, break_start_tstamps) := st in
  match history !! i, history !! S i with
  | Some h, Some h' =>
      if decide (item3 h <> item2 h') then
        (<[i := set_item4 "-" h]> history,
         break_end_tstamps ++ [item3 h],
         break_start_tstamps ++ [item2 h'])
      else st
  | _, _ => st
  end.

Definition mark_breaks (history : list history_row)
  : list history_row * list string * list string :=
  foldl (fun st i => mark_break i st) (history, [], []) (seq 0 (length history - 1)).

Definition name_mac_current_history (db : database) (name_ mac : option string)
  : result (list history_row * list string * list string * bool) :=
  match name_, mac with
  | None, None => Raise AssertionError
  | _, _ =>
      let history := name_mac_current_history_sql db name_ mac in
      let '(history, break_end_tstamps, break_start_tstamps) := mark_breaks history in
      h ← last_item history;
      let truncated := bool_decide (item5 h = "Expired") in
      Ok (history, break_end_tstamps, break_start_tstamps, truncated)
  end.

(** *** The photometer classification *)

(** A row of [photometers_not_easy]: a [dict] built by
    [dict(zip([...], row))], kept with its insertion order. *)
Abbreviation photometer := (list (string * string)).

Definition photometer_dict (r : name_to_mac) : photometer :=
  [("name", name r); ("mac", mac_address r); ("valid_since", valid_since r);
   ("valid_until", valid_until r); ("valid_state", valid_state r)].

(** [row[key]] on such a dict *)
Fixpoint lookup_item (row : photometer) (key : string) : result string :=
  match row with
  | [] => Raise KeyError
  | (k, v) :: rest => if decide (k = key) then Ok v else lookup_item rest key
  end.

(** The second tuple of the unzipped [item.items()]: the values *)
Definition values (item : photometer) : list string := item.*2.

(** [GROUP BY name HAVING COUNT(name) > 1] *)
Definition name_repeated (db : database) (n : string) : bool :=
  (1 <? length (filter (fun r => name r = n) db))%nat.

(** [GROUP BY mac_address HAVING COUNT(mac_address) > 1] *)
Definition mac_repeated (db : database) (m : string) : bool :=
  (1 <? length (filter (fun r => mac_address r = m) db))%nat.

(** The sub-select of [photometers_not_easy]: the MACs of the records
    whose name is repeated, [UNION] the repeated MACs. *)
Definition not_easy_mac (db : database) (m : string) : bool :=
  existsb (fun r => bool_decide (mac_address r = m) && name_repeated db (name r)) db
  || existsb (fun r => bool_decide (mac_address r = m) && mac_repeated db (mac_address r)) db.

(** [ORDER BY name, valid_since] *)
Definition name_since_leb (a b : name_to_mac) : bool :=
  match String.compare (name a) (name b) with
  | Lt => true
  | Eq => String.leb (valid_since a) (valid_since b)
  | Gt => false
  end.

Definition photometers_not_easy (db : database) : list photometer :=
  photometer_dict
    <$> order_by name_since_leb (filter (fun r => not_easy_mac db (mac_address r) = true) db).

(** SQLite's [LIKE] folds the case of the ASCII letters (its default,
    which the code does not change). *)
Definition sqlite3Tolower (c : ascii) : ascii :=
  let n := N_of_ascii c in
  if ((65 <=? n) && (n <=? 90))%N then ascii_of_N (n + 32) else c.

(** [s LIKE 'pattern%'] for a pattern of plain characters. *)
Fixpoint like_prefix (pattern s : string) : bool :=
  match pattern, s with
  | EmptyString, _ => true
  | String p pattern', String c s' =>
      Ascii.eqb (sqlite3Tolower p) (sqlite3Tolower c) && like_prefix pattern' s'
  | String _ _, EmptyString => false
  end.

(** The sub-select of [photometers_easy]: the MACs of the records named
    [LIKE 'stars%'], [EXCEPT] those of the records whose name is repeated,
    [EXCEPT] the repeated MACs. *)
Definition easy_mac (db : database) (m : string) : bool :=
  existsb (fun r => bool_decide (mac_address r = m) && like_prefix "stars" (name r)) db
  && negb (existsb (fun r => bool_decide (mac_address r = m) && name_repeated db (name r)) db)
  && negb (existsb (fun r => bool_decide (mac_address r = m)
                             && mac_repeated db (mac_address r)) db).

Definition photometers_easy (db : database) : list photometer :=
  photometer_dict
    <$> order_by name_since_leb (filter (fun r => easy_mac db (mac_address r) = true) db).

(** The body shared by the loops of [photometers_repaired] and
    [photometers_renamed]: the current history of the name (or MAC), the
    related histories before and after it, and the [pure_repair] /
    [pure_renaming] test. *)
Definition pure_history (fuel : nat) (db : database) (name_ mac : option string)
  : option (result bool) :=
  match name_mac_current_history db name_ mac with
  | Raise e => Some (Raise e)
  | Ok (history, break_end_tstamps, break_start_tstamps, truncated) =>
      match first_item history, last_item history with
      | Ok h0, Ok hl =>
          let start_tstamp := item2 h0 in
          let end_tstamp := item3 hl in
          match name_mac_previous_related_history fuel db start_tstamp name_ mac with
          | None => None
          | Some (prev_history, _, _) =>
              match name_mac_next_related_history fuel db end_tstamp name_ mac with
              | None => None
              | Some (next_history, _, _) =>
                  Some (Ok ((1 <? length history)%nat
                            && (length break_end_tstamps =? 0)%nat
                            && (length prev_history =? 0)%nat
                            && (length next_history =? 0)%nat))
              end
          end
      | Raise e, _ => Some (Raise e)
      | _, Raise e => Some (Raise e)
      end
  end.

Fixpoint photometers_repaired_loop (fuel : nat) (db : database)
    (rows output : list photometer) : option (result (list photometer)) :=
  match rows with
  | [] => Some (Ok output)
  | row :: rest =>
      match lookup_item row "name" with
      | Raise e => Some (Raise e)
      | Ok n =>
          match pure_history fuel db (Some n) None with
          | None => None
          | Some (Raise e) => Some (Raise e)
          | Some (Ok pure_repair) =>
              photometers_repaired_loop fuel db rest
                (if pure_repair then output ++ [row] else output)
          end
      end
  end.

Definition photometers_repaired (fuel : nat) (db : database)
  : option (result (list photometer)) :=
  photometers_repaired_loop fuel db (photometers_not_easy db) [].

Fixpoint photometers_renamed_loop (fuel : nat) (db : database)
    (rows output : list photometer) : option (result (list photometer)) :=
  match rows with
  | [] => Some (Ok output)
  | row :: rest =>
      match lookup_item row "mac" with
      | Raise e => Some (Raise e)
      | Ok m =>
          match pure_history fuel db None (Some m) with
          | None => None
          | Some (Raise e) => Some (Raise e)
          | Some (Ok pure_renaming) =>
              photometers_renamed_loop fuel db rest
                (if pure_renaming then output ++ [row] else output)
          end
      end
  end.

Definition photometers_renamed (fuel : nat) (db : database)
  : option (result (list photometer)) :=
  photometers_renamed_loop fuel db (photometers_not_easy db) [].

(** [set(...)] of value tuples, set difference, [list(...)] (in the
    order [elements] gives) and back to dicts with the keys of
    [total[0]]. *)
Definition photometers_complicated (fuel : nat) (db : database)
  : option (result (list photometer)) :=
  let total := photometers_not_easy db in
  match photometers_repaired fuel db with
  | None => None
  | Some (Raise e) => Some (Raise e)
  | Some (Ok only_repaired) =>
      match photometers_renamed fuel db with
      | None => None
      | Some (Raise e) => Some (Raise e)
      | Some (Ok only_renamed) =>
          match first_item total with
          | Raise e => Some (Raise e)
          | Ok total0 =>
              let keys := total0.*1 in
              let total : gset (list string) := list_to_set (values <$> total) in
              let only_repaired : gset (list string) :=
                list_to_set (values <$> only_repaired) in
              let only_renamed : gset (list string) :=
                list_to_set (values <$> only_renamed) in
              let total := elements (total ∖ only_repaired ∖ only_renamed) in
              Some (Ok ((fun item => zip keys item) <$> total))
          end
      end
  end.

End tessdb.

(** ** The remapping pipeline: [group_by_mac(list(map(remap, rows)))] *)

(** The MAC column [c] of the tuple holds a value that [formatted_mac]
    accepts. *)
Definition mac_formatted (c : nat) (row : tuple) : Prop :=
  exists mac m, row !! c = Some mac /\ formatted_mac mac = Ok m.

(** The remap functions, each with the position of its MAC column and the
    tuples it reads without an exception of its own: all the columns it
    indexes are there and, where only [ValueError] is caught, the MAC is
    not a [bytes] object. *)
Definition remap_functions
  : list ((tuple -> result (option dict)) * nat * (tuple -> Prop)) :=
  [ (zptess.tessdb_remap_info, 0%nat, fun row => (5 <= length row)%nat);
    (zptess.zptess_remap_info, 0%nat, fun row => (5 <= length row)%nat);
    (tessdb.tessdb_remap_info, 1%nat,
      fun row => (4 <= length row)%nat /\ forall b, row !! 1%nat <> Some (PyBytes b)) ].

(** What a remap function does on a tuple it can read: a new row with the
    formatted MAC under ["mac"], or [None] when the MAC is not accepted. *)
Definition remaps (remap : tuple -> result (option dict)) (c : nat) (row : tuple) : Prop :=
  (exists new_row mac m,
      remap row = Ok (Some new_row) /\ row !! c = Some mac /\
      formatted_mac mac = Ok m /\ new_row !! "mac" = Some (PyStr m)) \/
  (remap row = Ok None /\ ~ mac_formatted c row).

(** ** mongodb.py *)

Module mongodb.
Section python_equality.

(** [a == b]. Text, [None], [bytes] and integers compare by value and are
    equal to nothing of another kind; a comparison that a float or another
    object takes part in is left to the parameter [other_eq]. *)
Variable other_eq : pyval -> pyval -> bool.

Definition py_eq (a b : pyval) : bool :=
  match a, b with
  | PyFloat _, _ | PyOther _, _ | _, PyFloat _ | _, PyOther _ => other_eq a b
  | PyNone, PyNone => true
  | PyStr s, PyStr t => bool_decide (s = t)
  | PyInt x, PyInt y => bool_decide (x = y)
  | PyBytes s, PyBytes t => bool_decide (s = t)
  | _, _ => false
  end.

(** The [for item in zipped] loop of [mongo_get_all]; the result is
    [details_list] with the entries in place of the zipped ones updated. *)
Fixpoint mongo_get_all_loop (names_list details_list : list dict) : result (list dict) :=
  match names_list, details_list with
  | item0 :: names_rest, item1 :: details_rest =>
      name0 ← getitem item0 "name";
      name1 ← getitem item1 "name";
      if negb (py_eq name0 name1) then Raise NamesMismatchError
      else
        let item1 := <["mac" := default PyNone (item0 !! "mac")]> item1 in
        rest ← mongo_get_all_loop names_rest details_rest;
        Ok (item1 :: rest)
  | [], _ => Ok details_list
  | _, [] => Ok []
  end.

(** [mongo_get_all(url)], given the answers of the two requests
    [mongo_api_get_names(url)] and [mongo_api_get_details(url)]. *)
Definition mongo_get_all (names_list details_list : list dict) : result (list dict) :=
  if negb (length names_list =? length details_list)%nat
  then Raise ListLengthMismatchError
  else mongo_get_all_loop names_list details_list.

(** [x in names] *)
Definition py_in (x : pyval) (names : list pyval) : bool :=
  existsb (fun n => py_eq n x) names.

Fixpoint filter_by_names (iterable : list dict) (names : list pyval) : result (list dict) :=
  match iterable with
  | [] => Ok []
  | row :: rest =>
      n ← getitem row "name";
      rest' ← filter_by_names rest names;
      Ok (if py_in n names then row :: rest' else rest')
  end.





End python_equality.
End mongodb.

(** ** Vocabulary of the statements about [mongodb.py] *)

Section mongodb_vocabulary.
Variable other_eq : pyval -> pyval -> bool.

(** Both entries have a ['name'] and the two are equal. *)
Definition equal_names (item0 item1 : dict) : Prop :=
  exists a b, item0 !! "name" = Some a /\ item1 !! "name" = Some b /\
              mongodb.py_eq other_eq a b = true.

(** Both entries have a ['name'] and the two are different. *)
Definition names_differ (item0 item1 : dict) : Prop :=
  exists a b, item0 !! "name" = Some a /\ item1 !! "name" = Some b /\
              mongodb.py_eq other_eq a b = false.

End mongodb_vocabulary.

(** The details entry carrying the ['mac'] of the names entry
    ([None] when that entry has none, as [get] gives). *)
Definition with_mac (item0 item1 : dict) : dict :=
  <["mac" := default PyNone (item0 !! "mac")]> item1.

(** ** Vocabulary of the statements about the validity history *)

Module history.
Import tessdb.

(** The records a history is about: those of the name when one is given,
    those of the MAC otherwise. *)
Definition matches (name_ mac : option string) (r : name_to_mac) : Prop :=
  match name_ with
  | Some n => name r = n
  | None => Some (mac_address r) = mac
  end.

#[global] Instance matches_dec name_ mac r : Decision (matches name_ mac r).
Proof. unfold matches. destruct name_; apply _. Defined.

(** The break between the rows [i] and [i + 1] of a history, if there is
    one: the [valid_until] of the earlier and the [valid_since] of the
    later row, which differ. *)
Definition adjacent_break (history : list history_row) (i : nat) : option (string * string) :=
  match history !! i, history !! S i with
  | Some h, Some h' =>
      if decide (item3 h <> item2 h') then Some (item3 h, item2 h') else None
  | _, _ => None
  end.

(** The breaks of a history, in history order. *)
Definition adjacent_breaks (history : list history_row) : list (string * string) :=
  omap (adjacent_break history) (seq 0 (length history - 1)).

(** Row [i] of a history with its contiguity flag set as the breaks say. *)
Definition flagged (history : list history_row) (i : nat) (h : history_row) : history_row :=
  match adjacent_break history i with
  | Some _ => set_item4 "-" h
  | None => h
  end.

(** The loop of [mark_breaks], by recursion on the history. *)
Fixpoint breaks (history : list history_row)
  : list history_row * list string * list string :=
  match history with
  | [] => ([], [], [])
  | h :: rest =>
      let '(rest', ends, starts) := breaks rest in
      match rest with
      | h' :: _ =>
          if decide (item3 h <> item2 h')
          then (set_item4 "-" h :: rest', item3 h :: ends, item2 h' :: starts)
          else (h :: rest', ends, starts)
      | [] => ([h], [], [])
      end
  end.

(** Where the loop of [name_mac_previous_related_history] goes from the
    time stamp [t]: to the [valid_since] of the only record that ends at
    [t]; it stops when no record or several records end there. *)
Definition previous_step (db : database) (t : string) : option string :=
  match filter (fun r => valid_until r = t) db with
  | [r] => Some (valid_since r)
  | _ => None
  end.

(** The same for [name_mac_next_related_history]: to the [valid_until] of
    the only record that starts at [t]. *)
Definition next_step (db : database) (t : string) : option string :=
  match filter (fun r => valid_since r = t) db with
  | [r] => Some (valid_until r)
  | _ => None
  end.

(** The first [fuel] time stamps of the chain that starts at [t]. *)
Fixpoint chain (step : string -> option string) (fuel : nat) (t : string) : list string :=
  match fuel with
  | O => []
  | S fuel' =>
      t :: match step t with
           | Some t' => chain step fuel' t'
           | None => []
           end
  end.

(** The chain from [t] stops within [n] queries. *)
Fixpoint stops (step : string -> option string) (n : nat) (t : string) : bool :=
  match n with
  | O => false
  | S n' =>
      match step t with
      | Some t' => stops step n' t'
      | None => true
      end
  end.

(** The chain from [t] never comes back to a time stamp. *)
Definition never_revisits (step : string -> option string) (t : string) : Prop :=
  forall fuel, List.NoDup (chain step fuel t).

(** No chain of the table, in either direction, comes back to a time
    stamp. *)
Definition acyclic (db : database) : Prop :=
  forall t, never_revisits (previous_step db) t /\ never_revisits (next_step db) t.

(** [rows] is what the loop of [name_mac_next_related_history] collects
    from the time stamp [t] on while it finds one record: each row is the
    only record of the table that starts where the row before it ends (the
    first one at [t]); [t'] is where the last row ends ([t] when there is
    no row). *)
Fixpoint next_chain (db : database) (by_name : bool) (t : string)
    (rows : list history_row) (t' : string) : Prop :=
  match rows with
  | [] => t = t'
  | row :: rest =>
      (exists r, filter (fun r => valid_since r = t) db = [r] /\
                 row = select_history by_name r) /\
      next_chain db by_name (item3 row) rest t'
  end.

(** The same for [name_mac_previous_related_history], backwards: each row
    is the only record that ends where the row before it starts. *)
Fixpoint previous_chain (db : database) (by_name : bool) (t : string)
    (rows : list history_row) (t' : string) : Prop :=
  match rows with
  | [] => t = t'
  | row :: rest =>
      (exists r, filter (fun r => valid_until r = t) db = [r] /\
                 row = select_history by_name r) /\
      previous_chain db by_name (item2 row) rest t'
  end.

(** What [pure_repair] (for a name) and [pure_renaming] (for a MAC) test,
    on the table: the records of the name (or MAC), ordered by
    [valid_since], are two or more; each one ends where the next one
    starts; no record of the table ends where the first one starts and
    none starts where the last one ends. *)
Definition pure (db : database) (name_ mac : option string) : Prop :=
  let records := order_by since_leb (filter (matches name_ mac) db) in
  (1 < length records)%nat /\
  (forall i r r', records !! i = Some r -> records !! S i = Some r' ->
                  valid_until r = valid_since r') /\
  (forall r0, head records = Some r0 ->
              filter (fun r => valid_until r = valid_since r0) db = []) /\
  (forall rl, last records = Some rl ->
              filter (fun r => valid_since r = valid_until rl) db = []).

(** Text order, as SQLite compares text. *)
Definition str_lt (a b : string) : Prop := String.compare a b = Lt.

(** Every record starts strictly before it ends. *)
Definition strict_intervals (db : database) : Prop :=
  Forall (fun r => str_lt (valid_since r) (valid_until r)) db.

End history.

(** The common shape of the two related-history loops: [sql] is the query
    ([:tstamp] to its rows), [key] the item of the only row that becomes
    the next [:tstamp]. *)
Module related.
Import tessdb.

Fixpoint loop (sql : string -> list history_row) (key : history_row -> string)
    (fuel : nat) (tstamp : string) (history : list history_row) (queries : list string)
  : option (list history_row * bool * list string) :=
  match fuel with
  | O => None
  | S fuel' =>
      let fragment := sql tstamp in
      let queries := queries ++ [tstamp] in
      match fragment with
      | [] => Some (history, false, queries)
      | [row] => loop sql key fuel' (key row) (history ++ fragment) queries
      | _ => Some (history ++ fragment, true, queries)
      end
  end.

Definition step (sql : string -> list history_row) (key : history_row -> string)
    (t : string) : option string :=
  match sql t with
  | [row] => Some (key row)
  | _ => None
  end.

End related.

(** ** Sample tables *)

Module samples.
Import tessdb.

Definition record (n m since until state : string) : name_to_mac :=
  {| name := n; mac_address := m; valid_since := since; valid_until := until;
     valid_state := state |}.

(** A photometer repaired once, its old MAC reused under another name. *)
Definition db_history : database :=
  [ record "stars1" "AA:AA:AA:AA:AA:01" "2020-01-01 00:00:00" "2021-01-01 00:00:00" "Expired";
    record "stars1" "AA:AA:AA:AA:AA:02" "2022-01-01 00:00:00" "2999-12-31 23:59:59" "Current";
    record "stars3" "AA:AA:AA:AA:AA:01" "2021-01-01 00:00:00" "2999-12-31 23:59:59" "Current" ].

(** A record whose interval is empty: it ends when it starts. *)
Definition db_cycle : database :=
  [ record "stars1" "AA:AA:AA:AA:AA:01" "2020-01-01 00:00:00" "2020-01-01 00:00:00" "Expired" ].

(** Two records, each starting where the other one ends. *)
Definition db_two_cycle : database :=
  [ record "stars1" "AA:AA:AA:AA:AA:01" "2020-01-01 00:00:00" "2021-01-01 00:00:00" "Expired";
    record "stars2" "AA:AA:AA:AA:AA:02" "2021-01-01 00:00:00" "2020-01-01 00:00:00" "Expired" ].

(** A repaired photometer whose history starts where such a record ends. *)
Definition db_repaired_cycle : database :=
  [ record "stars1" "AA:AA:AA:AA:AA:01" "2020-01-01 00:00:00" "2021-01-01 00:00:00" "Expired";
    record "stars1" "AA:AA:AA:AA:AA:02" "2021-01-01 00:00:00" "2999-12-31 23:59:59" "Current";
    record "stars7" "AA:AA:AA:AA:AA:07" "2020-01-01 00:00:00" "2020-01-01 00:00:00" "Expired" ].

(** One photometer, never repaired nor renamed. *)
Definition db_easy : database :=
  [ record "stars1" "AA:AA:AA:AA:AA:01" "2020-01-01 00:00:00" "2999-12-31 23:59:59" "Current" ].

End samples.

(** ** dbutils.py: the other reconciliation helpers *)

Module dbutils.

(** A mapping as Python passes it around: a plain [dict], or a
    [collections.defaultdict] such as [group_by] returns, whose
    [default_factory] makes the value that [__missing__] stores under a
    missing key and returns ([list] makes [[]]). *)
Record mapping (K A : Type) `{Countable K} : Type := {
  entries : gmap K A;
  default_factory : option A
}.
Arguments entries {K A _ _} m.
Arguments default_factory {K A _ _} m.

(** [d[k]]: the value and the mapping afterwards. *)
Definition item `{Countable K} {A : Type} (d : mapping K A) (k : K)
  : result A * mapping K A :=
  match entries d !! k with
  | Some v => (Ok v, d)
  | None =>
      match default_factory d with
      | Some v =>
          (Ok v, {| entries := <[k := v]> (entries d);
                    default_factory := default_factory d |})
      | None => (Raise KeyError, d)
      end
  end.

(** [{k: v for k, v in multidict.items() if len(v) == 1}] *)
Definition filter_out_multidict `{Countable K} {A : Type} (multidict : gmap K (list A))
  : gmap K (list A) :=
  filter (fun kv => length kv.2 = 1%nat) multidict.

(** [{key: dictionary[key] for key in keys}], the keys in iteration
    order: the new dict, or the exception, and the dictionary afterwards. *)
Fixpoint filter_selected_keys_loop `{Countable K} {A : Type} (dictionary : mapping K A)
    (keys : list K) (selected : gmap K A) : result (gmap K A) * mapping K A :=
  match keys with
  | [] => (Ok selected, dictionary)
  | key :: rest =>
      match item dictionary key with
      | (Ok v, dictionary') =>
          filter_selected_keys_loop dictionary' rest (<[key := v]> selected)
      | (Raise e, dictionary') => (Raise e, dictionary')
      end
  end.

Definition filter_selected_keys `{Countable K} {A : Type} (dictionary : mapping K A)
    (keys : list K) : result (gmap K A) * mapping K A :=
  filter_selected_keys_loop dictionary keys ∅.

(** [filter_and_flatten(iterable, keys)]: the rows of the groups, of all
    of them when [keys] is [None], else of those whose key is in [keys].
    Python walks the groups in insertion order; here they come in the
    order of [map_to_list], so the result is meant up to the order of the
    groups. *)
Definition filter_and_flatten `{Countable K} {A : Type} (iterable : gmap K (list A))
    (keys : option (gset K)) : list A :=
  match keys with
  | None => concat (snd <$> map_to_list iterable)
  | Some ks => concat (snd <$> filter (fun kv => kv.1 ∈ ks) (map_to_list iterable))
  end.

(** Sets and dictionaries find a value by Python's equality of hashable
    values, [key_eq] below ([x is y or x == y] on values of equal hash):
    as numbers, [-3] and [-3.0] are one key. *)
Section key_equality.
Context {V : Type} (key_eq : V -> V -> bool).

(** [set(values)]: a value equal to one already held is not added. *)
Definition set_add (s : list V) (x : V) : list V :=
  if existsb (fun y => key_eq y x) s then s else s ++ [x].

Definition set_of (values : list V) : list V := foldl set_add [] values.

(** Equality of tuples of two items. *)
Definition coords_eq (a b : V * V) : bool := key_eq a.1 b.1 && key_eq a.2 b.2.

(** [coords[k].append(row)] on the [defaultdict(list)], a dict kept with
    its insertion order: the row goes to the group of the key equal to
    [k]; when there is none, [k] becomes a key, with the row as its
    group. *)
Fixpoint append_to {A : Type} (coords : list ((V * V) * list A)) (k : V * V) (row : A)
  : list ((V * V) * list A) :=
  match coords with
  | [] => [(k, [row])]
  | (k', rows) :: rest =>
      if coords_eq k' k then (k', rows ++ [row]) :: rest
      else (k', rows) :: append_to rest k row
  end.

(** One turn of the loop of [group_by_coordinates]. A cell of a row is
    [None] or a value; [row["longitude"] is None or row["latitude"] is None]
    reads the latitude only when the longitude is not [None]. *)
Definition group_by_coordinates_step
    (coords : list ((V * V) * list (gmap string (option V))))
    (row : option (gmap string (option V)))
  : result (list ((V * V) * list (gmap string (option V)))) :=
  match row with
  | None => Ok coords
  | Some r =>
      longitude ← getitem r "longitude";
      match longitude with
      | None => Ok coords
      | Some lon =>
          latitude ← getitem r "latitude";
          match latitude with
          | None => Ok coords
          | Some lat => Ok (append_to coords (lon, lat) r)
          end
      end
  end.

Fixpoint group_by_coordinates_loop
    (coords : list ((V * V) * list (gmap string (option V))))
    (iterable : list (option (gmap string (option V))))
  : result (list ((V * V) * list (gmap string (option V)))) :=
  match iterable with
  | [] => Ok coords
  | row :: rest =>
      coords' ← group_by_coordinates_step coords row;
      group_by_coordinates_loop coords' rest
  end.

Definition group_by_coordinates (iterable : list (option (gmap string (option V))))
  : result (list ((V * V) * list (gmap string (option V)))) :=
  group_by_coordinates_loop [] iterable.

(** [check_place_same_coords(place, rows)]: the two sets are built one
    after the other; then, for each of them that holds more than one
    value, the arguments of [log.warn] are evaluated, the coordinates and
    the names of all the rows among them. *)
Definition check_place_same_coords (rows : list (gmap string V)) : result bool :=
  longitudes ← list_map (fun phot => getitem phot "longitude") rows;
  latitudes ← list_map (fun phot => getitem phot "latitude") rows;
  let longitudes := set_of longitudes in
  let latitudes := set_of latitudes in
  result ← (if (1 <? length longitudes)%nat
            then _ ← list_map (fun phot => getitem phot "longitude") rows;
                 _ ← list_map (fun phot => getitem phot "name") rows;
                 Ok true
            else Ok false);
  result ← (if (1 <? length latitudes)%nat
            then _ ← list_map (fun phot => getitem phot "latitude") rows;
                 _ ← list_map (fun phot => getitem phot "name") rows;
                 Ok true
            else Ok result);
  Ok result.

End key_equality.

End dbutils.

(** The row has both coordinates, neither of them [None]. *)
Definition located {V : Type} (r : gmap string (option V)) : Prop :=
  exists lon lat, r !! "longitude" = Some (Some lon) /\ r !! "latitude" = Some (Some lat).

#[global] Instance located_dec {V : Type} (r : gmap string (option V)) :
  Decision (located r).
Proof.
  unfold located.
  destruct (r !! "longitude") as [[lon|]|]; [|right; intros (? & ? & ? & ?); congruence..].
  destruct (r !! "latitude") as [[lat|]|]; [|right; intros (? & ? & ? & ?); congruence..].
  left. eauto.
Defined.

(** The row has both coordinates, and they equal those of the pair [k]. *)
Definition at_coordinates {V : Type} (key_eq : V -> V -> bool) (k : V * V)
    (r : gmap string (option V)) : Prop :=
  match r !! "longitude", r !! "latitude" with
  | Some (Some lon), Some (Some lat) => dbutils.coords_eq key_eq k (lon, lat) = true
  | _, _ => False
  end.

#[global] Instance at_coordinates_dec {V : Type} (key_eq : V -> V -> bool) (k : V * V)
    (r : gmap string (option V)) : Decision (at_coordinates key_eq k r).
Proof.
  unfold at_coordinates.
  destruct (r !! "longitude") as [[lon|]|]; try (right; tauto).
  destruct (r !! "latitude") as [[lat|]|]; try (right; tauto).
  apply _.
Defined.

(** The keys of a dictionary kept with its insertion order: no key equals
    a later one. *)
Fixpoint different_keys {V : Type} (key_eq : V -> V -> bool) (ks : list (V * V)) : Prop :=
  match ks with
  | [] => True
  | k :: rest =>
      (forall k', In k' rest -> dbutils.coords_eq key_eq k k' = false) /\
      different_keys key_eq rest
  end.

(** [key_eq] is an equivalence, as Python's equality of hashable values
    is on every value but a NaN. *)
Definition equivalence {V : Type} (key_eq : V -> V -> bool) : Prop :=
  (forall x, key_eq x x = true) /\
  (forall x y, key_eq x y = true -> key_eq y x = true) /\
  (forall x y z, key_eq x y = true -> key_eq y z = true -> key_eq x z = true).

(** What the loop of [group_by_coordinates] keeps, [rows] being the rows
    seen so far that are not [None]. *)
Definition grouped {V : Type} (key_eq : V -> V -> bool)
    (coords : list ((V * V) * list (gmap string (option V))))
    (rows : list (gmap string (option V))) : Prop :=
  (forall k group, In (k, group) coords ->
     group = filter (at_coordinates key_eq k) rows /\
     exists r, head group = Some r /\
               r !! "longitude" = Some (Some k.1) /\ r !! "latitude" = Some (Some k.2)) /\
  different_keys key_eq coords.*1 /\
  concat coords.*2 ≡ₚ filter located rows.

(** Two values of the list differ. *)
Definition differ {V : Type} (key_eq : V -> V -> bool) (values : list V) : Prop :=
  exists x y, In x values /\ In y values /\ key_eq x y = false.

(** The cells of the rows under [key], for the rows that have one. *)
Definition column {V : Type} (key : string) (rows : list (gmap string V)) : list V :=
  omap (fun phot => phot !! key) rows.

(** The key value of the row is one of [ks]. *)
Definition key_in `{Countable V} (key : string) (ks : gset V) (r : gmap string V) : Prop :=
  match r !! key with
  | Some k => k ∈ ks
  | None => False
  end.

#[global] Instance key_in_dec `{Countable V} (key : string) (ks : gset V)
    (r : gmap string V) : Decision (key_in key ks r).
Proof. unfold key_in. destruct (r !! key); apply _. Defined.

(** ** mongodb.py: reading MACs from CSV files, merging rows *)

Module mongodb_rows.

(** The outcome of a function in which a local variable can be read before
    it is bound: beside the exceptions of [exn], [UnboundLocalError]. *)
Inductive outcome (A : Type) : Type :=
| Returns (a : A)
| Raises (e : exn)
| RaisesUnboundLocalError.
Arguments Returns {A} a.
Arguments Raises {A} e.
Arguments RaisesUnboundLocalError {A}.

(** [_map_mac(item)] of [remap_mac]. Only [ValueError] is caught; its
    handler logs [item["name"]] and falls through to the [log.debug] line,
    which reads [new_mac], not bound on that path. *)
Definition _map_mac (item : dict) : outcome dict :=
  match getitem item "mac" with
  | Raise e => Raises e
  | Ok mac =>
      match formatted_mac mac with
      | Ok new_mac => Returns (<["mac" := PyStr new_mac]> item)
      | Raise ValueError =>
          match getitem item "name" with
          | Raise e => Raises e
          | Ok _ => RaisesUnboundLocalError
          end
      | Raise e => Raises e
      end
  end.

(** [list(map(_map_mac, input_iterable))] *)
Fixpoint remap_mac (input_iterable : list dict) : outcome (list dict) :=
  match input_iterable with
  | [] => Returns []
  | item :: rest =>
      match _map_mac item with
      | Returns item' =>
          match remap_mac rest with
          | Returns rest' => Returns (item' :: rest')
          | Raises e => Raises e
          | RaisesUnboundLocalError => RaisesUnboundLocalError
          end
      | Raises e => Raises e
      | RaisesUnboundLocalError => RaisesUnboundLocalError
      end
  end.

(** [merge_info]: row [i] is [{**input_iterable[i], **nominatim_iterable[i]}]
    for every index of [input_iterable]; the second list is read by index
    and may be too short. *)
Fixpoint merge_info (input_iterable nominatim_iterable : list dict) : result (list dict) :=
  match input_iterable, nominatim_iterable with
  | [], _ => Ok []
  | _ :: _, [] => Raise IndexError
  | a :: input_rest, b :: nominatim_rest =>
      output ← merge_info input_rest nominatim_rest;
      Ok ((b ∪ a) :: output)
  end.

(** The first loop of [remap_nominatim] and [remap_tzfinder]:
    [new_row[prefix + key] = row[key]] for the listed keys. *)
Fixpoint prefix_keys (prefix : string) (keys : list string) (row new_row : dict)
  : result dict :=
  match keys with
  | [] => Ok new_row
  | key :: rest =>
      v ← getitem row key;
      prefix_keys prefix rest row (<[String.append prefix key := v]> new_row)
  end.

(** Their second loop: [new_row[key] = row[key]] for the keys of
    [set(row.keys()) - set(keys)], in the order [elements] gives. *)
Definition copy_other_keys (keys : list string) (row new_row : dict) : result dict :=
  foldr (fun key acc => new_row ← acc; v ← getitem row key; Ok (<[key := v]> new_row))
        (Ok new_row)
        (elements (dom row ∖ (list_to_set keys : gset string))).

Definition nominatim_keys : list string :=
  ["place"; "place_type"; "town"; "town_type"; "sub_region"; "sub_region_type";
   "region"; "region_type"; "country"; "timezone"; "zipcode"].

Definition remap_nominatim (row : dict) : result dict :=
  new_row ← prefix_keys "nominatim_" nominatim_keys row ∅;
  copy_other_keys nominatim_keys row new_row.

Definition remap_tzfinder (row : dict) : result dict :=
  new_row ← prefix_keys "tzfinder_" ["timezone"] row ∅;
  copy_other_keys ["timezone"] row new_row.

End mongodb_rows.

(** The row has a ['name'] that [names] holds. *)
Definition name_in (other_eq : pyval -> pyval -> bool) (names : list pyval) (row : dict)
  : Prop :=
  match row !! "name" with
  | Some n => mongodb.py_in other_eq n names = true
  | None => False
  end.

#[global] Instance name_in_dec other_eq names row : Decision (name_in other_eq names row).
Proof. unfold name_in. destruct (row !! "name"); apply _. Defined.

(** [item'] is [item] with its MAC formatted. *)
Definition mac_remapped (item item' : dict) : Prop :=
  exists mac m, item !! "mac" = Some mac /\ formatted_mac mac = Ok m /\
                item' = <["mac" := PyStr m]> item.

(* ===================================================================== *)
(** * Properties *)
(* ===================================================================== *)

(** ** Evaluation on sample inputs *)

Example int16_ex1 : int16 (s2l "1a") = Some 26. Proof. reflexivity. Qed.
Example int16_ex2 : int16 (s2l " 0x_fF ") = Some 255. Proof. reflexivity. Qed.
Example int16_ex3 : int16 (s2l "-a") = Some (-10). Proof. reflexivity. Qed.
Example int16_ex4 : int16 (s2l "1__0") = None. Proof. reflexivity. Qed.
Example int16_ex5 : int16 (s2l "") = None. Proof. reflexivity. Qed.
Example int16_ex6 : int16 (s2l "0x") = None. Proof. reflexivity. Qed.
Example int16_ex7 : int16 (s2l "1_0") = Some 16. Proof. reflexivity. Qed.
Example format_ex1 : l2s (format_02X 10) = "0A"%string. Proof. reflexivity. Qed.
Example format_ex2 : l2s (format_02X 256) = "100"%string. Proof. reflexivity. Qed.
Example format_ex3 : l2s (format_02X (-10)) = "-A"%string. Proof. reflexivity. Qed.
Example format_ex4 : l2s (format_02X 0) = "00"%string. Proof. reflexivity. Qed.
Example formatted_mac_ex1 :
  formatted_mac (PyStr "1a:2:3:4:5:ff") = Ok "1A:02:03:04:05:FF"%string.
Proof. reflexivity. Qed.
Example formatted_mac_ex2 : formatted_mac (PyStr "1a:zz") = Raise ValueError.
Proof. reflexivity. Qed.
Example is_mac_ex1 : is_mac "1A:02:03:04:05:FF" = true.
Proof. reflexivity. Qed.
Example is_mac_ex2 : is_mac "1A:2:3:4:5:FF" = false /\ is_tess_mac "1A:2:3:4:5:FF" = true.
Proof. split; reflexivity. Qed.

(** ** Facts about [split] and [join] *)

Lemma split_nonempty (s : str) : split s <> [].
Proof.
  destruct s as [|c s]; simpl; [discriminate|].
  destruct (Ascii.eqb c colon); [discriminate|].
  destruct (split s); discriminate.
Qed.

Lemma split_app_colon (seg rest : str) :
  ~ In colon seg -> split (seg ++ colon :: rest) = seg :: split rest.
Proof.
  induction seg as [|c seg IH]; intros Hnc; simpl.
  - reflexivity.
  - destruct (Ascii.eqb_spec c colon) as [->|Hne].
    + exfalso. apply Hnc. now left.
    + rewrite IH; [reflexivity|]. intros Hin. apply Hnc. now right.
Qed.

Lemma split_no_colon (seg : str) : ~ In colon seg -> split seg = [seg].
Proof.
  induction seg as [|c seg IH]; intros Hnc; simpl.
  - reflexivity.
  - destruct (Ascii.eqb_spec c colon) as [->|Hne].
    + exfalso. apply Hnc. now left.
    + rewrite IH; [reflexivity|]. intros Hin. apply Hnc. now right.
Qed.

Lemma split_join (segs : list str) :
  segs <> [] -> Forall (fun seg => ~ In colon seg) segs -> split (join segs) = segs.
Proof.
  induction segs as [|seg rest IH]; intros Hne Hall; [congruence|].
  inversion Hall as [|? ? Hseg Hrest]; subst.
  destruct rest as [|seg' rest'].
  - simpl. now apply split_no_colon.
  - change (join (seg :: seg' :: rest')) with (seg ++ colon :: join (seg' :: rest')).
    rewrite split_app_colon by assumption.
    rewrite IH; [reflexivity|discriminate|assumption].
Qed.

Lemma traverse_int16_length (segs : list str) (ns : list Z) :
  traverse_int16 segs = Some ns -> length ns = length segs.
Proof.
  revert ns. induction segs as [|seg rest IH]; intros ns H; simpl in H.
  - now inversion H.
  - destruct (int16 seg); [|discriminate].
    destruct (traverse_int16 rest) as [ns'|]; [|discriminate].
    inversion H; subst. simpl. f_equal. now apply IH.
Qed.

Lemma traverse_int16_Forall2 (segs : list str) (ns : list Z) :
  traverse_int16 segs = Some ns <-> Forall2 (fun seg n => int16 seg = Some n) segs ns.
Proof.
  revert ns. induction segs as [|seg rest IH]; intros ns; simpl.
  - split.
    + intros H; inversion H; constructor.
    + intros H; inversion H; reflexivity.
  - split.
    + destruct (int16 seg) eqn:E; [|discriminate].
      destruct (traverse_int16 rest) as [ns'|] eqn:E'; [|discriminate].
      intros H; inversion H; subst. constructor; [assumption|]. now apply IH.
    + intros H. inversion H as [|? n ? ns' Hn Hrest]; subst.
      rewrite Hn. apply IH in Hrest. now rewrite Hrest.
Qed.

(** ** The upper-case hexadecimal digits *)

Lemma hex_char_hexU (d : Z) : 0 <= d < 16 -> hexU (hex_char d).
Proof.
  intros H.
  assert (d = 0 \/ d = 1 \/ d = 2 \/ d = 3 \/ d = 4 \/ d = 5 \/ d = 6 \/ d = 7 \/
          d = 8 \/ d = 9 \/ d = 10 \/ d = 11 \/ d = 12 \/ d = 13 \/ d = 14 \/ d = 15)
    as Hd by lia.
  unfold hexU.
  repeat (destruct Hd as [->|Hd]; [vm_compute; tauto|]).
  subst; vm_compute; tauto.
Qed.

Lemma digit_value_hex_char (d : Z) : 0 <= d < 16 -> digit_value (hex_char d) = Some d.
Proof.
  intros H.
  assert (d = 0 \/ d = 1 \/ d = 2 \/ d = 3 \/ d = 4 \/ d = 5 \/ d = 6 \/ d = 7 \/
          d = 8 \/ d = 9 \/ d = 10 \/ d = 11 \/ d = 12 \/ d = 13 \/ d = 14 \/ d = 15)
    as Hd by lia.
  repeat (destruct Hd as [->|Hd]; [reflexivity|]).
  subst; reflexivity.
Qed.

Lemma hexU_plain_digit (c : ascii) : hexU c -> plain_digit c.
Proof.
  unfold hexU. simpl. intros H.
  repeat (destruct H as [<-|H];
          [unfold plain_digit; repeat split; try reflexivity; eexists; reflexivity|]).
  destruct H.
Qed.

(** ** [format_02X] is read back by [int16] *)

Lemma div16_bound (fuel : nat) (n : Z) :
  0 <= n < 2 ^ (Z.of_nat (S fuel) + 1) ->
  0 <= n / 16 < 2 ^ (Z.of_nat fuel + 1).
Proof.
  intros Hn.
  replace (Z.of_nat (S fuel) + 1) with (Z.succ (Z.of_nat fuel + 1)) in Hn by lia.
  rewrite Z.pow_succ_r in Hn by lia.
  split; [apply Z.div_pos; lia|].
  apply Z.div_lt_upper_bound; lia.
Qed.

Lemma hex_digits_aux_hexU (fuel : nat) :
  forall (n : Z) (acc : str),
    0 <= n < 2 ^ (Z.of_nat fuel + 1) -> Forall hexU acc ->
    Forall hexU (hex_digits_aux fuel n acc).
Proof.
  induction fuel as [|fuel IH]; intros n acc Hn Hacc; simpl hex_digits_aux.
  - constructor; [|assumption]. apply hex_char_hexU. simpl in Hn. lia.
  - destruct (Z.ltb_spec n 16) as [Hlt|Hge].
    + constructor; [|assumption]. apply hex_char_hexU. lia.
    + apply IH.
      * now apply div16_bound.
      * constructor; [|assumption]. apply hex_char_hexU.
        apply Z.mod_pos_bound. lia.
Qed.

Lemma scan_digits_hex_char (d : Z) (s : str) (a : Z) (k : nat) :
  0 <= d < 16 ->
  scan_digits (hex_char d :: s) false a k = scan_digits s false (a * 16 + d) (S k).
Proof.
  intros Hd. simpl.
  destruct (hexU_plain_digit _ (hex_char_hexU d Hd)) as (_ & _ & _ & _ & _ & _ & Hu & _).
  rewrite Hu, (digit_value_hex_char d Hd). reflexivity.
Qed.

Lemma scan_digits_hex_digits_aux (fuel : nat) :
  forall (n : Z) (acc : str),
    0 <= n < 2 ^ (Z.of_nat fuel + 1) ->
    exists len : nat,
      forall (a : Z) (k : nat),
        scan_digits (hex_digits_aux fuel n acc) false a k
        = scan_digits acc false (a * 16 ^ Z.of_nat (S len) + n) (k + S len)%nat.
Proof.
  induction fuel as [|fuel IH]; intros n acc Hn; simpl hex_digits_aux.
  - exists 0%nat. intros a k. rewrite scan_digits_hex_char by (simpl in Hn; lia).
    replace (k + 1)%nat with (S k) by lia.
    replace (a * 16 ^ Z.of_nat 1 + n) with (a * 16 + n) by (change (16 ^ Z.of_nat 1) with 16; lia).
    reflexivity.
  - destruct (Z.ltb_spec n 16) as [Hlt|Hge].
    + exists 0%nat. intros a k. rewrite scan_digits_hex_char by lia.
      replace (k + 1)%nat with (S k) by lia.
    replace (a * 16 ^ Z.of_nat 1 + n) with (a * 16 + n) by (change (16 ^ Z.of_nat 1) with 16; lia).
    reflexivity.
    + destruct (IH (n / 16) (hex_char (n mod 16) :: acc)) as [len Hlen].
      { now apply div16_bound. }
      exists (S len). intros a k. rewrite Hlen.
      rewrite scan_digits_hex_char by (apply Z.mod_pos_bound; lia).
      replace (S (k + S len)) with (k + S (S len))%nat by lia.
      replace ((a * 16 ^ Z.of_nat (S len) + n / 16) * 16 + n mod 16)
        with (a * 16 ^ Z.of_nat (S (S len)) + n); [reflexivity|].
      replace (Z.of_nat (S (S len))) with (Z.succ (Z.of_nat (S len))) by lia.
      rewrite Z.pow_succ_r by lia.
      pose proof (Z.div_mod n 16 ltac:(lia)). lia.
Qed.

Lemma log2_fuel (n : Z) : 0 <= n -> 0 <= n < 2 ^ (Z.of_nat (Z.to_nat (Z.log2 n)) + 1).
Proof.
  intros Hn. rewrite Z2Nat.id by apply Z.log2_nonneg.
  split; [assumption|].
  destruct (Z.eq_dec n 0) as [->|Hnz]; [reflexivity|].
  replace (Z.log2 n + 1) with (Z.succ (Z.log2 n)) by lia.
  apply Z.log2_spec. lia.
Qed.

Lemma hex_digits_hexU (n : Z) : 0 <= n -> Forall hexU (hex_digits n).
Proof.
  intros Hn. apply hex_digits_aux_hexU; [now apply log2_fuel|constructor].
Qed.

Lemma hex_digits_scan (n : Z) :
  0 <= n ->
  exists len : nat,
    forall (a : Z) (k : nat),
      scan_digits (hex_digits n) false a k
      = Some (a * 16 ^ Z.of_nat (S len) + n, (k + S len)%nat, []).
Proof.
  intros Hn.
  destruct (scan_digits_hex_digits_aux _ n [] (log2_fuel n Hn)) as [len Hlen].
  exists len. intros a k. unfold hex_digits. now rewrite Hlen.
Qed.

Lemma hex_digits_nonempty (n : Z) : hex_digits n <> [].
Proof.
  unfold hex_digits. destruct (Z.to_nat (Z.log2 n)); simpl; [discriminate|].
  destruct (n <? 16); [discriminate|].
  generalize (n / 16) (hex_char (n mod 16) :: []).
  induction n0 as [|f IH]; intros m acc; simpl; [discriminate|].
  destruct (m <? 16); [discriminate|apply IH].
Qed.

Lemma map_space_to_ascii_plain (s : str) :
  Forall plain_digit s -> map space_to_ascii s = s.
Proof.
  induction 1 as [|c s Hc _ IH]; simpl; [reflexivity|].
  destruct Hc as (-> & _). now rewrite IH.
Qed.

(** A non-empty run of plain digits that scans to [v] is an integer
    literal of value [v], and with a minus sign in front one of value [-v]. *)
Lemma int16_plain_digits (s : str) (v : Z) (k : nat) :
  Forall plain_digit s -> s <> [] ->
  scan_digits s false 0 0 = Some (v, S k, []) ->
  int16 s = Some v /\ int16 ("-"%char :: s) = Some (- v).
Proof.
  intros Hall Hne Hscan.
  assert (Hprefix : skip_radix_prefix s = s).
  { destruct s as [|c0 [|c1 r]]; try reflexivity.
    inversion Hall as [|? ? _ Hr]; subst. inversion Hr as [|? ? Hc1 _]; subst.
    destruct Hc1 as (_ & _ & _ & _ & Hx & HX & _).
    unfold skip_radix_prefix. rewrite Hx, HX, andb_false_r. reflexivity. }
  assert (Hus : starts_with_underscore s = false).
  { destruct s as [|c r]; [reflexivity|].
    inversion Hall as [|? ? Hc _]; subst. apply Hc. }
  destruct s as [|c r]; [congruence|].
  inversion Hall as [|? ? Hc Hr]; subst.
  pose proof (map_space_to_ascii_plain _ Hall) as Hmap.
  destruct Hc as (Hsp & Hnsp & Hplus & Hminus & _).
  split.
  - unfold int16. rewrite Hmap. simpl skip_spaces. rewrite Hnsp.
    unfold read_sign. rewrite Hplus, Hminus.
    rewrite Hprefix, Hus, Hscan. simpl. f_equal; lia.
  - unfold int16. change (map space_to_ascii ("-"%char :: c :: r))
      with ("-"%char :: map space_to_ascii (c :: r)).
    rewrite Hmap.
    cbn [skip_spaces]. change (Py_ISSPACE "-"%char) with false. cbv iota.
    cbn [read_sign]. change (Ascii.eqb "-"%char "+"%char) with false.
    change (Ascii.eqb "-"%char "-"%char) with true. cbv iota.
    rewrite Hprefix, Hus, Hscan. simpl. f_equal; lia.
Qed.

Lemma Forall_hexU_plain (s : str) : Forall hexU s -> Forall plain_digit s.
Proof. apply List.Forall_impl. exact hexU_plain_digit. Qed.

Lemma int16_format_02X (n : Z) : int16 (format_02X n) = Some n.
Proof.
  unfold format_02X.
  destruct (Z.ltb_spec n 0) as [Hneg|Hpos].
  - destruct (hex_digits_scan (- n) ltac:(lia)) as [len Hlen].
    specialize (Hlen 0 0%nat). simpl (0 * _ + _) in Hlen.
    destruct (int16_plain_digits (hex_digits (- n)) (- n) len) as [_ H].
    + apply Forall_hexU_plain, hex_digits_hexU. lia.
    + apply hex_digits_nonempty.
    + exact Hlen.
    + rewrite H. f_equal; lia.
  - destruct (hex_digits_scan n Hpos) as [len Hlen].
    pose proof (hex_digits_hexU n Hpos) as HU.
    destruct (length (hex_digits n) <? 2)%nat.
    + destruct (int16_plain_digits ("0"%char :: hex_digits n) n (S len)) as [H _].
      * apply Forall_hexU_plain. constructor; [|assumption].
        unfold hexU. simpl. tauto.
      * discriminate.
      * change ("0"%char) with (hex_char 0).
        rewrite scan_digits_hex_char by lia. rewrite Hlen.
        replace (1 + S len)%nat with (S (S len)) by lia.
        replace ((0 * 16 + 0) * 16 ^ Z.of_nat (S len) + n) with n by lia. reflexivity.
      * exact H.
    + destruct (int16_plain_digits (hex_digits n) n len) as [H _].
      * now apply Forall_hexU_plain.
      * apply hex_digits_nonempty.
      * rewrite Hlen. replace (0 * 16 ^ Z.of_nat (S len) + n) with n by lia. reflexivity.
      * exact H.
Qed.

Lemma format_02X_no_colon (n : Z) : ~ In colon (format_02X n).
Proof.
  assert (Hhex : forall m, 0 <= m -> ~ In colon (hex_digits m)).
  { intros m Hm Hin. pose proof (hex_digits_hexU m Hm) as HU.
    rewrite List.Forall_forall in HU. apply HU in Hin.
    apply hexU_plain_digit in Hin.
    destruct Hin as (_ & _ & _ & _ & _ & _ & _ & Hc & _). discriminate Hc. }
  unfold format_02X.
  destruct (Z.ltb_spec n 0) as [Hneg|Hpos].
  - intros [Heq|Hin]; [discriminate Heq|]. apply (Hhex (- n)); [lia|assumption].
  - destruct (length (hex_digits n) <? 2)%nat.
    + intros [Heq|Hin]; [discriminate Heq|]. now apply (Hhex n).
    + now apply Hhex.
Qed.

Lemma traverse_int16_format (ns : list Z) :
  traverse_int16 (map format_02X ns) = Some ns.
Proof.
  induction ns as [|n ns IH]; simpl; [reflexivity|].
  now rewrite int16_format_02X, IH.
Qed.

Lemma formatted_mac_str_idempotent (mac r : string) :
  formatted_mac_str mac = Some r -> formatted_mac_str r = Some r.
Proof.
  unfold formatted_mac_str.
  destruct (traverse_int16 (split (s2l mac))) as [ns|] eqn:E; [|discriminate].
  intros H; inversion H; subst; clear H.
  unfold s2l, l2s in *. rewrite list_ascii_of_string_of_list_ascii.
  rewrite split_join.
  - now rewrite traverse_int16_format.
  - apply traverse_int16_length in E.
    pose proof (split_nonempty (list_ascii_of_string mac)) as Hne.
    destruct ns; [|discriminate].
    destruct (split (list_ascii_of_string mac)); [congruence|simpl in E; lia].
  - apply List.Forall_forall. intros seg Hin. apply List.in_map_iff in Hin.
    destruct Hin as (n & Heq & _). subst seg. apply format_02X_no_colon.
Qed.

Lemma formatted_mac_str_values (m1 m2 r1 r2 : string) :
  formatted_mac_str m1 = Some r1 -> formatted_mac_str m2 = Some r2 ->
  same_segment_values m1 m2 -> r1 = r2.
Proof.
  unfold formatted_mac_str, same_segment_values.
  destruct (traverse_int16 (split (s2l m1))) as [ns1|] eqn:E1; [|discriminate].
  destruct (traverse_int16 (split (s2l m2))) as [ns2|] eqn:E2; [|discriminate].
  intros H1 H2 Hsame. inversion H1; inversion H2; subst; clear H1 H2.
  apply traverse_int16_Forall2 in E1, E2.
  enough (ns1 = ns2) by now subst.
  revert ns1 ns2 E1 E2.
  induction Hsame as [|a b l1 l2 Hab _ IH]; intros ns1 ns2 E1 E2.
  - inversion E1; inversion E2; reflexivity.
  - inversion E1 as [|? n1 ? ns1' Hn1 Hr1]; inversion E2 as [|? n2 ? ns2' Hn2 Hr2]; subst.
    f_equal; [congruence|now apply IH].
Qed.

Example formatted_mac_case_and_zeros :
  formatted_mac (PyStr "aa:b:0:1:2:3") = Ok "AA:0B:00:01:02:03"%string /\
  formatted_mac (PyStr "0Aa:00B:00:01:2:003") = Ok "AA:0B:00:01:02:03"%string.
Proof. split; reflexivity. Qed.

(** C4: [formatted_mac] is canonicalizing. Applied to its own output it
    succeeds and returns that output unchanged; and two accepted strings
    whose colon-separated segments denote the same hexadecimal values get
    the same output. *)
Theorem formatted_mac_canonical :
  (forall mac r : string,
      formatted_mac (PyStr mac) = Ok r -> formatted_mac (PyStr r) = Ok r) /\
  (forall m1 m2 r1 r2 : string,
      formatted_mac (PyStr m1) = Ok r1 -> formatted_mac (PyStr m2) = Ok r2 ->
      same_segment_values m1 m2 -> r1 = r2).
Proof.
  split.
  - intros mac r H. simpl in *.
    destruct (formatted_mac_str mac) as [r'|] eqn:E; [|discriminate].
    inversion H; subst. now rewrite (formatted_mac_str_idempotent _ _ E).
  - intros m1 m2 r1 r2 H1 H2 Hsame. simpl in *.
    destruct (formatted_mac_str m1) as [r1'|] eqn:E1; [|discriminate].
    destruct (formatted_mac_str m2) as [r2'|] eqn:E2; [|discriminate].
    inversion H1; inversion H2; subst.
    exact (formatted_mac_str_values _ _ _ _ E1 E2 Hsame).
Qed.

Lemma formatted_mac_canonical_witness :
  formatted_mac (PyStr "1A:0B") = Ok "1A:0B"%string /\
  "1A:0B"%string = "1A:0B"%string.
Proof.
  split.
  - apply (proj1 formatted_mac_canonical "1a:b"%string). reflexivity.
  - apply (proj2 formatted_mac_canonical "1a:b"%string "01A:0b"%string);
      [reflexivity|reflexivity|].
    repeat constructor.
Defined.

(** C9: the validation of [formatted_mac] is weaker than the MAC
    predicates. It succeeds on a string with fewer than six segments and on
    a string with a segment above 0xFF; neither input nor output passes
    [is_mac], and the large segment is printed with more than two
    characters. *)
Theorem formatted_mac_weaker_than_is_mac :
  (exists mac r : string,
      (length (split (s2l mac)) < 6)%nat /\ is_mac mac = false /\
      formatted_mac (PyStr mac) = Ok r /\ is_mac r = false) /\
  (exists (mac r : string) (seg : str) (v : Z),
      In seg (split (s2l mac)) /\ int16 seg = Some v /\ 255 < v /\
      is_mac mac = false /\
      formatted_mac (PyStr mac) = Ok r /\ is_mac r = false /\
      In (format_02X v) (split (s2l r)) /\ (2 < length (format_02X v))%nat).
Proof.
  split.
  - exists "1:2"%string, "01:02"%string. repeat split; vm_compute; lia.
  - exists "100:0:0:0:0:0"%string, "100:00:00:00:00:00"%string, (s2l "100"), 256.
    repeat split; try reflexivity; try (vm_compute; tauto); try lia.
    vm_compute. lia.
Qed.

(** ** dbutils.py: key sets *)

Lemma list_to_set_keys `{Countable K} {V : Type} (m : gmap K V) :
  list_to_set (C := gset K) (keys m) = dom m.
Proof.
  apply set_eq. intros k.
  rewrite elem_of_list_to_set, elem_of_dom. unfold keys.
  rewrite list_elem_of_fmap. split.
  - intros [[k' v] [-> Hin]]. apply elem_of_map_to_list in Hin. now exists v.
  - intros [v Hv]. exists (k, v). split; [reflexivity|].
    now apply elem_of_map_to_list.
Qed.

(** C8: [common_A_B_items] is the intersection of the key sets,
    [in_A_not_in_B] the keys of A that are not keys of B; the two results
    are disjoint and together make up the key set of A. *)
Theorem common_and_difference_split_keys `{Countable K} {V W : Type}
    (A : gmap K V) (B : gmap K W) :
  common_A_B_items A B = dom A ∩ dom B /\
  in_A_not_in_B A B = dom A ∖ dom B /\
  common_A_B_items A B ## in_A_not_in_B A B /\
  common_A_B_items A B ∪ in_A_not_in_B A B = dom A.
Proof.
  unfold common_A_B_items, in_A_not_in_B. rewrite !list_to_set_keys.
  repeat split.
  - intros k Hc Hd. apply elem_of_intersection in Hc. apply elem_of_difference in Hd. tauto.
  - apply set_eq. intros k. rewrite elem_of_union, elem_of_intersection, elem_of_difference.
    destruct (decide (k ∈ dom B)); tauto.
Qed.

(** ** dbutils.py: [group_by] *)

Section group_by_facts.
Context `{Countable V}.
Implicit Types (g groups : gmap V (list (gmap string V))).
Implicit Types (r : gmap string V) (k : V) (key : string).

Lemma group_of_insert_eq g k l : group_of (<[k := l]> g) k = l.
Proof. unfold group_of. now rewrite lookup_insert_eq. Qed.

Lemma group_of_insert_ne g k k' l : k <> k' -> group_of (<[k := l]> g) k' = group_of g k'.
Proof. intros Hne. unfold group_of. now rewrite lookup_insert_ne. Qed.

Lemma grouped_rows_append g k r :
  grouped_rows (<[k := group_of g k ++ [r]]> g) ≡ₚ grouped_rows g ++ [r].
Proof.
  unfold grouped_rows, group_of.
  destruct (g !! k) as [l|] eqn:E; simpl.
  - rewrite <- (insert_delete_eq g).
    rewrite map_to_list_insert by apply lookup_delete_eq.
    rewrite <- (map_to_list_delete g k l E). simpl.
    rewrite <- !app_assoc. apply Permutation_app_head, Permutation_app_comm.
  - rewrite map_to_list_insert by assumption. simpl.
    apply Permutation_cons_append.
Qed.

(** The loop, started from any groups, appends to each group the later
    rows of its key, in their order. *)
Lemma group_by_loop_spec key iterable :
  forall groups,
    (forall r, In (Some r) iterable -> is_Some (r !! key)) ->
    exists g,
      group_by_loop key groups iterable = Ok g /\
      (forall k, group_of g k
                 = group_of groups k ++ filter (fun r => r !! key = Some k) (not_None iterable)) /\
      ((forall k l, groups !! k = Some l -> l <> []) -> forall k l, g !! k = Some l -> l <> []) /\
      grouped_rows g ≡ₚ grouped_rows groups ++ not_None iterable.
Proof.
  induction iterable as [|row rest IH]; intros groups Hkey.
  - exists groups. simpl. repeat split.
    + intros k. now rewrite app_nil_r.
    + auto.
    + now rewrite app_nil_r.
  - destruct row as [r|].
    + destruct (Hkey r (or_introl eq_refl)) as [k0 Hk0].
      destruct (IH (<[k0 := group_of groups k0 ++ [r]]> groups)) as (g & Hg & Hgrp & Hne & Hperm).
      { intros r' Hin. apply Hkey. now right. }
      exists g. simpl. unfold getitem. rewrite Hk0. simpl.
      split; [exact Hg|]. split; [|split].
      * intros k. rewrite Hgrp. unfold not_None. simpl.
        rewrite filter_cons. destruct (decide (k0 = k)) as [->|Hnek].
        -- rewrite group_of_insert_eq, decide_True by assumption.
           now rewrite <- app_assoc.
        -- rewrite group_of_insert_ne by assumption.
           rewrite decide_False by congruence. reflexivity.
      * intros Hgroups. apply Hne. intros k l.
        rewrite lookup_insert. destruct (decide (k0 = k)) as [->|Hnek].
        -- intros Heq. inversion Heq. now destruct (group_of groups k).
        -- apply Hgroups.
      * rewrite Hperm, grouped_rows_append. unfold not_None. simpl.
        now rewrite <- app_assoc.
    + destruct (IH groups) as (g & Hg & Hgrp & Hne & Hperm).
      { intros r' Hin. apply Hkey. now right. }
      exists g. simpl. repeat split; assumption.
Qed.

End group_by_facts.

Lemma group_by_spec `{Countable V} (iterable : list (option (gmap string V))) (key : string) :
  (forall r, In (Some r) iterable -> is_Some (r !! key)) ->
  exists g,
    group_by iterable key = Ok g /\
    (forall k, group_of g k = filter (fun r => r !! key = Some k) (not_None iterable)) /\
    (forall k l, g !! k = Some l -> l <> []) /\
    grouped_rows g ≡ₚ not_None iterable.
Proof.
  intros Hkey.
  destruct (group_by_loop_spec key iterable ∅ Hkey) as (g & Hg & Hgrp & Hne & Hperm).
  exists g. split; [exact Hg|]. split; [|split].
  - intros k. rewrite Hgrp. unfold group_of. now rewrite lookup_empty.
  - apply Hne. intros k l. now rewrite lookup_empty.
  - rewrite Hperm. unfold grouped_rows. now rewrite map_to_list_empty.
Qed.

Lemma In_not_None {A : Type} (iterable : list (option A)) (r : A) :
  In r (not_None iterable) <-> In (Some r) iterable.
Proof.
  unfold not_None. induction iterable as [|[a|] rest IH]; simpl.
  - tauto.
  - rewrite IH. split; (intros [Heq|Hin]; [left; congruence|now right]).
  - rewrite IH. split; [now right|]. intros [Heq|Hin]; [discriminate|assumption].
Qed.

(** C10: when every row that is not [None] has the key, [group_by]
    returns a mapping that partitions those rows: the group of a key value
    is the sub-list, in input order, of the rows with that value under the
    key; no group is empty; a row is in the group of its own key value and
    in no other; and all groups together are a rearrangement of the rows
    that are not [None] (each occurrence once). A [None] is in no group. *)
Theorem group_by_partitions_rows `{Countable V}
    (iterable : list (option (gmap string V))) (key : string) :
  (forall r, In (Some r) iterable -> is_Some (r !! key)) ->
  exists g,
    group_by iterable key = Ok g /\
    (forall k, group_of g k = filter (fun r => r !! key = Some k) (not_None iterable)) /\
    (forall k l, g !! k = Some l -> l <> []) /\
    (forall r k, In r (group_of g k) <-> In (Some r) iterable /\ r !! key = Some k) /\
    grouped_rows g ≡ₚ not_None iterable.
Proof.
  intros Hkey.
  destruct (group_by_spec iterable key Hkey) as (g & Hg & Hgrp & Hne & Hperm).
  exists g. split; [exact Hg|]. split; [exact Hgrp|]. split; [exact Hne|].
  split; [|exact Hperm].
  intros r k. rewrite Hgrp, <- list_elem_of_In, list_elem_of_filter, list_elem_of_In.
  rewrite In_not_None. tauto.
Qed.

Lemma group_by_partitions_rows_witness :
  let a1 : gmap string string := {[ "name" := "stars1"; "place" := "A" ]} in
  let b1 : gmap string string := {[ "name" := "stars2"; "place" := "B" ]} in
  let a2 : gmap string string := {[ "name" := "stars1"; "place" := "C" ]} in
  exists g,
    group_by [Some a1; None; Some b1; Some a2] "name" = Ok g /\
    group_of g "stars1" = [a1; a2] /\ group_of g "stars2" = [b1].
Proof.
  intros a1 b1 a2.
  destruct (group_by_partitions_rows [Some a1; None; Some b1; Some a2] "name")
    as (g & Hg & Hgrp & _).
  - intros r [Hr|[Hr|[Hr|[Hr|[]]]]]; inversion Hr; subst; eexists; reflexivity.
  - exists g. split; [exact Hg|]. rewrite !Hgrp. split; reflexivity.
Defined.

(** ** The remap functions *)

Lemma index_lt (row : tuple) (i : nat) :
  (i < length row)%nat -> exists v, row !! i = Some v /\ index row i = Ok v.
Proof.
  intros Hlt. destruct (lookup_lt_is_Some_2 row i Hlt) as [v Hv].
  exists v. unfold index. now rewrite Hv.
Qed.

Lemma formatted_mac_raises (mac : pyval) (e : exn) :
  formatted_mac mac = Raise e -> e = ValueError \/ exists b, mac = PyBytes b.
Proof.
  destruct mac as [|s|z|f|b|o]; simpl; try (intros Heq; inversion Heq; now left).
  - destruct (formatted_mac_str s); intros Heq; inversion Heq. now left.
  - intros _. right. now exists b.
Qed.

Ltac read_column row i v Hv Hi :=
  let H := fresh in
  assert (H : (i < length row)%nat) by lia;
  destruct (index_lt row i H) as (v & Hv & Hi); clear H.

Lemma zptess_tessdb_remap_info_remaps (row : tuple) :
  (5 <= length row)%nat -> remaps zptess.tessdb_remap_info 0 row.
Proof.
  intros Hlen.
  read_column row 0%nat v0 Hv0 Hi0. read_column row 1%nat v1 Hv1 Hi1.
  read_column row 2%nat v2 Hv2 Hi2. read_column row 3%nat v3 Hv3 Hi3.
  read_column row 4%nat v4 Hv4 Hi4.
  unfold remaps, zptess.tessdb_remap_info. rewrite Hi0, Hi1, Hi2, Hi3, Hi4. simpl.
  destruct (formatted_mac v0) as [m|e] eqn:Hm.
  - left. eexists _, v0, m. split; [reflexivity|]. split; [assumption|].
    split; [assumption|].
    now rewrite !lookup_insert_ne, lookup_insert_eq by discriminate.
  - right. split; [reflexivity|]. intros (mac & m & Hrow & Hok). congruence.
Qed.

Lemma zptess_zptess_remap_info_remaps (row : tuple) :
  (5 <= length row)%nat -> remaps zptess.zptess_remap_info 0 row.
Proof.
  intros Hlen.
  read_column row 0%nat v0 Hv0 Hi0. read_column row 1%nat v1 Hv1 Hi1.
  read_column row 2%nat v2 Hv2 Hi2. read_column row 3%nat v3 Hv3 Hi3.
  read_column row 4%nat v4 Hv4 Hi4.
  unfold remaps, zptess.zptess_remap_info. rewrite Hi0, Hi1, Hi2, Hi3, Hi4. simpl.
  destruct (formatted_mac v0) as [m|e] eqn:Hm.
  - left. eexists _, v0, m. split; [reflexivity|]. split; [assumption|].
    split; [assumption|].
    now rewrite !lookup_insert_ne, lookup_insert_eq by discriminate.
  - right. split; [reflexivity|]. intros (mac & m & Hrow & Hok). congruence.
Qed.

Lemma tessdb_tessdb_remap_info_remaps (row : tuple) :
  (4 <= length row)%nat /\ (forall b, row !! 1%nat <> Some (PyBytes b)) ->
  remaps tessdb.tessdb_remap_info 1 row.
Proof.
  intros [Hlen Hbytes].
  read_column row 0%nat v0 Hv0 Hi0. read_column row 1%nat v1 Hv1 Hi1.
  read_column row 2%nat v2 Hv2 Hi2. read_column row 3%nat v3 Hv3 Hi3.
  unfold remaps, tessdb.tessdb_remap_info. rewrite Hi0, Hi1, Hi2, Hi3. simpl.
  destruct (formatted_mac v1) as [m|e] eqn:Hm.
  - left. eexists _, v1, m. split; [reflexivity|]. split; [assumption|].
    split; [assumption|].
    now rewrite !lookup_insert_ne, lookup_insert_eq by discriminate.
  - right. destruct (formatted_mac_raises _ _ Hm) as [->|[b ->]].
    + split; [reflexivity|]. intros (mac & m & Hrow & Hok). congruence.
    + exfalso. now apply (Hbytes b).
Qed.

Lemma remap_functions_remap (remap : tuple -> result (option dict)) (c : nat)
    (readable : tuple -> Prop) :
  In (remap, c, readable) remap_functions ->
  forall row, readable row -> remaps remap c row.
Proof.
  intros [Heq|[Heq|[Heq|[]]]]; inversion Heq; subst; clear Heq.
  - exact zptess_tessdb_remap_info_remaps.
  - exact zptess_zptess_remap_info_remaps.
  - exact tessdb_tessdb_remap_info_remaps.
Qed.

Lemma list_map_remaps (remap : tuple -> result (option dict)) (c : nat) (rows : list tuple) :
  Forall (remaps remap c) rows ->
  exists out,
    list_map remap rows = Ok out /\
    Forall2 (fun row o => remap row = Ok o) rows out.
Proof.
  induction 1 as [|row rows Hrow _ (out & Hout & Hall)].
  - exists []. split; [reflexivity|constructor].
  - assert (exists o, remap row = Ok o) as [o Ho].
    { destruct Hrow as [(new_row & _ & _ & Hr & _)|[Hr _]]; eauto. }
    exists (o :: out). simpl. rewrite Ho. simpl. rewrite Hout. simpl.
    split; [reflexivity|]. now constructor.
Qed.

(** C7: rows with a malformed MAC are skipped. When [formatted_mac]
    raises [ValueError] on the MAC of a row, the remap functions return
    [None]; and grouping the remapped rows succeeds, its groups hold the
    rows that are not [None] and nothing else, a row being [None] exactly
    when its MAC was not formatted and otherwise found in the group of its
    formatted MAC. *)
Theorem malformed_mac_rows_skipped :
  (forall (row : tuple) (mac : pyval),
      row !! 0%nat = Some mac -> formatted_mac mac = Raise ValueError ->
      zptess.tessdb_remap_info row = Ok None /\ zptess.zptess_remap_info row = Ok None) /\
  (forall (row : tuple) (mac : pyval),
      row !! 1%nat = Some mac -> formatted_mac mac = Raise ValueError ->
      tessdb.tessdb_remap_info row = Ok None) /\
  (forall remap c readable (rows : list tuple),
      In (remap, c, readable) remap_functions -> Forall readable rows ->
      exists out g,
        list_map remap rows = Ok out /\ group_by_mac out = Ok g /\
        grouped_rows g ≡ₚ not_None out /\
        Forall2 (fun row o =>
                   match o with
                   | None => ~ mac_formatted c row
                   | Some new_row =>
                       exists mac m,
                         row !! c = Some mac /\ formatted_mac mac = Ok m /\
                         new_row !! "mac" = Some (PyStr m) /\
                         In new_row (group_of g (PyStr m))
                   end) rows out).
Proof.
  split; [|split].
  - intros row mac Hrow Hmac.
    unfold zptess.tessdb_remap_info, zptess.zptess_remap_info, index.
    rewrite Hrow. simpl. rewrite Hmac. split; reflexivity.
  - intros row mac Hrow Hmac. unfold tessdb.tessdb_remap_info, index.
    rewrite Hrow. simpl. rewrite Hmac. reflexivity.
  - intros remap c readable rows Hin Hrows.
    assert (Hall : Forall (remaps remap c) rows).
    { eapply List.Forall_impl; [|exact Hrows].
      exact (remap_functions_remap remap c readable Hin). }
    destruct (list_map_remaps remap c rows Hall) as (out & Hout & Hpair).
    assert (Hspec : Forall2 (fun row o =>
              match o with
              | None => ~ mac_formatted c row
              | Some new_row =>
                  exists mac m,
                    row !! c = Some mac /\ formatted_mac mac = Ok m /\
                    new_row !! "mac" = Some (PyStr m)
              end) rows out).
    { clear Hout. induction Hpair as [|row o rows out Ho _ IH]; [constructor|].
      inversion Hall as [|? ? Hrow Hall']; subst.
      inversion Hrows as [|? ? _ Hrows']; subst.
      constructor; [|now apply IH].
      destruct Hrow as [(new_row & mac & m & Hr & Hc & Hm & Hk)|[Hr Hn]];
        rewrite Hr in Ho; inversion Ho; subst; eauto. }
    destruct (group_by_spec out "mac") as (g & Hg & Hgrp & _ & Hperm).
    { intros r Hr. clear -Hspec Hr.
      induction Hspec as [|row o rows out Ho _ IH]; [destruct Hr|].
      destruct Hr as [->|Hr]; [|now apply IH].
      destruct Ho as (mac & m & _ & _ & Hk). now rewrite Hk. }
    exists out, g. split; [exact Hout|]. split; [exact Hg|]. split; [exact Hperm|].
    assert (Hmem : forall r m, In (Some r) out -> r !! "mac" = Some (PyStr m) ->
                               In r (group_of g (PyStr m))).
    { intros r m Hr Hk. rewrite Hgrp. apply list_elem_of_In, list_elem_of_filter.
      split; [assumption|]. now apply list_elem_of_In, In_not_None. }
    clear -Hspec Hmem.
    induction Hspec as [|row o rows out Ho _ IH]; [constructor|].
    constructor.
    + destruct o as [new_row|]; [|exact Ho].
      destruct Ho as (mac & m & Hc & Hm & Hk). exists mac, m.
      repeat split; try assumption. apply Hmem; [now left|assumption].
    + apply IH. intros r m Hr. apply Hmem. now right.
Qed.

Lemma malformed_mac_rows_skipped_witness :
  zptess.tessdb_remap_info [PyStr "1a:zz"; PyStr "Current"; PyFloat 0; PyNone; PyNone]
  = Ok None /\
  tessdb.tessdb_remap_info [PyStr "stars1"; PyNone; PyFloat 0; PyStr "UV"] = Ok None /\
  exists out g,
    list_map zptess.zptess_remap_info
      [ [PyStr "1a:2:3:4:5:6"; PyFloat 0; PyNone; PyStr "stars1"; PyStr "AUTO"];
        [PyStr "nonsense"; PyFloat 0; PyNone; PyStr "stars2"; PyStr "AUTO"] ] = Ok out /\
    group_by_mac out = Ok g /\ length (grouped_rows g) = 1%nat.
Proof.
  split; [|split].
  - apply (proj1 malformed_mac_rows_skipped _ (PyStr "1a:zz")); reflexivity.
  - apply (proj1 (proj2 malformed_mac_rows_skipped) _ PyNone); reflexivity.
  - destruct (proj2 (proj2 malformed_mac_rows_skipped)
                zptess.zptess_remap_info 0%nat (fun row => (5 <= length row)%nat)
                [ [PyStr "1a:2:3:4:5:6"; PyFloat 0; PyNone; PyStr "stars1"; PyStr "AUTO"];
                  [PyStr "nonsense"; PyFloat 0; PyNone; PyStr "stars2"; PyStr "AUTO"] ])
      as (out & g & Hout & Hg & Hperm & _).
    + right. left. reflexivity.
    + repeat constructor.
    + exists out, g. split; [exact Hout|]. split; [exact Hg|].
      rewrite (Permutation_length Hperm).
      simpl in Hout. inversion Hout. reflexivity.
Defined.

(** ** mongodb.py: [mongo_get_all] *)

Section mongodb_facts.
Variable other_eq : pyval -> pyval -> bool.

Lemma mongo_get_all_loop_no_length_error (names_list details_list : list dict) :
  mongodb.mongo_get_all_loop other_eq names_list details_list <> Raise ListLengthMismatchError.
Proof.
  revert details_list.
  induction names_list as [|item0 names_rest IH]; intros [|item1 details_rest]; simpl;
    try discriminate.
  unfold getitem.
  destruct (item0 !! "name") as [a|]; simpl; [|discriminate].
  destruct (item1 !! "name") as [b|]; simpl; [|discriminate].
  destruct (mongodb.py_eq other_eq a b); simpl; [|discriminate].
  specialize (IH details_rest).
  destruct (mongodb.mongo_get_all_loop other_eq names_rest details_rest); simpl;
    [discriminate|congruence].
Qed.

Lemma mongo_get_all_loop_equal_names (names_list details_list : list dict) :
  Forall2 (equal_names other_eq) names_list details_list ->
  mongodb.mongo_get_all_loop other_eq names_list details_list
  = Ok (zip_with with_mac names_list details_list).
Proof.
  induction 1 as [|item0 item1 names_rest details_rest (a & b & Ha & Hb & Heq) _ IH]; simpl.
  - reflexivity.
  - unfold getitem. rewrite Ha, Hb. simpl. rewrite Heq. simpl. rewrite IH. reflexivity.
Qed.

Lemma mongo_get_all_loop_first_mismatch (names_list details_list : list dict) (i : nat)
    (item0 item1 : dict) :
  Forall2 (equal_names other_eq) (take i names_list) (take i details_list) ->
  names_list !! i = Some item0 -> details_list !! i = Some item1 ->
  names_differ other_eq item0 item1 ->
  mongodb.mongo_get_all_loop other_eq names_list details_list = Raise NamesMismatchError.
Proof.
  revert names_list details_list.
  induction i as [|i IH]; intros [|n names_rest] [|d details_rest] Hpre Hn Hd Hdiff;
    try discriminate.
  - simpl in Hn, Hd. inversion Hn; inversion Hd; subst.
    destruct Hdiff as (a & b & Ha & Hb & Hne).
    simpl. unfold getitem. rewrite Ha, Hb. simpl. rewrite Hne. reflexivity.
  - simpl in Hpre, Hn, Hd. inversion Hpre as [|? ? ? ? (a & b & Ha & Hb & Heq) Hrest]; subst.
    simpl. unfold getitem. rewrite Ha, Hb. simpl. rewrite Heq. simpl.
    rewrite (IH names_rest details_rest Hrest Hn Hd Hdiff). reflexivity.
Qed.

(** C5: [mongo_get_all] raises [ListLengthMismatchError] exactly when the
    two lists differ in length. With equal lengths and equal names in every
    aligned pair it returns the details, each entry carrying the ['mac'] of
    the names entry of the same index; and it raises [NamesMismatchError]
    at the first aligned pair whose names differ. *)
Theorem mongo_get_all_correlates (names_list details_list : list dict) :
  (mongodb.mongo_get_all other_eq names_list details_list = Raise ListLengthMismatchError
   <-> length names_list <> length details_list) /\
  (length names_list = length details_list ->
   Forall2 (equal_names other_eq) names_list details_list ->
   mongodb.mongo_get_all other_eq names_list details_list
   = Ok (zip_with with_mac names_list details_list)) /\
  (forall (i : nat) (item0 item1 : dict),
      length names_list = length details_list ->
      Forall2 (equal_names other_eq) (take i names_list) (take i details_list) ->
      names_list !! i = Some item0 -> details_list !! i = Some item1 ->
      names_differ other_eq item0 item1 ->
      mongodb.mongo_get_all other_eq names_list details_list = Raise NamesMismatchError).
Proof.
  unfold mongodb.mongo_get_all.
  destruct (Nat.eqb_spec (length names_list) (length details_list)) as [Heq|Hne]; simpl.
  - split; [|split].
    + split; [|congruence]. intros Habs.
      now apply mongo_get_all_loop_no_length_error in Habs.
    + intros _. apply mongo_get_all_loop_equal_names.
    + intros i item0 item1 _. apply mongo_get_all_loop_first_mismatch.
  - split; [|split].
    + split; [intros _; exact Hne|reflexivity].
    + congruence.
    + congruence.
Qed.

End mongodb_facts.

Example mongo_get_all_entry_without_name :
  mongodb.mongo_get_all (fun _ _ => false)
    [ {[ "mac" := PyStr "AA:BB:CC:DD:EE:FF" ]} ] [ {[ "name" := PyStr "stars1" ]} ]
  = Raise KeyError.
Proof. reflexivity. Qed.

Lemma mongo_get_all_correlates_witness :
  let oe := fun _ _ : pyval => false in
  let n1 : dict := {[ "name" := PyStr "stars1"; "mac" := PyStr "AA:BB:CC:DD:EE:FF" ]} in
  let n2 : dict := {[ "name" := PyStr "stars2" ]} in
  let d1 : dict := {[ "name" := PyStr "stars1"; "info_tess" := PyOther "{}" ]} in
  let d2 : dict := {[ "name" := PyStr "stars2" ]} in
  let d3 : dict := {[ "name" := PyStr "stars3" ]} in
  mongodb.mongo_get_all oe [n1; n2] [d1; d2]
  = Ok [ <["mac" := PyStr "AA:BB:CC:DD:EE:FF"]> d1; <["mac" := PyNone]> d2 ] /\
  mongodb.mongo_get_all oe [n1; n2] [d1; d3] = Raise NamesMismatchError.
Proof.
  intros oe n1 n2 d1 d2 d3. split.
  - apply (proj1 (proj2 (mongo_get_all_correlates oe [n1; n2] [d1; d2]))).
    + reflexivity.
    + repeat constructor; eexists _, _; repeat split; reflexivity.
  - apply (proj2 (proj2 (mongo_get_all_correlates oe [n1; n2] [d1; d3])) 1%nat n2 d3).
    + reflexivity.
    + repeat constructor; eexists _, _; repeat split; reflexivity.
    + reflexivity.
    + reflexivity.
    + eexists _, _; repeat split; reflexivity.
Defined.

(** ** mongodb.py: [get_item] *)

Section get_item_facts.
Variable other_eq : pyval -> pyval -> bool.





End get_item_facts.



(** ** tessdb.py: [ORDER BY] *)

Section order_by_facts.
Context {A : Type} (leb : A -> A -> bool).

Lemma insert_by_perm (x : A) (l : list A) : insert_by leb x l ≡ₚ x :: l.
Proof.
  induction l as [|y l IH]; simpl; [reflexivity|].
  destruct (leb x y); [reflexivity|].
  rewrite IH. apply Permutation_swap.
Qed.

Lemma order_by_perm (l : list A) : order_by leb l ≡ₚ l.
Proof.
  induction l as [|x l IH]; simpl; [reflexivity|].
  now rewrite insert_by_perm, IH.
Qed.

Lemma order_by_length (l : list A) : length (order_by leb l) = length l.
Proof. apply Permutation_length, order_by_perm. Qed.

Lemma order_by_singleton (l : list A) (x : A) : order_by leb l = [x] <-> l = [x].
Proof.
  split.
  - intros Heq. pose proof (order_by_perm l) as Hperm. rewrite Heq in Hperm.
    symmetry. now apply Permutation_singleton_l.
  - intros ->. reflexivity.
Qed.

Lemma order_by_nil (l : list A) : order_by leb l = [] <-> l = [].
Proof.
  split.
  - intros Heq. pose proof (order_by_perm l) as Hperm. rewrite Heq in Hperm.
    symmetry. now apply Permutation_nil_l.
  - intros ->. reflexivity.
Qed.

Hypothesis leb_total : forall a b, leb a b = true \/ leb b a = true.
Hypothesis leb_trans : forall a b c, leb a b = true -> leb b c = true -> leb a c = true.

Lemma insert_by_sorted (x : A) (l : list A) :
  StronglySorted (fun a b => leb a b = true) l ->
  StronglySorted (fun a b => leb a b = true) (insert_by leb x l).
Proof using leb_total leb_trans.
  induction 1 as [|y l Hl IH Hy]; simpl.
  - repeat constructor.
  - destruct (leb x y) eqn:E.
    + constructor; [now constructor|].
      constructor; [assumption|].
      eapply List.Forall_impl; [|exact Hy]. intros z Hz. now apply (leb_trans x y z).
    + constructor; [assumption|].
      assert (Hyx : leb y x = true) by (destruct (leb_total x y); congruence).
      rewrite (insert_by_perm x l). now constructor.
Qed.

Lemma order_by_sorted (l : list A) :
  StronglySorted (fun a b => leb a b = true) (order_by leb l).
Proof using leb_total leb_trans.
  induction l as [|x l IH]; simpl; [constructor|now apply insert_by_sorted].
Qed.

End order_by_facts.

(** ** The order of text *)

Lemma ascii_compare_refl (a : ascii) : Ascii.compare a a = Eq.
Proof. unfold Ascii.compare. apply N.compare_refl. Qed.

Lemma ascii_compare_lt_trans (a b c : ascii) :
  Ascii.compare a b = Lt -> Ascii.compare b c = Lt -> Ascii.compare a c = Lt.
Proof.
  unfold Ascii.compare. rewrite !N.compare_lt_iff. apply N.lt_trans.
Qed.

Lemma string_compare_refl (s : string) : String.compare s s = Eq.
Proof.
  induction s as [|a s IH]; simpl; [reflexivity|].
  now rewrite ascii_compare_refl.
Qed.

Lemma str_lt_trans (a b c : string) :
  history.str_lt a b -> history.str_lt b c -> history.str_lt a c.
Proof.
  unfold history.str_lt. revert b c.
  induction a as [|x a IH]; intros [|y b] [|z c]; simpl; try discriminate; try reflexivity.
  destruct (Ascii.compare x y) eqn:Exy; try discriminate;
    destruct (Ascii.compare y z) eqn:Eyz; try discriminate; intros Hab Hbc.
  - apply Ascii.compare_eq_iff in Exy, Eyz. subst.
    rewrite ascii_compare_refl. now apply (IH b c).
  - apply Ascii.compare_eq_iff in Exy. subst. now rewrite Eyz.
  - apply Ascii.compare_eq_iff in Eyz. subst. now rewrite Exy.
  - now rewrite (ascii_compare_lt_trans x y z Exy Eyz).
Qed.

Lemma str_lt_irrefl (a : string) : ~ history.str_lt a a.
Proof. unfold history.str_lt. now rewrite string_compare_refl. Qed.

Lemma string_leb_trans (a b c : string) :
  String.leb a b = true -> String.leb b c = true -> String.leb a c = true.
Proof.
  unfold String.leb.
  destruct (String.compare a b) eqn:Eab; try discriminate;
    destruct (String.compare b c) eqn:Ebc; try discriminate; intros _ _.
  - apply String.compare_eq_iff in Eab, Ebc. subst. now rewrite string_compare_refl.
  - apply String.compare_eq_iff in Eab. subst. now rewrite Ebc.
  - apply String.compare_eq_iff in Ebc. subst. now rewrite Eab.
  - now rewrite (str_lt_trans a b c Eab Ebc).
Qed.

Lemma since_leb_total (a b : tessdb.name_to_mac) :
  tessdb.since_leb a b = true \/ tessdb.since_leb b a = true.
Proof. apply String.leb_total. Qed.

Lemma since_leb_trans (a b c : tessdb.name_to_mac) :
  tessdb.since_leb a b = true -> tessdb.since_leb b c = true -> tessdb.since_leb a c = true.
Proof. apply string_leb_trans. Qed.

(** ** tessdb.py: the breaks of a history *)

Section breaks_facts.
Import tessdb history.

Lemma mark_breaks_from (suffix : list history_row) :
  forall (prefix : list history_row) (ends starts : list string),
    foldl (fun st i => mark_break i st) (prefix ++ suffix, ends, starts)
          (seq (length prefix) (length suffix - 1))
    = (prefix ++ (breaks suffix).1.1, ends ++ (breaks suffix).1.2,
       starts ++ (breaks suffix).2).
Proof.
  induction suffix as [|h [|h' rest] IH]; intros prefix ends starts.
  - simpl. now rewrite !app_nil_r.
  - simpl. now rewrite !app_nil_r.
  - replace (length (h :: h' :: rest) - 1)%nat with (S (length (h' :: rest) - 1))
      by (simpl; lia).
    cbn [seq foldl].
    assert (Hi : (prefix ++ h :: h' :: rest) !! length prefix = Some h)
      by (now rewrite list_lookup_middle).
    assert (Hi' : (prefix ++ h :: h' :: rest) !! S (length prefix) = Some h').
    { replace (prefix ++ h :: h' :: rest) with ((prefix ++ [h]) ++ h' :: rest)
        by (now rewrite <- app_assoc).
      rewrite list_lookup_middle; [reflexivity|]. rewrite length_app. simpl. lia. }
    unfold mark_break at 2. rewrite Hi, Hi'.
    change (breaks (h :: h' :: rest)) with
      (let '(rest', ends', starts') := breaks (h' :: rest) in
       if decide (item3 h <> item2 h')
       then (set_item4 "-" h :: rest', item3 h :: ends', item2 h' :: starts')
       else (h :: rest', ends', starts')).
    destruct (breaks (h' :: rest)) as [[rest' ends'] starts'] eqn:Hb.
    destruct (decide (item3 h <> item2 h')) as [Hne|Heq].
    + replace (<[length prefix:=set_item4 "-" h]> (prefix ++ h :: h' :: rest))
        with ((prefix ++ [set_item4 "-" h]) ++ h' :: rest).
      2:{ rewrite insert_app_r_alt by lia. rewrite Nat.sub_diag. simpl.
          now rewrite <- app_assoc. }
      replace (S (length prefix)) with (length (prefix ++ [set_item4 "-" h]))
        by (rewrite length_app; simpl; lia).
      rewrite IH. simpl. now rewrite <- !app_assoc.
    + replace (prefix ++ h :: h' :: rest) with ((prefix ++ [h]) ++ h' :: rest)
        by (now rewrite <- app_assoc).
      replace (S (length prefix)) with (length (prefix ++ [h]))
        by (rewrite length_app; simpl; lia).
      rewrite IH. simpl. now rewrite <- !app_assoc.
Qed.

Lemma mark_breaks_breaks (history : list history_row) :
  mark_breaks history = breaks history.
Proof.
  unfold mark_breaks. pose proof (mark_breaks_from history [] [] []) as H.
  simpl in H. rewrite H. now destruct (breaks history) as [[? ?] ?].
Qed.

End breaks_facts.

Section breaks_spec.
Import tessdb history.

Lemma adjacent_break_cons (h : history_row) (rest : list history_row) (i : nat) :
  adjacent_break (h :: rest) (S i) = adjacent_break rest i.
Proof. reflexivity. Qed.

Lemma omap_adjacent_break_cons (h : history_row) (rest : list history_row) (n : nat) :
  forall a, omap (adjacent_break (h :: rest)) (seq (S a) n)
            = omap (adjacent_break rest) (seq a n).
Proof.
  induction n as [|n IH]; intros a; [reflexivity|].
  cbn [seq omap list_omap]. rewrite adjacent_break_cons.
  change (list_omap ?f ?l) with (omap f l). now rewrite IH.
Qed.

Lemma adjacent_breaks_cons (h h' : history_row) (rest : list history_row) :
  adjacent_breaks (h :: h' :: rest)
  = (if decide (item3 h <> item2 h') then [(item3 h, item2 h')] else [])
      ++ adjacent_breaks (h' :: rest).
Proof.
  unfold adjacent_breaks.
  replace (length (h :: h' :: rest) - 1)%nat with (S (length (h' :: rest) - 1))
    by (simpl; lia).
  cbn [seq omap list_omap]. change (list_omap ?f ?l) with (omap f l).
  rewrite omap_adjacent_break_cons.
  unfold adjacent_break at 1. simpl.
  now destruct (decide (item3 h <> item2 h')).
Qed.

Lemma breaks_tstamps (history : list history_row) :
  (breaks history).1.2 = (adjacent_breaks history).*1 /\
  (breaks history).2 = (adjacent_breaks history).*2.
Proof.
  induction history as [|h [|h' rest] IH]; [split; reflexivity..|].
  rewrite adjacent_breaks_cons.
  change (breaks (h :: h' :: rest)) with
    (let '(rest', ends', starts') := breaks (h' :: rest) in
     if decide (item3 h <> item2 h')
     then (set_item4 "-" h :: rest', item3 h :: ends', item2 h' :: starts')
     else (h :: rest', ends', starts')).
  destruct (breaks (h' :: rest)) as [[rest' ends'] starts'].
  destruct IH as [IH1 IH2]. simpl in IH1, IH2.
  destruct (decide (item3 h <> item2 h')); simpl; rewrite IH1, IH2; split; reflexivity.
Qed.

Lemma breaks_lookup (history : list history_row) :
  forall i, (breaks history).1.1 !! i = flagged history i <$> history !! i.
Proof.
  induction history as [|h [|h' rest] IH]; intros i.
  - reflexivity.
  - destruct i as [|i]; [reflexivity|]. reflexivity.
  - change (breaks (h :: h' :: rest)) with
      (let '(rest', ends', starts') := breaks (h' :: rest) in
       if decide (item3 h <> item2 h')
       then (set_item4 "-" h :: rest', item3 h :: ends', item2 h' :: starts')
       else (h :: rest', ends', starts')).
    destruct (breaks (h' :: rest)) as [[rest' ends'] starts'].
    simpl in IH.
    destruct i as [|i].
    + unfold flagged, adjacent_break. simpl.
      now destruct (decide (item3 h <> item2 h')).
    + assert (Hi : (h :: h' :: rest) !! S i = (h' :: rest) !! i) by reflexivity.
      rewrite Hi. unfold flagged. rewrite adjacent_break_cons.
      specialize (IH i). unfold flagged in IH. rewrite <- IH.
      now destruct (decide (item3 h <> item2 h')).
Qed.

Lemma breaks_length (history : list history_row) :
  length (breaks history).1.1 = length history.
Proof.
  induction history as [|h [|h' rest] IH]; [reflexivity..|].
  change (breaks (h :: h' :: rest)) with
    (let '(rest', ends', starts') := breaks (h' :: rest) in
     if decide (item3 h <> item2 h')
     then (set_item4 "-" h :: rest', item3 h :: ends', item2 h' :: starts')
     else (h :: rest', ends', starts')).
  destruct (breaks (h' :: rest)) as [[rest' ends'] starts']. simpl in IH.
  destruct (decide (item3 h <> item2 h')); simpl; now rewrite IH.
Qed.

Lemma adjacent_break_last (history : list history_row) :
  adjacent_break history (pred (length history)) = None.
Proof.
  unfold adjacent_break.
  destruct history as [|h rest]; [reflexivity|].
  cbn [length pred].
  rewrite (lookup_ge_None_2 (h :: rest) (S (length rest))) by (simpl; lia).
  now destruct ((h :: rest) !! length rest).
Qed.

Lemma breaks_last (history : list history_row) :
  last (breaks history).1.1 = last history.
Proof.
  rewrite !last_lookup, breaks_length, breaks_lookup.
  unfold flagged. rewrite adjacent_break_last.
  now destruct (history !! pred (length history)).
Qed.

End breaks_spec.

(** ** tessdb.py: [name_mac_current_history] *)

Section current_history_facts.
Import tessdb history.

Lemma name_mac_current_history_sql_matches (db : database) (name_ mac : option string) :
  name_mac_current_history_sql db name_ mac
  = select_history (is_Some_b name_) <$> order_by since_leb (filter (matches name_ mac) db).
Proof. destruct name_; reflexivity. Qed.

(** C1, as amended: when at least one record of the table matches the
    name (or, no name being given, the MAC), [name_mac_current_history]
    returns the matching records ordered by [valid_since]; row [i] has its
    flag set to ["-"] exactly when its [valid_until] differs from the
    [valid_since] of row [i + 1]; [break_end_tstamps] and
    [break_start_tstamps] hold these [valid_until] and [valid_since], in
    history order; and [truncated] is [True] exactly when the last row has
    [valid_state] ['Expired']. *)
Theorem name_mac_current_history_spec (db : database) (name_ mac : option string) :
  (exists r, In r db /\ matches name_ mac r) ->
  exists (records : list name_to_mac) (history : list history_row) (truncated : bool),
    let rows := select_history (is_Some_b name_) <$> records in
    records ≡ₚ filter (matches name_ mac) db /\
    StronglySorted (fun a b => String.leb (valid_since a) (valid_since b) = true) records /\
    name_mac_current_history db name_ mac
    = Ok (history, (adjacent_breaks rows).*1, (adjacent_breaks rows).*2, truncated) /\
    length history = length rows /\
    (forall i, history !! i = flagged rows i <$> rows !! i) /\
    (forall i h, rows !! i = Some h ->
                 (flagged rows i h = set_item4 "-" h <->
                  exists h', rows !! S i = Some h' /\ item3 h <> item2 h')) /\
    (truncated = true <-> exists h, last history = Some h /\ item5 h = "Expired").
Proof.
  intros (r0 & Hin & Hmatch).
  set (records := order_by since_leb (filter (matches name_ mac) db)).
  set (rows := select_history (is_Some_b name_) <$> records).
  assert (Hne : exists hl, last rows = Some hl).
  { assert (Hr0 : r0 ∈ records).
    { unfold records. rewrite order_by_perm. apply list_elem_of_filter.
      split; [assumption|now apply list_elem_of_In]. }
    destruct (last rows) as [hl|] eqn:El; [now exists hl|].
    apply last_None in El. unfold rows in El. apply fmap_nil_inv in El.
    rewrite El in Hr0. now apply not_elem_of_nil in Hr0. }
  destruct Hne as [hl Hl].
  exists records, (breaks rows).1.1, (bool_decide (item5 hl = "Expired")).
  cbv zeta. fold rows.
  split; [apply order_by_perm|].
  split; [apply order_by_sorted; [exact since_leb_total|exact since_leb_trans]|].
  split.
  { unfold name_mac_current_history.
    assert (Hbody :
      (let '(history, break_end_tstamps, break_start_tstamps) :=
         mark_breaks (name_mac_current_history_sql db name_ mac) in
       h ← last_item history;
       Ok (history, break_end_tstamps, break_start_tstamps,
           bool_decide (item5 h = "Expired")))
      = Ok ((breaks rows).1.1, (adjacent_breaks rows).*1, (adjacent_breaks rows).*2,
            bool_decide (item5 hl = "Expired"))).
    { rewrite name_mac_current_history_sql_matches, mark_breaks_breaks.
      fold records. fold rows.
      destruct (breaks_tstamps rows) as [He Hs].
      pose proof (breaks_last rows) as Hlast.
      destruct (breaks rows) as [[history ends] starts]. simpl in *.
      unfold last_item. rewrite Hlast, Hl. simpl. now rewrite He, Hs. }
    destruct name_ as [n|], mac as [m|]; try exact Hbody.
    exfalso. simpl in Hmatch. discriminate Hmatch. }
  split; [apply breaks_length|].
  split; [apply breaks_lookup|].
  split.
  - intros i h Hi. unfold flagged, adjacent_break. rewrite Hi.
    destruct (rows !! S i) as [h'|].
    + destruct (decide (item3 h <> item2 h')) as [Hd|Hd].
      * split; [intros _; now exists h'|reflexivity].
      * split.
        -- intros Heq. apply (f_equal item4) in Heq. simpl in Heq.
           assert (Hflag : item4 h = "+").
           { unfold rows in Hi. rewrite list_lookup_fmap in Hi.
             destruct (records !! i); inversion Hi. reflexivity. }
           rewrite Hflag in Heq. discriminate Heq.
        -- intros (h'' & Heq & Hne'). inversion Heq; subst. contradiction.
    + split.
      * intros Heq. apply (f_equal item4) in Heq. simpl in Heq.
        assert (Hflag : item4 h = "+").
        { unfold rows in Hi. rewrite list_lookup_fmap in Hi.
          destruct (records !! i); inversion Hi. reflexivity. }
        rewrite Hflag in Heq. discriminate Heq.
      * intros (h'' & Heq & _). discriminate Heq.
  - rewrite breaks_last, Hl. rewrite bool_decide_eq_true. split.
    + intros He. now exists hl.
    + intros (h & Heq & He). now inversion Heq; subst.
Qed.

End current_history_facts.

Lemma name_mac_current_history_spec_witness :
  exists (records : list tessdb.name_to_mac) (history : list tessdb.history_row)
         (truncated : bool),
    let rows := tessdb.select_history true <$> records in
    records ≡ₚ filter (history.matches (Some "stars1") None) samples.db_history /\
    StronglySorted
      (fun a b => String.leb (tessdb.valid_since a) (tessdb.valid_since b) = true) records /\
    tessdb.name_mac_current_history samples.db_history (Some "stars1") None
    = Ok (history, (history.adjacent_breaks rows).*1, (history.adjacent_breaks rows).*2,
          truncated) /\
    length history = length rows /\
    (forall i, history !! i = history.flagged rows i <$> rows !! i) /\
    (forall i h, rows !! i = Some h ->
                 (history.flagged rows i h = tessdb.set_item4 "-" h <->
                  exists h', rows !! S i = Some h' /\ tessdb.item3 h <> tessdb.item2 h')) /\
    (truncated = true <-> exists h, last history = Some h /\ tessdb.item5 h = "Expired").
Proof.
  apply (name_mac_current_history_spec samples.db_history (Some "stars1") None).
  eexists. split; [left; reflexivity|reflexivity].
Defined.

Example name_mac_current_history_sample :
  exists history,
    tessdb.name_mac_current_history samples.db_history (Some "stars1") None
    = Ok (history, ["2021-01-01 00:00:00"], ["2022-01-01 00:00:00"], false) /\
    tessdb.item4 <$> history = ["-"; "+"].
Proof. eexists. split; reflexivity. Qed.

(** C1 as stated fails when no record matches: [history[-1]] raises
    [IndexError]. *)
Lemma name_mac_current_history_unknown_name :
  tessdb.name_mac_current_history samples.db_history (Some "stars999") None
  = Raise IndexError.
Proof. reflexivity. Qed.

(** ** tessdb.py: the related-history loops *)

Section chain_facts.
Import history.
Variable step : string -> option string.

Lemma chain_length (n : nat) : forall t, (length (chain step n t) <= n)%nat.
Proof.
  induction n as [|n IH]; intros t; simpl; [lia|].
  destruct (step t) as [t'|]; simpl; [specialize (IH t')|]; lia.
Qed.

Lemma not_stops_chain_length (n : nat) :
  forall t, stops step n t = false -> length (chain step (S n) t) = S n.
Proof.
  induction n as [|n IH]; intros t Hs.
  - simpl. now destruct (step t).
  - simpl in Hs. change (chain step (S (S n)) t)
      with (t :: match step t with Some t' => chain step (S n) t' | None => [] end).
    destruct (step t) as [t'|]; [|discriminate].
    pose proof (IH t' Hs) as Hlen. cbn [length]. now f_equal.
Qed.

Lemma stops_mono (n : nat) :
  forall m t, (n <= m)%nat -> stops step n t = true -> stops step m t = true.
Proof.
  induction n as [|n IH]; intros m t Hle Hs; [discriminate|].
  destruct m as [|m]; [lia|]. simpl in *.
  destruct (step t) as [t'|]; [|reflexivity].
  apply IH; [lia|assumption].
Qed.

Variable targets : list string.
Hypothesis step_target : forall t t', step t = Some t' -> In t' targets.

Lemma chain_tail_targets (n : nat) :
  forall t, incl (tail (chain step n t)) targets.
Proof using step_target.
  induction n as [|n IH]; intros t; simpl; [intros x []|].
  destruct (step t) as [t'|] eqn:Et; [|intros x []].
  destruct n as [|n]; [intros x []|].
  intros x Hx. specialize (IH t'). simpl in Hx, IH.
  destruct Hx as [<-|Hx]; [now apply (step_target t)|now apply IH].
Qed.

(** A chain that never revisits a time stamp stops after at most one
    query per target, plus the first one. *)
Lemma never_revisits_stops (t : string) :
  never_revisits step t -> stops step (S (length targets)) t = true.
Proof using step_target.
  intros Hnodup.
  destruct (stops step (S (length targets)) t) eqn:Hs; [reflexivity|exfalso].
  pose proof (not_stops_chain_length _ t Hs) as Hlen.
  specialize (Hnodup (S (S (length targets)))).
  pose proof (chain_tail_targets (S (S (length targets))) t) as Hincl.
  destruct (chain step (S (S (length targets))) t) as [|x rest]; [discriminate|].
  simpl in Hincl, Hlen. inversion Hnodup as [|? ? _ Hrest]; subst.
  pose proof (List.NoDup_incl_length Hrest Hincl). lia.
Qed.

End chain_facts.

Section related_loop_facts.
Import tessdb history.
Variables (sql : string -> list history_row) (key : history_row -> string).

Lemma related_loop_stops (n : nat) :
  forall t h q,
    stops (related.step sql key) n t = true ->
    exists res,
      (forall fuel, (n <= fuel)%nat -> related.loop sql key fuel t h q = Some res) /\
      res.2 = q ++ chain (related.step sql key) n t.
Proof.
  induction n as [|n IH]; intros t h q Hs; [discriminate|].
  simpl in Hs. unfold related.step in Hs at 1.
  destruct (sql t) as [|row [|row' rest]] eqn:Esql.
  - exists (h, false, q ++ [t]). split.
    + intros [|fuel] Hle; [lia|]. simpl. now rewrite Esql.
    + simpl. unfold related.step. now rewrite Esql.
  - destruct (IH (key row) (h ++ [row]) (q ++ [t]) Hs) as (res & Hres & Hq).
    exists res. split.
    + intros [|fuel] Hle; [lia|]. simpl. rewrite Esql. apply Hres. lia.
    + rewrite Hq. simpl. unfold related.step at 2. rewrite Esql.
      now rewrite <- app_assoc.
  - exists (h ++ row :: row' :: rest, true, q ++ [t]). split.
    + intros [|fuel] Hle; [lia|]. simpl. now rewrite Esql.
    + simpl. unfold related.step. now rewrite Esql.
Qed.

End related_loop_facts.

Section previous_next_facts.
Import tessdb history.
Variables (db : database) (name_ : option string).

Lemma previous_loop_related (fuel : nat) :
  forall t h q,
    previous_loop fuel db name_ t h q
    = related.loop (name_mac_previous_related_history_sql db name_) item2 fuel t h q.
Proof.
  induction fuel as [|fuel IH]; intros t h q; [reflexivity|].
  simpl. destruct (name_mac_previous_related_history_sql db name_ t) as [|row [|row' rest]];
    [reflexivity|apply IH|reflexivity].
Qed.

Lemma next_loop_related (fuel : nat) :
  forall t h q,
    next_loop fuel db name_ t h q
    = related.loop (name_mac_next_related_history_sql db name_) item3 fuel t h q.
Proof.
  induction fuel as [|fuel IH]; intros t h q; [reflexivity|].
  simpl. destruct (name_mac_next_related_history_sql db name_ t) as [|row [|row' rest]];
    [reflexivity|apply IH|reflexivity].
Qed.

Lemma select_order_by_cases (P : name_to_mac -> Prop) `{forall r, Decision (P r)}
    (by_name : bool) :
  match select_history by_name <$> order_by since_leb (filter P db) with
  | [] => filter P db = []
  | [row] => exists r, filter P db = [r] /\ row = select_history by_name r
  | _ => (1 < length (filter P db))%nat
  end.
Proof.
  pose proof (order_by_length since_leb (filter P db)) as Hlen.
  destruct (order_by since_leb (filter P db)) as [|r [|r' rest]] eqn:E; simpl.
  - now apply order_by_nil in E.
  - exists r. split; [now apply order_by_singleton in E|reflexivity].
  - simpl in Hlen. lia.
Qed.

Lemma previous_step_related (t : string) :
  related.step (name_mac_previous_related_history_sql db name_) item2 t = previous_step db t.
Proof.
  unfold related.step, previous_step, name_mac_previous_related_history_sql.
  pose proof (select_order_by_cases (fun r => valid_until r = t) (is_Some_b name_)) as H.
  destruct (select_history (is_Some_b name_)
              <$> order_by since_leb (filter (fun r => valid_until r = t) db))
    as [|row [|row' rest]].
  - now rewrite H.
  - destruct H as (r & -> & ->). reflexivity.
  - destruct (filter (fun r => valid_until r = t) db) as [|r [|r' rest']];
      simpl in H; try lia; reflexivity.
Qed.

Lemma next_step_related (t : string) :
  related.step (name_mac_next_related_history_sql db name_) item3 t = next_step db t.
Proof.
  unfold related.step, next_step, name_mac_next_related_history_sql.
  pose proof (select_order_by_cases (fun r => valid_since r = t) (is_Some_b name_)) as H.
  destruct (select_history (is_Some_b name_)
              <$> order_by since_leb (filter (fun r => valid_since r = t) db))
    as [|row [|row' rest]].
  - now rewrite H.
  - destruct H as (r & -> & ->). reflexivity.
  - destruct (filter (fun r => valid_since r = t) db) as [|r [|r' rest']];
      simpl in H; try lia; reflexivity.
Qed.

Lemma previous_step_target (t t' : string) :
  previous_step db t = Some t' -> In t' (valid_since <$> db).
Proof.
  unfold previous_step.
  destruct (filter (fun r => valid_until r = t) db) as [|r [|r' rest]] eqn:E;
    try discriminate.
  intros Heq. inversion Heq; subst.
  assert (Hr : r ∈ filter (fun r => valid_until r = t) db) by (rewrite E; left).
  apply list_elem_of_filter in Hr. destruct Hr as [_ Hr].
  apply list_elem_of_In. now apply list_elem_of_fmap_2.
Qed.

Lemma next_step_target (t t' : string) :
  next_step db t = Some t' -> In t' (valid_until <$> db).
Proof.
  unfold next_step.
  destruct (filter (fun r => valid_since r = t) db) as [|r [|r' rest]] eqn:E;
    try discriminate.
  intros Heq. inversion Heq; subst.
  assert (Hr : r ∈ filter (fun r => valid_since r = t) db) by (rewrite E; left).
  apply list_elem_of_filter in Hr. destruct Hr as [_ Hr].
  apply list_elem_of_In. now apply list_elem_of_fmap_2.
Qed.

End previous_next_facts.

Lemma related_loop_self (sql : string -> list tessdb.history_row)
    (key : tessdb.history_row -> string) (t : string) (row : tessdb.history_row) :
  sql t = [row] -> key row = t ->
  forall fuel h q, related.loop sql key fuel t h q = None.
Proof.
  intros Hsql Hkey. induction fuel as [|fuel IH]; intros h q; [reflexivity|].
  simpl. rewrite Hsql, Hkey. apply IH.
Qed.

Lemma stops_ext (step1 step2 : string -> option string) :
  (forall t, step1 t = step2 t) ->
  forall n t, history.stops step1 n t = history.stops step2 n t.
Proof.
  intros Hext. induction n as [|n IH]; intros t; [reflexivity|].
  simpl. rewrite Hext. destruct (step2 t); [apply IH|reflexivity].
Qed.

Lemma chain_ext (step1 step2 : string -> option string) :
  (forall t, step1 t = step2 t) ->
  forall n t, history.chain step1 n t = history.chain step2 n t.
Proof.
  intros Hext. induction n as [|n IH]; intros t; [reflexivity|].
  simpl. rewrite Hext. destruct (step2 t); [now rewrite IH|reflexivity].
Qed.

Lemma previous_history_terminates (db : tessdb.database) (tstamp : string)
    (name_ mac : option string) :
  history.never_revisits (history.previous_step db) tstamp ->
  exists res,
    (forall fuel, (length db + 1 <= fuel)%nat ->
       tessdb.name_mac_previous_related_history fuel db tstamp name_ mac = Some res) /\
    (length res.2 <= length db + 1)%nat.
Proof.
  intros Hnr.
  pose proof (never_revisits_stops (history.previous_step db) (tessdb.valid_since <$> db)
                (previous_step_target db) tstamp Hnr) as Hs.
  rewrite length_fmap in Hs.
  rewrite <- (stops_ext _ _ (previous_step_related db name_)) in Hs.
  destruct (related_loop_stops _ _ _ tstamp [] [] Hs) as ([[h c] q] & Hres & Hq).
  exists (rev h, c, q). split.
  - intros fuel Hle. unfold tessdb.name_mac_previous_related_history.
    rewrite previous_loop_related, Hres by lia. reflexivity.
  - cbn [snd] in Hq |- *. rewrite Hq. cbn [app]. etransitivity; [apply chain_length|lia].
Qed.

Lemma next_history_terminates (db : tessdb.database) (tstamp : string)
    (name_ mac : option string) :
  history.never_revisits (history.next_step db) tstamp ->
  exists res,
    (forall fuel, (length db + 1 <= fuel)%nat ->
       tessdb.name_mac_next_related_history fuel db tstamp name_ mac = Some res) /\
    (length res.2 <= length db + 1)%nat.
Proof.
  intros Hnr.
  pose proof (never_revisits_stops (history.next_step db) (tessdb.valid_until <$> db)
                (next_step_target db) tstamp Hnr) as Hs.
  rewrite length_fmap in Hs.
  rewrite <- (stops_ext _ _ (next_step_related db name_)) in Hs.
  destruct (related_loop_stops _ _ _ tstamp [] [] Hs) as (res & Hres & Hq).
  exists res. split.
  - intros fuel Hle. unfold tessdb.name_mac_next_related_history.
    rewrite next_loop_related, Hres by lia. reflexivity.
  - rewrite Hq. cbn [app]. etransitivity; [apply chain_length|lia].
Qed.

Section ordered_chain.
Import history.
Variables (step : string -> option string) (R : string -> string -> Prop).
Hypothesis R_trans : forall a b c, R a b -> R b c -> R a c.
Hypothesis R_irrefl : forall a, ~ R a a.
Hypothesis step_R : forall t t', step t = Some t' -> R t' t.

Lemma chain_below (n : nat) :
  forall t x, In x (chain step n t) -> x = t \/ R x t.
Proof using R_trans step_R.
  induction n as [|n IH]; intros t x Hx; [destruct Hx|].
  simpl in Hx. destruct Hx as [<-|Hx]; [now left|]. right.
  destruct (step t) as [t'|] eqn:Et; [|destruct Hx].
  destruct (IH t' x Hx) as [->|Hlt]; [now apply step_R|].
  apply (R_trans x t' t); [assumption|now apply step_R].
Qed.

Lemma ordered_chain_never_revisits (t : string) : never_revisits step t.
Proof using R_trans R_irrefl step_R.
  intros n. revert t. induction n as [|n IH]; intros t; simpl; [constructor|].
  destruct (step t) as [t'|] eqn:Et; [|repeat constructor; intros []].
  constructor; [|apply IH].
  intros Hin. destruct (chain_below n t' t Hin) as [Heq|Hlt].
  - subst t'. apply (R_irrefl t). now apply step_R.
  - apply (R_irrefl t). apply (R_trans t t' t); [assumption|now apply step_R].
Qed.

End ordered_chain.

(** When every record starts strictly before it ends, the chains descend
    (or ascend) strictly and so never revisit a time stamp. *)
Lemma strict_intervals_acyclic (db : tessdb.database) :
  history.strict_intervals db -> history.acyclic db.
Proof.
  intros Hstrict t.
  assert (Hrec : forall (P : tessdb.name_to_mac -> Prop) `{forall r, Decision (P r)} r,
             filter P db = [r] ->
             P r /\ history.str_lt (tessdb.valid_since r) (tessdb.valid_until r)).
  { intros P HP r E.
    assert (Hr : r ∈ filter P db) by (rewrite E; left).
    apply list_elem_of_filter in Hr. destruct Hr as [HPr Hr]. split; [assumption|].
    unfold history.strict_intervals in Hstrict. rewrite List.Forall_forall in Hstrict.
    apply Hstrict. now apply list_elem_of_In. }
  split.
  - apply (ordered_chain_never_revisits _ history.str_lt str_lt_trans str_lt_irrefl).
    intros t0 t'. unfold history.previous_step.
    destruct (filter (fun r => tessdb.valid_until r = t0) db) as [|r [|r' rest]] eqn:E;
      try discriminate.
    intros Heq. inversion Heq; subst.
    destruct (Hrec _ _ r E) as [Hu Hlt]. now rewrite <- Hu.
  - apply (ordered_chain_never_revisits _ (fun a b => history.str_lt b a)).
    + intros a b c Hab Hbc. exact (str_lt_trans c b a Hbc Hab).
    + exact str_lt_irrefl.
    + intros t0 t'. unfold history.next_step.
      destruct (filter (fun r => tessdb.valid_since r = t0) db) as [|r [|r' rest]] eqn:E;
        try discriminate.
      intros Heq. inversion Heq; subst.
      destruct (Hrec _ _ r E) as [Hs Hlt]. now rewrite <- Hs.
Qed.

Section revisiting_chains.
Import history.
Variable step : string -> option string.

Lemma stops_elem (fuel : nat) :
  forall n t u, stops step n t = true -> In u (chain step fuel t) -> stops step n u = true.
Proof using Type.
  induction fuel as [|fuel IH]; intros n t u Hs Hu; [destruct Hu|].
  simpl in Hu. destruct Hu as [<-|Hu]; [assumption|].
  destruct n as [|n]; [discriminate|]. simpl in Hs.
  destruct (step t) as [t'|]; [|destruct Hu].
  apply (stops_mono step n (S n)); [lia|]. now apply (IH n t').
Qed.

Lemma stops_no_cycle (n : nat) :
  forall fuel t t', stops step n t' = true -> step t = Some t' ->
                    ~ In t (chain step fuel t').
Proof using Type.
  induction n as [|n IH]; intros fuel t t' Hs Hstep Hin; [discriminate|].
  pose proof (stops_elem fuel (S n) t' t Hs Hin) as Ht.
  simpl in Ht. rewrite Hstep in Ht. exact (IH fuel t t' Ht Hstep Hin).
Qed.

(** A chain that stops has not come back to a time stamp. *)
Lemma stops_never_revisits (n : nat) (t : string) :
  stops step n t = true -> never_revisits step t.
Proof using Type.
  intros Hs fuel. revert n t Hs.
  induction fuel as [|fuel IH]; intros n t Hs; [constructor|].
  simpl. destruct n as [|n]; [discriminate|]. simpl in Hs.
  destruct (step t) as [t'|] eqn:Et.
  - constructor; [now apply (stops_no_cycle n)|now apply (IH n)].
  - constructor; [intros []|constructor].
Qed.

End revisiting_chains.

Lemma related_loop_returns_stops (sql : string -> list tessdb.history_row)
    (key : tessdb.history_row -> string) (fuel : nat) :
  forall t h q res,
    related.loop sql key fuel t h q = Some res ->
    history.stops (related.step sql key) fuel t = true.
Proof.
  induction fuel as [|fuel IH]; intros t h q res Hloop; [discriminate|].
  simpl in Hloop |- *. unfold related.step at 1.
  destruct (sql t) as [|row [|row' rest]]; [reflexivity| |reflexivity].
  now apply (IH _ _ _ _ Hloop).
Qed.

Lemma previous_history_returns (db : tessdb.database) (tstamp : string)
    (name_ mac : option string) (fuel : nat) res :
  tessdb.name_mac_previous_related_history fuel db tstamp name_ mac = Some res ->
  history.never_revisits (history.previous_step db) tstamp.
Proof.
  unfold tessdb.name_mac_previous_related_history. rewrite previous_loop_related.
  destruct (related.loop _ _ fuel tstamp [] []) as [res'|] eqn:Hloop; [|discriminate].
  intros _. apply related_loop_returns_stops in Hloop.
  rewrite (stops_ext _ _ (previous_step_related db name_)) in Hloop.
  exact (stops_never_revisits _ _ _ Hloop).
Qed.

Lemma next_history_returns (db : tessdb.database) (tstamp : string)
    (name_ mac : option string) (fuel : nat) res :
  tessdb.name_mac_next_related_history fuel db tstamp name_ mac = Some res ->
  history.never_revisits (history.next_step db) tstamp.
Proof.
  unfold tessdb.name_mac_next_related_history. rewrite next_loop_related.
  intros Hloop. apply related_loop_returns_stops in Hloop.
  rewrite (stops_ext _ _ (next_step_related db name_)) in Hloop.
  exact (stops_never_revisits _ _ _ Hloop).
Qed.

(** C2, as amended: from a time stamp whose chain of linked records never
    comes back to a time stamp, each of the two loops returns after at most
    one more query than the table has records, whatever fuel beyond that
    it is given; and from a time stamp whose chain does come back to a
    time stamp, the loop never ends: there is no fuel with which it
    returns. *)
Theorem related_history_loops_terminate (db : tessdb.database) (tstamp : string)
    (name_ mac : option string) :
  (history.never_revisits (history.previous_step db) tstamp ->
   exists res,
     (forall fuel, (length db + 1 <= fuel)%nat ->
        tessdb.name_mac_previous_related_history fuel db tstamp name_ mac = Some res) /\
     (length res.2 <= length db + 1)%nat) /\
  (history.never_revisits (history.next_step db) tstamp ->
   exists res,
     (forall fuel, (length db + 1 <= fuel)%nat ->
        tessdb.name_mac_next_related_history fuel db tstamp name_ mac = Some res) /\
     (length res.2 <= length db + 1)%nat) /\
  (~ history.never_revisits (history.previous_step db) tstamp ->
   forall fuel, tessdb.name_mac_previous_related_history fuel db tstamp name_ mac = None) /\
  (~ history.never_revisits (history.next_step db) tstamp ->
   forall fuel, tessdb.name_mac_next_related_history fuel db tstamp name_ mac = None).
Proof.
  split; [apply previous_history_terminates|].
  split; [apply next_history_terminates|].
  split; intros Hrevisits fuel.
  - destruct (tessdb.name_mac_previous_related_history fuel db tstamp name_ mac)
      as [res|] eqn:Hrun; [|reflexivity].
    exfalso. apply Hrevisits. exact (previous_history_returns _ _ _ _ _ _ Hrun).
  - destruct (tessdb.name_mac_next_related_history fuel db tstamp name_ mac)
      as [res|] eqn:Hrun; [|reflexivity].
    exfalso. apply Hrevisits. exact (next_history_returns _ _ _ _ _ _ Hrun).
Qed.

Lemma samples_db_history_strict : history.strict_intervals samples.db_history.
Proof. repeat constructor. Qed.

Lemma related_history_loops_terminate_witness :
  (exists res,
     (forall fuel, (3 + 1 <= fuel)%nat ->
        tessdb.name_mac_previous_related_history fuel samples.db_history
          "2999-12-31 23:59:59" (Some "stars3") None = Some res) /\
     (length res.2 <= 3 + 1)%nat) /\
  (exists res,
     (forall fuel, (3 + 1 <= fuel)%nat ->
        tessdb.name_mac_next_related_history fuel samples.db_history
          "2020-01-01 00:00:00" (Some "stars1") None = Some res) /\
     (length res.2 <= 3 + 1)%nat) /\
  (forall fuel,
     tessdb.name_mac_previous_related_history fuel samples.db_two_cycle
       "2020-01-01 00:00:00" (Some "stars1") None = None) /\
  (forall fuel,
     tessdb.name_mac_next_related_history fuel samples.db_two_cycle
       "2020-01-01 00:00:00" (Some "stars1") None = None).
Proof.
  split; [|split; [|split]].
  - apply (proj1 (related_history_loops_terminate samples.db_history
                    "2999-12-31 23:59:59" (Some "stars3") None)).
    apply (strict_intervals_acyclic _ samples_db_history_strict).
  - apply (proj1 (proj2 (related_history_loops_terminate samples.db_history
                           "2020-01-01 00:00:00" (Some "stars1") None))).
    apply (strict_intervals_acyclic _ samples_db_history_strict).
  - apply (proj1 (proj2 (proj2 (related_history_loops_terminate samples.db_two_cycle
                                  "2020-01-01 00:00:00" (Some "stars1") None)))).
    intros Hnr. specialize (Hnr 3%nat). vm_compute in Hnr.
    inversion Hnr as [|? ? Hnin _]. apply Hnin. right. now left.
  - apply (proj2 (proj2 (proj2 (related_history_loops_terminate samples.db_two_cycle
                                  "2020-01-01 00:00:00" (Some "stars1") None)))).
    intros Hnr. specialize (Hnr 3%nat). vm_compute in Hnr.
    inversion Hnr as [|? ? Hnin _]. apply Hnin. right. now left.
Defined.

Example next_history_sample :
  tessdb.name_mac_next_related_history 4 samples.db_history
    "2020-01-01 00:00:00" (Some "stars1") None
  = Some ([tessdb.select_history true
             (samples.record "stars1" "AA:AA:AA:AA:AA:01" "2020-01-01 00:00:00"
                "2021-01-01 00:00:00" "Expired");
           tessdb.select_history true
             (samples.record "stars3" "AA:AA:AA:AA:AA:01" "2021-01-01 00:00:00"
                "2999-12-31 23:59:59" "Current")],
          false,
          ["2020-01-01 00:00:00"; "2021-01-01 00:00:00"; "2999-12-31 23:59:59"]).
Proof. reflexivity. Qed.

(** C2 as stated fails on a table where the chain revisits a time stamp:
    with a record that ends when it starts, alone to end there, neither
    loop ever returns. *)
Lemma related_history_loops_diverge :
  ~ (exists fuel res,
        tessdb.name_mac_previous_related_history fuel samples.db_cycle
          "2020-01-01 00:00:00" (Some "stars1") None = Some res) /\
  ~ (exists fuel res,
        tessdb.name_mac_next_related_history fuel samples.db_cycle
          "2020-01-01 00:00:00" (Some "stars1") None = Some res).
Proof.
  split; intros (fuel & res & H).
  - unfold tessdb.name_mac_previous_related_history in H.
    rewrite previous_loop_related in H.
    rewrite (related_loop_self _ _ "2020-01-01 00:00:00" _ eq_refl eq_refl) in H.
    discriminate H.
  - unfold tessdb.name_mac_next_related_history in H.
    rewrite next_loop_related in H.
    rewrite (related_loop_self _ _ "2020-01-01 00:00:00" _ eq_refl eq_refl) in H.
    discriminate H.
Qed.

(** ** tessdb.py: the classification *)

Section classification_facts.
Import tessdb history.
Variable db : database.

Lemma current_history_ok (name_ mac : option string) :
  (exists r, In r db /\ matches name_ mac r) ->
  exists history ends starts truncated h0 hl,
    name_mac_current_history db name_ mac = Ok (history, ends, starts, truncated) /\
    first_item history = Ok h0 /\ last_item history = Ok hl.
Proof.
  intros (r0 & Hin & Hmatch).
  set (rows := name_mac_current_history_sql db name_ mac).
  assert (Hlen : (0 < length rows)%nat).
  { unfold rows. rewrite name_mac_current_history_sql_matches, length_fmap, order_by_length.
    assert (Hr0 : r0 ∈ filter (matches name_ mac) db)
      by (apply list_elem_of_filter; split; [assumption|now apply list_elem_of_In]).
    destruct (filter (matches name_ mac) db); [now apply not_elem_of_nil in Hr0|simpl; lia]. }
  assert (Hbody : exists history ends starts truncated h0 hl,
    (let '(history, break_end_tstamps, break_start_tstamps) := mark_breaks rows in
     h ← last_item history;
     Ok (history, break_end_tstamps, break_start_tstamps,
         bool_decide (item5 h = "Expired")))
    = Ok (history, ends, starts, truncated) /\
    first_item history = Ok h0 /\ last_item history = Ok hl).
  { rewrite mark_breaks_breaks.
    pose proof (breaks_length rows) as Hbl.
    destruct (breaks rows) as [[history ends] starts]. simpl in Hbl.
    destruct history as [|h0 rest]; [simpl in Hbl; lia|].
    destruct (last (h0 :: rest)) as [hl|] eqn:El;
      [|apply last_None in El; discriminate El].
    exists (h0 :: rest), ends, starts, (bool_decide (item5 hl = "Expired")), h0, hl.
    unfold last_item. rewrite El. repeat split; reflexivity. }
  unfold name_mac_current_history. fold rows.
  destruct name_ as [n|], mac as [m|]; try exact Hbody.
  exfalso. simpl in Hmatch. discriminate Hmatch.
Qed.

Hypothesis db_acyclic : acyclic db.

(** With enough fuel the [pure_repair] / [pure_renaming] test of a name or
    MAC of the table has a value, and the same one whatever the fuel. *)
Lemma pure_history_total (name_ mac : option string) :
  (exists r, In r db /\ matches name_ mac r) ->
  exists pure : bool,
    forall fuel, (length db + 1 <= fuel)%nat ->
      pure_history fuel db name_ mac = Some (Ok pure).
Proof using db_acyclic.
  intros Hmatch.
  destruct (current_history_ok name_ mac Hmatch)
    as (history & ends & starts & truncated & h0 & hl & Hcur & Hfirst & Hlast).
  destruct (previous_history_terminates db (item2 h0) name_ mac
              (proj1 (db_acyclic (item2 h0)))) as ([[ph pc] pq] & Hprev & _).
  destruct (next_history_terminates db (item3 hl) name_ mac
              (proj2 (db_acyclic (item3 hl)))) as ([[nh nc] nq] & Hnext & _).
  eexists. intros fuel Hfuel. unfold pure_history.
  rewrite Hcur, Hfirst, Hlast, (Hprev fuel Hfuel), (Hnext fuel Hfuel). reflexivity.
Qed.

Lemma photometers_not_easy_records (d : photometer) :
  In d (photometers_not_easy db) <->
  exists r, d = photometer_dict r /\ In r db /\ not_easy_mac db (mac_address r) = true.
Proof.
  unfold photometers_not_easy.
  rewrite <- list_elem_of_In, list_elem_of_fmap. split.
  - intros (r & -> & Hr). exists r. split; [reflexivity|].
    rewrite order_by_perm in Hr. apply list_elem_of_filter in Hr.
    destruct Hr as [Hne Hr]. split; [now apply list_elem_of_In|assumption].
  - intros (r & -> & Hr & Hne). exists r. split; [reflexivity|].
    rewrite order_by_perm. apply list_elem_of_filter.
    split; [assumption|now apply list_elem_of_In].
Qed.

Lemma photometers_repaired_loop_total (rows : list photometer) :
  (forall d, In d rows -> exists r, d = photometer_dict r /\ In r db) ->
  exists selected,
    incl selected rows /\
    forall output fuel, (length db + 1 <= fuel)%nat ->
      photometers_repaired_loop fuel db rows output = Some (Ok (output ++ selected)).
Proof using db_acyclic.
  induction rows as [|row rest IH]; intros Hrows.
  - exists []. split; [intros x []|]. intros output fuel _. simpl. now rewrite app_nil_r.
  - destruct (Hrows row (or_introl eq_refl)) as (r & -> & Hr).
    destruct (pure_history_total (Some (name r)) None) as [pure Hpure].
    { exists r. split; [assumption|reflexivity]. }
    destruct IH as (selected & Hincl & Hloop).
    { intros d Hd. apply Hrows. now right. }
    exists (if pure then photometer_dict r :: selected else selected). split.
    + destruct pure; [|now apply incl_tl].
      intros x [<-|Hx]; [now left|right; now apply Hincl].
    + intros output fuel Hfuel.
      cbn [photometers_repaired_loop].
      change (lookup_item (photometer_dict r) "name") with (@Ok string (name r)).
      cbv iota beta. rewrite (Hpure fuel Hfuel), (Hloop _ fuel Hfuel).
      destruct pure; [now rewrite <- app_assoc|reflexivity].
Qed.

Lemma photometers_renamed_loop_total (rows : list photometer) :
  (forall d, In d rows -> exists r, d = photometer_dict r /\ In r db) ->
  exists selected,
    incl selected rows /\
    forall output fuel, (length db + 1 <= fuel)%nat ->
      photometers_renamed_loop fuel db rows output = Some (Ok (output ++ selected)).
Proof using db_acyclic.
  induction rows as [|row rest IH]; intros Hrows.
  - exists []. split; [intros x []|]. intros output fuel _. simpl. now rewrite app_nil_r.
  - destruct (Hrows row (or_introl eq_refl)) as (r & -> & Hr).
    destruct (pure_history_total None (Some (mac_address r))) as [pure Hpure].
    { exists r. split; [assumption|reflexivity]. }
    destruct IH as (selected & Hincl & Hloop).
    { intros d Hd. apply Hrows. now right. }
    exists (if pure then photometer_dict r :: selected else selected). split.
    + destruct pure; [|now apply incl_tl].
      intros x [<-|Hx]; [now left|right; now apply Hincl].
    + intros output fuel Hfuel.
      cbn [photometers_renamed_loop].
      change (lookup_item (photometer_dict r) "mac") with (@Ok string (mac_address r)).
      cbv iota beta. rewrite (Hpure fuel Hfuel), (Hloop _ fuel Hfuel).
      destruct pure; [now rewrite <- app_assoc|reflexivity].
Qed.

End classification_facts.

Section complicated_facts.
Import tessdb history.

Lemma zip_keys_values (r0 r : name_to_mac) :
  zip (photometer_dict r0).*1 (values (photometer_dict r)) = photometer_dict r.
Proof. reflexivity. Qed.

Lemma photometers_loops_total (db : database) :
  acyclic db ->
  exists only_repaired only_renamed,
    incl only_repaired (photometers_not_easy db) /\
    incl only_renamed (photometers_not_easy db) /\
    forall fuel, (length db + 1 <= fuel)%nat ->
      photometers_repaired fuel db = Some (Ok only_repaired) /\
      photometers_renamed fuel db = Some (Ok only_renamed).
Proof.
  intros Hacyclic.
  assert (Hrows : forall d, In d (photometers_not_easy db) ->
                            exists r, d = photometer_dict r /\ In r db).
  { intros d Hd. apply photometers_not_easy_records in Hd.
    destruct Hd as (r & -> & Hr & _). now exists r. }
  destruct (photometers_repaired_loop_total db Hacyclic _ Hrows) as (rep & Hirep & Hrep).
  destruct (photometers_renamed_loop_total db Hacyclic _ Hrows) as (ren & Hiren & Hren).
  exists rep, ren. split; [assumption|]. split; [assumption|].
  intros fuel Hfuel. unfold photometers_repaired, photometers_renamed.
  now rewrite (Hrep [] fuel Hfuel), (Hren [] fuel Hfuel).
Qed.

(** C3, as amended: on a table whose chains never revisit a time stamp and
    for which [photometers_not_easy] is not empty, [photometers_complicated]
    returns, with enough fuel, exactly the entries of [photometers_not_easy]
    whose value tuples are neither among those of [photometers_repaired]
    nor among those of [photometers_renamed], each tuple once. *)
Theorem photometers_complicated_spec (db : database) :
  acyclic db -> photometers_not_easy db <> [] ->
  exists only_repaired only_renamed output,
    (forall fuel, (length db + 1 <= fuel)%nat ->
       photometers_repaired fuel db = Some (Ok only_repaired) /\
       photometers_renamed fuel db = Some (Ok only_renamed) /\
       photometers_complicated fuel db = Some (Ok output)) /\
    (forall d, In d output <->
               In d (photometers_not_easy db) /\
               ~ In (values d) (values <$> only_repaired) /\
               ~ In (values d) (values <$> only_renamed)) /\
    List.NoDup (values <$> output).
Proof.
  intros Hacyclic Hne.
  destruct (photometers_loops_total db Hacyclic) as (rep & ren & Hirep & Hiren & Hrun).
  destruct (photometers_not_easy db) as [|total0 rest] eqn:Etotal; [congruence|].
  assert (Hrec : forall d, In d (total0 :: rest) -> exists r, d = photometer_dict r).
  { intros d Hd. rewrite <- Etotal in Hd. apply photometers_not_easy_records in Hd.
    destruct Hd as (r & -> & _). now exists r. }
  destruct (Hrec total0 (or_introl eq_refl)) as [r0 ->].
  set (total := photometer_dict r0 :: rest) in *.
  set (items := elements
         ((list_to_set (values <$> total) : gset (list string))
            ∖ list_to_set (values <$> rep) ∖ list_to_set (values <$> ren))).
  assert (Hitems : forall item, In item items <->
            (exists d, In d total /\ item = values d) /\
            ~ In item (values <$> rep) /\ ~ In item (values <$> ren)).
  { intros item. unfold items.
    rewrite <- list_elem_of_In, elem_of_elements, !elem_of_difference,
      !elem_of_list_to_set, list_elem_of_fmap, <- !list_elem_of_In.
    split.
    - intros [[(d & -> & Hd) Hnrep] Hnren]. apply list_elem_of_In in Hd.
      split; [now exists d|tauto].
    - intros [(d & Hd & ->) [Hnrep Hnren]]. apply list_elem_of_In in Hd.
      split; [split; [now exists d|assumption]|assumption]. }
  exists rep, ren, ((fun item => zip (photometer_dict r0).*1 item) <$> items).
  split; [|split].
  - intros fuel Hfuel. destruct (Hrun fuel Hfuel) as [Hrep Hren].
    split; [assumption|]. split; [assumption|].
    unfold photometers_complicated. rewrite Hrep, Hren, Etotal. reflexivity.
  - intros d. rewrite <- list_elem_of_In, list_elem_of_fmap. split.
    + intros (item & -> & Hitem). apply list_elem_of_In, Hitems in Hitem.
      destruct Hitem as [(d0 & Hd0 & ->) [Hnrep Hnren]].
      destruct (Hrec d0 Hd0) as [r ->]. now rewrite zip_keys_values.
    + intros (Hd & Hnrep & Hnren). destruct (Hrec d Hd) as [r ->].
      exists (values (photometer_dict r)). split; [now rewrite zip_keys_values|].
      apply list_elem_of_In, Hitems. split; [now exists (photometer_dict r)|tauto].
  - rewrite <- list_fmap_compose.
    assert (Hid : (values ∘ (fun item => zip (photometer_dict r0).*1 item)) <$> items = items).
    { assert (Hall : forall item, In item items ->
                (values ∘ (fun item => zip (photometer_dict r0).*1 item)) item = item).
      { intros item Hitem. apply Hitems in Hitem.
        destruct Hitem as [(d0 & Hd0 & ->) _]. destruct (Hrec d0 Hd0) as [r ->].
        reflexivity. }
      clearbody items. clear -Hall.
      induction items as [|item items IH]; [reflexivity|].
      rewrite fmap_cons, (Hall item (or_introl eq_refl)), IH; [reflexivity|].
      intros i Hi. apply Hall. now right. }
    rewrite Hid. apply NoDup_ListNoDup, NoDup_elements.
Qed.

End complicated_facts.

Lemma photometers_complicated_spec_witness :
  exists only_repaired only_renamed output,
    (forall fuel, (3 + 1 <= fuel)%nat ->
       tessdb.photometers_repaired fuel samples.db_history = Some (Ok only_repaired) /\
       tessdb.photometers_renamed fuel samples.db_history = Some (Ok only_renamed) /\
       tessdb.photometers_complicated fuel samples.db_history = Some (Ok output)) /\
    (forall d, In d output <->
               In d (tessdb.photometers_not_easy samples.db_history) /\
               ~ In (tessdb.values d) (tessdb.values <$> only_repaired) /\
               ~ In (tessdb.values d) (tessdb.values <$> only_renamed)) /\
    List.NoDup (tessdb.values <$> output).
Proof.
  apply (photometers_complicated_spec samples.db_history).
  - apply strict_intervals_acyclic. repeat constructor.
  - vm_compute. discriminate.
Defined.

Example photometers_complicated_sample :
  tessdb.photometers_complicated 4 samples.db_history
  = Some (Ok [tessdb.photometer_dict
                (samples.record "stars1" "AA:AA:AA:AA:AA:02" "2022-01-01 00:00:00"
                   "2999-12-31 23:59:59" "Current")]).
Proof. vm_compute. reflexivity. Qed.

(** C3 as stated fails on two tables. Where the history of a repaired
    photometer starts at a time stamp whose chain revisits it,
    [photometers_repaired] never returns, and so neither does
    [photometers_complicated]; and where [photometers_not_easy] is empty,
    [total[0]] raises [IndexError]. *)
Lemma photometers_complicated_no_result :
  ~ (exists fuel res,
        tessdb.photometers_complicated fuel samples.db_repaired_cycle = Some res) /\
  ~ (exists fuel output,
        tessdb.photometers_complicated fuel samples.db_easy = Some (Ok output)).
Proof.
  split.
  - intros (fuel & res & H).
    assert (Hprev : tessdb.name_mac_previous_related_history fuel samples.db_repaired_cycle
                      "2020-01-01 00:00:00" (Some "stars1") None = None).
    { unfold tessdb.name_mac_previous_related_history.
      rewrite previous_loop_related.
      now rewrite (related_loop_self _ _ "2020-01-01 00:00:00" _ eq_refl eq_refl). }
    assert (Hpure : tessdb.pure_history fuel samples.db_repaired_cycle (Some "stars1") None
                    = None).
    { unfold tessdb.pure_history.
      remember (tessdb.name_mac_current_history samples.db_repaired_cycle
                  (Some "stars1") None) as cur eqn:Ecur.
      vm_compute in Ecur. subst cur. cbv iota beta.
      cbn [first_item last_item last tessdb.item2 tessdb.item3].
      now rewrite Hprev. }
    unfold tessdb.photometers_complicated, tessdb.photometers_repaired in H.
    remember (tessdb.photometers_not_easy samples.db_repaired_cycle) as rows eqn:Erows.
    vm_compute in Erows. subst rows.
    cbn [tessdb.photometers_repaired_loop] in H.
    change (tessdb.lookup_item _ "name") with (@Ok string "stars1") in H.
    cbv iota beta in H. rewrite Hpure in H. discriminate H.
  - intros (fuel & output & H).
    unfold tessdb.photometers_complicated, tessdb.photometers_repaired,
      tessdb.photometers_renamed in H.
    remember (tessdb.photometers_not_easy samples.db_easy) as rows eqn:Erows.
    vm_compute in Erows. subst rows. simpl in H. discriminate H.
Qed.

(** * Further properties of the code *)

(** ** utils.py: [formatted_mac] against the MAC predicates *)

Lemma traverse_int16_forallb (segs : list str) :
  is_Some (traverse_int16 segs)
  <-> forallb (fun x => match int16 x with Some _ => true | None => false end) segs = true.
Proof.
  induction segs as [|seg rest IH]; simpl.
  - split; [reflexivity|]. intros _. now exists [].
  - destruct (int16 seg) as [n|]; simpl.
    + rewrite <- IH. destruct (traverse_int16 rest) as [ns|].
      * split; intros _; eauto.
      * split; intros [x Hx]; discriminate Hx.
    + split; [intros [x Hx]; discriminate Hx|discriminate].
Qed.

Lemma split_formatted (ns : list Z) :
  ns <> [] -> split (s2l (l2s (join (map format_02X ns)))) = map format_02X ns.
Proof.
  intros Hne. unfold s2l, l2s. rewrite list_ascii_of_string_of_list_ascii.
  apply split_join.
  - destruct ns; [congruence|discriminate].
  - apply List.Forall_forall. intros seg Hin. apply List.in_map_iff in Hin.
    destruct Hin as (n & Heq & _). subst seg. apply format_02X_no_colon.
Qed.

Lemma formatted_mac_str_segments (mac r : string) :
  formatted_mac_str mac = Some r ->
  exists ns, traverse_int16 (split (s2l mac)) = Some ns /\
             ns <> [] /\ split (s2l r) = map format_02X ns.
Proof.
  unfold formatted_mac_str.
  destruct (traverse_int16 (split (s2l mac))) as [ns|] eqn:E; [|discriminate].
  intros H; inversion H; subst; clear H.
  assert (Hne : ns <> []).
  { apply traverse_int16_length in E. pose proof (split_nonempty (s2l mac)) as Hs.
    destruct ns; [|discriminate]. destruct (split (s2l mac)); [congruence|simpl in E; lia]. }
  exists ns. split; [reflexivity|]. split; [assumption|]. now apply split_formatted.
Qed.

(** [is_tess_mac] holds exactly of the strings that [formatted_mac]
    accepts and that have six segments; the formatted string then has six
    segments too. So the call of [formatted_mac] in the [elif is_tess_mac]
    branch of [do_check_mac_format] cannot raise. *)
Theorem is_tess_mac_iff_formatted (mac : string) :
  is_tess_mac mac = true <->
  exists r, formatted_mac (PyStr mac) = Ok r /\
            length (split (s2l mac)) = 6%nat /\ length (split (s2l r)) = 6%nat.
Proof.
  unfold is_tess_mac. rewrite andb_true_iff, <- traverse_int16_forallb, Nat.eqb_eq.
  split.
  - intros [[ns Hns] Hlen].
    destruct (formatted_mac_str mac) as [r|] eqn:E.
    + exists r. simpl. rewrite E. split; [reflexivity|]. split; [assumption|].
      destruct (formatted_mac_str_segments mac r E) as (ns' & Hns' & _ & Hsplit).
      rewrite Hsplit, length_map. rewrite Hns in Hns'. inversion Hns'; subst.
      apply traverse_int16_length in Hns. lia.
    + unfold formatted_mac_str in E. rewrite Hns in E. discriminate E.
  - intros (r & Hr & Hlen & _). split; [|assumption].
    simpl in Hr. unfold formatted_mac_str in Hr.
    destruct (traverse_int16 (split (s2l mac))) as [ns|]; [now exists ns|discriminate].
Qed.

(** [formatted_mac] keeps the segments: its output has as many segments
    as its input and each one denotes the same integer. *)
Theorem formatted_mac_keeps_values (mac r : string) :
  formatted_mac (PyStr mac) = Ok r -> same_segment_values mac r.
Proof.
  simpl. destruct (formatted_mac_str mac) as [r'|] eqn:E; [|discriminate].
  intros H; inversion H; subst; clear H.
  destruct (formatted_mac_str_segments mac r E) as (ns & Hns & _ & Hsplit).
  unfold same_segment_values. rewrite Hsplit. clear Hsplit E.
  apply traverse_int16_Forall2 in Hns.
  induction Hns as [|seg n segs ns Hseg _ IH]; simpl; constructor.
  - now rewrite Hseg, int16_format_02X.
  - exact IH.
Qed.

Lemma formatted_mac_keeps_values_witness : same_segment_values " 0x1a:b" "1A:0B".
Proof. apply (formatted_mac_keeps_values " 0x1a:b" "1A:0B"). reflexivity. Defined.

Lemma format_02X_chars (n : Z) :
  Forall (fun c => In c (s2l "0123456789ABCDEF:-")) (format_02X n).
Proof.
  assert (Hhex : forall m, 0 <= m ->
            Forall (fun c => In c (s2l "0123456789ABCDEF:-")) (hex_digits m)).
  { intros m Hm. eapply List.Forall_impl; [|exact (hex_digits_hexU m Hm)].
    intros c Hc. unfold hexU in Hc. change (s2l "0123456789ABCDEF:-")
      with (s2l "0123456789ABCDEF" ++ s2l ":-"). apply in_or_app. now left. }
  unfold format_02X. destruct (Z.ltb_spec n 0).
  - constructor; [vm_compute; tauto|]. apply Hhex. lia.
  - destruct (length (hex_digits n) <? 2)%nat; [constructor; [vm_compute; tauto|]|];
      now apply Hhex.
Qed.

Lemma join_chars (P : ascii -> Prop) (segs : list str) :
  P colon -> Forall (Forall P) segs -> Forall P (join segs).
Proof.
  intros Hcolon. induction 1 as [|seg rest Hseg Hrest IH]; [constructor|].
  destruct rest as [|seg' rest']; [exact Hseg|].
  change (join (seg :: seg' :: rest')) with (seg ++ colon :: join (seg' :: rest')).
  apply Forall_app. split; [assumption|]. constructor; assumption.
Qed.

(** The output of [formatted_mac] is made of upper-case hexadecimal
    digits, colons and minus signs only: no lower-case letter, blank,
    underscore or radix prefix of the input survives. *)
Theorem formatted_mac_alphabet (mac : pyval) (r : string) :
  formatted_mac mac = Ok r ->
  Forall (fun c => In c (s2l "0123456789ABCDEF:-")) (s2l r).
Proof.
  destruct mac as [|s|z|f|b|o]; try discriminate. simpl.
  unfold formatted_mac_str.
  destruct (traverse_int16 (split (s2l s))) as [ns|]; [|discriminate].
  intros H; inversion H; subst; clear H.
  change (s2l (l2s ?l)) with (list_ascii_of_string (string_of_list_ascii l)).
  rewrite list_ascii_of_string_of_list_ascii.
  apply join_chars; [vm_compute; tauto|].
  apply List.Forall_forall. intros seg Hin. apply List.in_map_iff in Hin.
  destruct Hin as (n & <- & _). apply format_02X_chars.
Qed.

Lemma formatted_mac_alphabet_witness :
  Forall (fun c => In c (s2l "0123456789ABCDEF:-")) (s2l "1A:0B:-C").
Proof. apply (formatted_mac_alphabet (PyStr " 0x1a:b:-0c")). reflexivity. Defined.

Lemma format_02X_byte (n : Z) : 0 <= n <= 255 -> length (format_02X n) = 2%nat.
Proof.
  intros Hn.
  assert (Hall : forallb (fun k => (length (format_02X (Z.of_nat k)) =? 2)%nat) (seq 0 256)
                 = true) by (vm_compute; reflexivity).
  rewrite forallb_forall in Hall.
  specialize (Hall (Z.to_nat n)). rewrite Z2Nat.id in Hall by lia.
  apply Nat.eqb_eq, Hall, in_seq. lia.
Qed.

Lemma length_l2s (l : str) : String.length (l2s l) = length l.
Proof. induction l as [|c l IH]; simpl; [reflexivity|now rewrite IH]. Qed.

Lemma traverse_int16_In (segs : list str) (ns : list Z) (n : Z) :
  traverse_int16 segs = Some ns -> In n ns ->
  exists seg, In seg segs /\ int16 seg = Some n.
Proof.
  rewrite traverse_int16_Forall2. induction 1 as [|seg m segs ns Hseg _ IH]; intros Hin.
  - destruct Hin.
  - destruct Hin as [<-|Hin].
    + exists seg. split; [now left|assumption].
    + destruct (IH Hin) as (seg' & Hin' & Hs). exists seg'. split; [now right|assumption].
Qed.

Lemma join_length_uniform (k : nat) (segs : list str) :
  Forall (fun seg => length seg = k) segs -> segs <> [] ->
  (length (join segs) + 1 = (k + 1) * length segs)%nat.
Proof.
  induction 1 as [|seg rest Hseg Hrest IH]; intros Hne; [now destruct Hne|].
  destruct rest as [|seg' rest']; [simpl; lia|].
  change (join (seg :: seg' :: rest')) with (seg ++ colon :: join (seg' :: rest')).
  rewrite length_app. cbn [length]. specialize (IH ltac:(discriminate)).
  cbn [length] in IH. lia.
Qed.

(** A TESS MAC whose six segments denote bytes is formatted into a strict
    MAC: [is_mac] holds of the output, each of whose segments has two
    characters. *)
Theorem formatted_mac_of_bytes_is_mac (mac : string) :
  is_tess_mac mac = true ->
  (forall seg n, In seg (split (s2l mac)) -> int16 seg = Some n -> 0 <= n <= 255) ->
  exists r, formatted_mac (PyStr mac) = Ok r /\ is_mac r = true /\
            Forall (fun seg => length seg = 2%nat) (split (s2l r)).
Proof.
  unfold is_tess_mac. rewrite andb_true_iff, <- traverse_int16_forallb, Nat.eqb_eq.
  intros [[ns Hns] Hlen] Hbytes.
  assert (Hr : formatted_mac_str mac = Some (l2s (join (map format_02X ns))))
    by (unfold formatted_mac_str; now rewrite Hns).
  exists (l2s (join (map format_02X ns))). simpl. rewrite Hr.
  destruct (formatted_mac_str_segments _ _ Hr) as (ns' & Hns' & _ & Hsplit).
  rewrite Hns in Hns'. inversion Hns'; subst ns'; clear Hns'.
  assert (Hlens : Forall (fun n => length (format_02X n) = 2%nat) ns).
  { apply List.Forall_forall. intros n Hn.
    destruct (traverse_int16_In _ _ n Hns Hn) as (seg & Hseg & Hint).
    apply format_02X_byte. now apply (Hbytes seg). }
  assert (Hsix : length ns = 6%nat) by (apply traverse_int16_length in Hns; lia).
  split; [reflexivity|]. split.
  - unfold is_mac, is_tess_mac. rewrite Hsplit, length_map, Hsix.
    rewrite andb_true_iff. split; [rewrite andb_true_iff; split|].
    + apply forallb_forall. intros seg Hin. apply List.in_map_iff in Hin.
      destruct Hin as (n & <- & _). now rewrite int16_format_02X.
    + reflexivity.
    + rewrite length_l2s. apply Nat.eqb_eq.
      assert (Hsegs : Forall (fun seg => length seg = 2%nat) (map format_02X ns)).
      { apply List.Forall_forall. intros seg Hin. apply List.in_map_iff in Hin.
        destruct Hin as (n & <- & Hn). rewrite List.Forall_forall in Hlens. now apply Hlens. }
      pose proof (join_length_uniform 2 _ Hsegs) as Hj.
      rewrite length_map, Hsix in Hj.
      assert (Hne : map format_02X ns <> []) by (destruct ns; [discriminate Hsix|discriminate]).
      specialize (Hj Hne). lia.
  - rewrite Hsplit. apply List.Forall_forall. intros seg Hin.
    apply List.in_map_iff in Hin. destruct Hin as (n & <- & Hn).
    rewrite List.Forall_forall in Hlens. now apply Hlens.
Qed.

Lemma formatted_mac_of_bytes_is_mac_witness :
  exists r, formatted_mac (PyStr "1a:2:3:4:5:ff") = Ok r /\ is_mac r = true /\
            Forall (fun seg => length seg = 2%nat) (split (s2l r)).
Proof.
  apply (formatted_mac_of_bytes_is_mac "1a:2:3:4:5:ff"); [reflexivity|].
  intros seg n Hin Hint. simpl in Hin.
  repeat (destruct Hin as [<-|Hin]; [vm_compute in Hint; inversion Hint; lia|]).
  destruct Hin.
Defined.

(** ** dbutils.py: [filter_out_multidict], [filter_selected_keys] *)

Lemma group_by_loop_ok_keys `{Countable V} (key : string)
    (iterable : list (option (gmap string V))) :
  forall groups g,
    group_by_loop key groups iterable = Ok g ->
    forall r, In (Some r) iterable -> is_Some (r !! key).
Proof.
  induction iterable as [|row rest IH]; intros groups g Hg r Hr; [destruct Hr|].
  simpl in Hg. destruct row as [r0|]; simpl in Hg.
  - unfold getitem in Hg. destruct (r0 !! key) as [k|] eqn:Ek; simpl in Hg; [|discriminate].
    destruct Hr as [Heq|Hr]; [inversion Heq; subst; now rewrite Ek|].
    now apply (IH _ _ Hg).
  - destruct Hr as [Heq|Hr]; [discriminate|]. now apply (IH _ _ Hg).
Qed.

Lemma group_by_ok_groups `{Countable V} (iterable : list (option (gmap string V)))
    (key : string) (g : gmap V (list (gmap string V))) :
  group_by iterable key = Ok g ->
  (forall k, group_of g k = filter (fun r => r !! key = Some k) (not_None iterable)) /\
  (forall k l, g !! k = Some l -> l <> []) /\
  grouped_rows g ≡ₚ not_None iterable.
Proof.
  intros Hg.
  destruct (group_by_spec iterable key (group_by_loop_ok_keys key iterable ∅ g Hg))
    as (g' & Hg' & Hspec).
  rewrite Hg in Hg'. inversion Hg'; subst. exact Hspec.
Qed.

(** After [group_by], [filter_out_multidict] keeps exactly the key values
    that one single row carries, each with that row as its whole group. *)
Theorem filter_out_multidict_group_by `{Countable V}
    (iterable : list (option (gmap string V))) (key : string)
    (g : gmap V (list (gmap string V))) :
  group_by iterable key = Ok g ->
  forall k l,
    dbutils.filter_out_multidict g !! k = Some l <->
    exists r, l = [r] /\ filter (fun r => r !! key = Some k) (not_None iterable) = [r].
Proof.
  intros Hg k l. destruct (group_by_ok_groups iterable key g Hg) as (Hgrp & Hne & _).
  unfold dbutils.filter_out_multidict. rewrite map_lookup_filter_Some. simpl.
  specialize (Hgrp k). unfold group_of in Hgrp. split.
  - intros [Hl Hlen]. rewrite Hl in Hgrp. simpl in Hgrp.
    destruct l as [|r [|r' rest]]; try discriminate Hlen.
    exists r. split; [reflexivity|now symmetry].
  - intros (r & -> & Hrows). rewrite Hrows in Hgrp.
    destruct (g !! k) as [l|] eqn:Ek; simpl in Hgrp; [|discriminate].
    now subst l.
Qed.

Lemma filter_out_multidict_group_by_witness :
  let a1 : gmap string string := {[ "name" := "stars1"; "place" := "A" ]} in
  let b1 : gmap string string := {[ "name" := "stars2"; "place" := "B" ]} in
  let a2 : gmap string string := {[ "name" := "stars1"; "place" := "C" ]} in
  exists g, group_by [Some a1; None; Some b1; Some a2] "name" = Ok g /\
    dbutils.filter_out_multidict g !! "stars2" = Some [b1] /\
    dbutils.filter_out_multidict g !! "stars1" <> Some [a1].
Proof.
  intros a1 b1 a2.
  destruct (group_by [Some a1; None; Some b1; Some a2] "name") as [g|e] eqn:Hg;
    [|vm_compute in Hg; discriminate Hg].
  exists g. split; [reflexivity|].
  pose proof (filter_out_multidict_group_by _ _ g Hg) as Hspec. split.
  - apply Hspec. exists b1. split; reflexivity.
  - intros Habs. apply Hspec in Habs. destruct Habs as (r & _ & Hrows).
    vm_compute in Hrows. discriminate Hrows.
Defined.

Section filter_selected_keys_facts.
Context `{Countable K} {A : Type}.
Implicit Types (d : dbutils.mapping K A) (m selected : gmap K A) (keys : list K).

Lemma filter_selected_keys_present keys :
  forall d selected,
    (forall k, In k keys -> is_Some (dbutils.entries d !! k)) ->
    exists m,
      dbutils.filter_selected_keys_loop d keys selected = (Ok m, d) /\
      forall k, m !! k = if decide (k ∈ keys) then dbutils.entries d !! k else selected !! k.
Proof.
  induction keys as [|key rest IH]; intros d selected Hall.
  - exists selected. split; [reflexivity|]. intros k.
    destruct (decide (k ∈ [])) as [Hin|]; [now apply not_elem_of_nil in Hin|reflexivity].
  - destruct (Hall key (or_introl eq_refl)) as [v Hv].
    destruct (IH d (<[key := v]> selected)) as (m & Hm & Hlook);
      [intros k Hk; apply Hall; now right|].
    exists m. split.
    + cbn [dbutils.filter_selected_keys_loop]. unfold dbutils.item. now rewrite Hv.
    + intros k. rewrite Hlook. destruct (decide (k ∈ rest)) as [Hin|Hnin].
      * now rewrite decide_True by (now right).
      * rewrite lookup_insert. destruct (decide (key = k)) as [->|Hne].
        -- rewrite decide_True by left. now rewrite Hv.
        -- rewrite decide_False; [reflexivity|].
           intros Hin. apply elem_of_cons in Hin. destruct Hin; congruence.
Qed.

Lemma filter_selected_keys_plain keys :
  forall d selected,
    dbutils.default_factory d = None ->
    match dbutils.filter_selected_keys_loop d keys selected with
    | (Ok m, d') =>
        d' = d /\ (forall k, In k keys -> is_Some (dbutils.entries d !! k)) /\
        forall k, m !! k = if decide (k ∈ keys) then dbutils.entries d !! k
                           else selected !! k
    | (Raise e, d') =>
        d' = d /\ e = KeyError /\ exists k, In k keys /\ dbutils.entries d !! k = None
    end.
Proof.
  induction keys as [|key rest IH]; intros d selected Hplain.
  - simpl. split; [reflexivity|]. split; [intros k []|]. intros k.
    destruct (decide (k ∈ [])) as [Hin|]; [now apply not_elem_of_nil in Hin|reflexivity].
  - cbn [dbutils.filter_selected_keys_loop]. unfold dbutils.item.
    destruct (dbutils.entries d !! key) as [v|] eqn:Ev.
    + specialize (IH d (<[key := v]> selected) Hplain).
      destruct (dbutils.filter_selected_keys_loop d rest (<[key := v]> selected))
        as [[m|e] d'].
      * destruct IH as (-> & Hall & Hlook). split; [reflexivity|]. split.
        -- intros k [<-|Hk]; [now rewrite Ev|now apply Hall].
        -- intros k. rewrite Hlook. destruct (decide (k ∈ rest)) as [Hin|Hnin].
           ++ now rewrite decide_True by (now right).
           ++ rewrite lookup_insert. destruct (decide (key = k)) as [->|Hne].
              ** rewrite decide_True by left. now rewrite Ev.
              ** rewrite decide_False; [reflexivity|].
                 intros Hin. apply elem_of_cons in Hin. destruct Hin; congruence.
      * destruct IH as (-> & -> & k & Hk & Hnone). split; [reflexivity|].
        split; [reflexivity|]. exists k. split; [now right|assumption].
    + rewrite Hplain. split; [reflexivity|]. split; [reflexivity|].
      exists key. split; [now left|assumption].
Qed.

Lemma filter_selected_keys_default (v0 : A) keys :
  forall d selected,
    dbutils.default_factory d = Some v0 ->
    exists m d',
      dbutils.filter_selected_keys_loop d keys selected = (Ok m, d') /\
      dbutils.default_factory d' = Some v0 /\
      (forall k, m !! k = if decide (k ∈ keys)
                          then Some (default v0 (dbutils.entries d !! k))
                          else selected !! k) /\
      (forall k, dbutils.entries d' !! k
                 = if decide (k ∈ keys) then Some (default v0 (dbutils.entries d !! k))
                   else dbutils.entries d !! k).
Proof.
  induction keys as [|key rest IH]; intros d selected Hdef.
  - exists selected, d. split; [reflexivity|]. split; [assumption|].
    split; intros k;
      (destruct (decide (k ∈ [])) as [Hin|]; [now apply not_elem_of_nil in Hin|reflexivity]).
  - cbn [dbutils.filter_selected_keys_loop]. unfold dbutils.item.
    destruct (dbutils.entries d !! key) as [v|] eqn:Ev.
    + destruct (IH d (<[key := v]> selected) Hdef) as (m & d' & Hm & Hd' & Hlook & Hent).
      exists m, d'. split; [exact Hm|]. split; [exact Hd'|]. split; intros k.
      * rewrite Hlook. destruct (decide (k ∈ rest)) as [Hin|Hnin].
        -- now rewrite decide_True by (now right).
        -- rewrite lookup_insert. destruct (decide (key = k)) as [->|Hne].
           ++ rewrite decide_True by left. now rewrite Ev.
           ++ rewrite decide_False; [reflexivity|].
              intros Hin. apply elem_of_cons in Hin. destruct Hin; congruence.
      * rewrite Hent. destruct (decide (k ∈ rest)) as [Hin|Hnin].
        -- now rewrite decide_True by (now right).
        -- destruct (decide (k = key)) as [->|Hne].
           ++ rewrite decide_True by left. now rewrite Ev.
           ++ rewrite decide_False; [reflexivity|].
              intros Hin. apply elem_of_cons in Hin. destruct Hin; congruence.
    + rewrite Hdef.
      set (d1 := {| dbutils.entries := <[key := v0]> (dbutils.entries d);
                    dbutils.default_factory := Some v0 |}).
      destruct (IH d1 (<[key := v0]> selected) eq_refl)
        as (m & d' & Hm & Hd' & Hlook & Hent).
      exists m, d'. split; [exact Hm|]. split; [exact Hd'|].
      assert (Hd1 : forall k, Some (default v0 (dbutils.entries d1 !! k))
                              = Some (default v0 (dbutils.entries d !! k))).
      { intros k. unfold d1. cbn [dbutils.entries]. rewrite lookup_insert.
        destruct (decide (key = k)) as [->|Hne]; [now rewrite Ev|reflexivity]. }
      split; intros k.
      * rewrite Hlook, Hd1. destruct (decide (k ∈ rest)) as [Hin|Hnin].
        -- now rewrite decide_True by (now right).
        -- rewrite lookup_insert. destruct (decide (key = k)) as [->|Hne].
           ++ rewrite decide_True by left. now rewrite Ev.
           ++ rewrite decide_False; [reflexivity|].
              intros Hin. apply elem_of_cons in Hin. destruct Hin; congruence.
      * rewrite Hent, Hd1. destruct (decide (k ∈ rest)) as [Hin|Hnin].
        -- now rewrite decide_True by (now right).
        -- unfold d1. cbn [dbutils.entries]. rewrite lookup_insert.
           destruct (decide (key = k)) as [->|Hne].
           ++ rewrite decide_True by left. now rewrite Ev.
           ++ rewrite decide_False; [reflexivity|].
              intros Hin. apply elem_of_cons in Hin. destruct Hin; congruence.
Qed.

End filter_selected_keys_facts.

(** [filter_selected_keys] raises [KeyError] exactly when the dictionary
    is a plain [dict] and one of the keys is not in it. When it returns,
    the new dict has exactly the keys asked for, each with the value the
    dictionary holds, or, for a key missing from a [defaultdict], the
    default value; and the [defaultdict] has then got that key, with that
    value (a plain [dict] is left as it was). With the keys that
    [common_A_B_items] gives it returns the restriction to these keys and
    leaves the dictionary as it was, on either dictionary and whatever
    their kind. *)
Theorem filter_selected_keys_restricts `{Countable K} {A B : Type}
    (d : dbutils.mapping K A) (e : dbutils.mapping K B) (keys : list K) :
  let out := dbutils.filter_selected_keys d keys in
  let common := common_A_B_items (dbutils.entries d) (dbutils.entries e) in
  (out.1 = Raise KeyError <->
   dbutils.default_factory d = None /\
   exists k, In k keys /\ dbutils.entries d !! k = None) /\
  (forall m, out.1 = Ok m ->
     dom m = list_to_set keys /\
     forall k, In k keys ->
       m !! k = match dbutils.entries d !! k with
                | Some v => Some v
                | None => dbutils.default_factory d
                end) /\
  (dbutils.default_factory out.2 = dbutils.default_factory d /\
   forall k, dbutils.entries out.2 !! k
             = match dbutils.entries d !! k with
               | Some v => Some v
               | None => if decide (k ∈ keys) then dbutils.default_factory d else None
               end) /\
  (exists m m',
     dbutils.filter_selected_keys d (elements common) = (Ok m, d) /\
     dbutils.filter_selected_keys e (elements common) = (Ok m', e) /\
     dom m = common /\ dom m' = common /\
     (forall k, k ∈ common -> m !! k = dbutils.entries d !! k) /\
     (forall k, k ∈ common -> m' !! k = dbutils.entries e !! k)).
Proof.
  intros out common.
  assert (Hcommon : forall (C : Type) (c : dbutils.mapping K C),
            (forall k, k ∈ common -> is_Some (dbutils.entries c !! k)) ->
            exists m, dbutils.filter_selected_keys c (elements common) = (Ok m, c) /\
                      dom m = common /\
                      forall k, k ∈ common -> m !! k = dbutils.entries c !! k).
  { intros C c Hc.
    destruct (filter_selected_keys_present (elements common) c ∅) as (m & Hm & Hlook).
    { intros k Hk. apply Hc. now apply elem_of_elements, list_elem_of_In. }
    exists m. split; [exact Hm|]. split.
    - apply set_eq. intros k. rewrite elem_of_dom, Hlook.
      destruct (decide (k ∈ elements common)) as [Hin|Hnin].
      + apply elem_of_elements in Hin. split; [now intros _|intros _; now apply Hc].
      + rewrite lookup_empty. split; [intros [x Hx]; discriminate Hx|].
        intros Hk. exfalso. now apply Hnin, elem_of_elements.
    - intros k Hk. rewrite Hlook, decide_True; [reflexivity|now apply elem_of_elements]. }
  split; [|split; [|split]].
  - unfold out, dbutils.filter_selected_keys.
    destruct (dbutils.default_factory d) as [v0|] eqn:Hdef.
    + destruct (filter_selected_keys_default v0 keys d ∅ Hdef) as (m & d' & -> & _).
      split; [discriminate|intros [Habs _]; discriminate Habs].
    + pose proof (filter_selected_keys_plain keys d ∅ Hdef) as Hs.
      destruct (dbutils.filter_selected_keys_loop d keys ∅) as [[m|err] d']; cbn [fst].
      * destruct Hs as (_ & Hall & _). split; [discriminate|].
        intros (_ & k & Hk & Hnone). destruct (Hall k Hk) as [x Hx]. congruence.
      * destruct Hs as (_ & -> & Hmiss). split; [intros _; now split|reflexivity].
  - intros m Hm. unfold out, dbutils.filter_selected_keys in Hm.
    assert (Hlook : forall k, m !! k
              = if decide (k ∈ keys)
                then match dbutils.entries d !! k with
                     | Some v => Some v
                     | None => dbutils.default_factory d
                     end
                else None).
    { destruct (dbutils.default_factory d) as [v0|] eqn:Hdef.
      - destruct (filter_selected_keys_default v0 keys d ∅ Hdef)
          as (m0 & d' & Hrun & _ & Hlook & _).
        rewrite Hrun in Hm. cbn [fst] in Hm. inversion Hm; subst m0.
        intros k. rewrite Hlook, lookup_empty.
        destruct (decide (k ∈ keys)); [|reflexivity].
        now destruct (dbutils.entries d !! k).
      - pose proof (filter_selected_keys_plain keys d ∅ Hdef) as Hs.
        destruct (dbutils.filter_selected_keys_loop d keys ∅) as [[m0|err] d'];
          cbn [fst] in Hm; [|discriminate].
        inversion Hm; subst m0. destruct Hs as (_ & Hall & Hlook).
        intros k. rewrite Hlook, lookup_empty.
        destruct (decide (k ∈ keys)) as [Hin|]; [|reflexivity].
        apply list_elem_of_In in Hin. destruct (Hall k Hin) as [x Hx]. now rewrite Hx. }
    assert (Hsome : forall k, k ∈ keys -> is_Some (m !! k)).
    { intros k Hk. rewrite Hlook, decide_True by assumption.
      destruct (dbutils.entries d !! k) as [v|] eqn:Ev; [now exists v|].
      destruct (dbutils.default_factory d) as [v0|] eqn:Hdef; [now exists v0|].
      exfalso. pose proof (filter_selected_keys_plain keys d ∅ Hdef) as Hs.
      destruct (dbutils.filter_selected_keys_loop d keys ∅) as [[m0|err] d'];
        cbn [fst] in Hm; [|discriminate].
      destruct Hs as (_ & Hall & _). apply list_elem_of_In in Hk.
      destruct (Hall k Hk) as [x Hx]. congruence. }
    split.
    + apply set_eq. intros k. rewrite elem_of_dom, elem_of_list_to_set. split.
      * intros [x Hx]. rewrite Hlook in Hx.
        destruct (decide (k ∈ keys)); [assumption|discriminate Hx].
      * apply Hsome.
    + intros k Hk. apply list_elem_of_In in Hk. now rewrite Hlook, decide_True.
  - unfold out, dbutils.filter_selected_keys.
    destruct (dbutils.default_factory d) as [v0|] eqn:Hdef.
    + destruct (filter_selected_keys_default v0 keys d ∅ Hdef)
        as (m & d' & -> & Hd' & _ & Hent).
      cbn [snd]. split; [exact Hd'|]. intros k. rewrite Hent.
      destruct (decide (k ∈ keys)); now destruct (dbutils.entries d !! k).
    + pose proof (filter_selected_keys_plain keys d ∅ Hdef) as Hs.
      destruct (dbutils.filter_selected_keys_loop d keys ∅) as [[m|err] d']; cbn [snd];
        [destruct Hs as (-> & _)|destruct Hs as (-> & _)];
        (split; [exact Hdef|]); intros k;
        destruct (dbutils.entries d !! k); [reflexivity| |reflexivity|];
        now destruct (decide (k ∈ keys)).
  - destruct (Hcommon A d) as (m & Hm & Hdom & Hval).
    { intros k Hk. unfold common, common_A_B_items in Hk. rewrite !list_to_set_keys in Hk.
      apply elem_of_intersection in Hk. now apply elem_of_dom. }
    destruct (Hcommon B e) as (m' & Hm' & Hdom' & Hval').
    { intros k Hk. unfold common, common_A_B_items in Hk. rewrite !list_to_set_keys in Hk.
      apply elem_of_intersection in Hk. now apply elem_of_dom. }
    exists m, m'. repeat split; assumption.
Qed.

Lemma filter_selected_keys_restricts_witness :
  let d : dbutils.mapping string (list nat) :=
    {| dbutils.entries := {[ "stars1" := [1%nat] ]};
       dbutils.default_factory := Some [] |} in
  (dbutils.filter_selected_keys d ["stars2"]).1 <> Raise KeyError /\
  dbutils.entries (dbutils.filter_selected_keys d ["stars2"]).2 !! "stars2" = Some [].
Proof.
  intros d.
  pose proof (filter_selected_keys_restricts d d ["stars2"]) as (Hraise & _ & [_ Hent] & _).
  split.
  - intros Habs. apply Hraise in Habs. destruct Habs as [Habs _]. discriminate Habs.
  - rewrite Hent. reflexivity.
Defined.

Lemma Z_eqb_equivalence : equivalence Z.eqb.
Proof.
  split; [apply Z.eqb_refl|]. split.
  - intros x y Hxy. now rewrite Z.eqb_sym.
  - intros x y z Hxy Hyz. apply Z.eqb_eq in Hxy, Hyz. apply Z.eqb_eq. congruence.
Qed.

(** ** dbutils.py: [group_by_coordinates] *)

Section group_by_coordinates_facts.
Context {V : Type} (key_eq : V -> V -> bool).
Hypothesis key_eq_equivalence : equivalence key_eq.
Implicit Types (r : gmap string (option V)) (k : V * V).
Implicit Types (coords g : list ((V * V) * list (gmap string (option V)))).
Implicit Types (rows : list (gmap string (option V))).

Lemma coords_eq_refl k : dbutils.coords_eq key_eq k k = true.
Proof using key_eq_equivalence.
  destruct key_eq_equivalence as (Hrefl & _). unfold dbutils.coords_eq.
  now rewrite !Hrefl.
Qed.

Lemma coords_eq_sym k k' :
  dbutils.coords_eq key_eq k k' = true -> dbutils.coords_eq key_eq k' k = true.
Proof using key_eq_equivalence.
  destruct key_eq_equivalence as (_ & Hsym & _). unfold dbutils.coords_eq.
  rewrite !andb_true_iff. intros [H1 H2]. split; now apply Hsym.
Qed.

Lemma coords_eq_trans k1 k2 k3 :
  dbutils.coords_eq key_eq k1 k2 = true -> dbutils.coords_eq key_eq k2 k3 = true ->
  dbutils.coords_eq key_eq k1 k3 = true.
Proof using key_eq_equivalence.
  destruct key_eq_equivalence as (_ & _ & Htrans). unfold dbutils.coords_eq.
  rewrite !andb_true_iff. intros [H1 H2] [H3 H4].
  split; [now apply (Htrans _ k2.1)|now apply (Htrans _ k2.2)].
Qed.

Lemma append_to_cases coords k r :
  (exists pre k' rows post,
     coords = pre ++ (k', rows) :: post /\
     dbutils.coords_eq key_eq k' k = true /\
     dbutils.append_to key_eq coords k r = pre ++ (k', rows ++ [r]) :: post) \/
  ((forall e, In e coords -> dbutils.coords_eq key_eq e.1 k = false) /\
   dbutils.append_to key_eq coords k r = coords ++ [(k, [r])]).
Proof using Type.
  induction coords as [|[k' rows] rest IH].
  - right. split; [intros e []|reflexivity].
  - cbn [dbutils.append_to].
    destruct (dbutils.coords_eq key_eq k' k) eqn:Ek.
    + left. exists [], k', rows, rest. now repeat split.
    + destruct IH as [(pre & k'' & rows'' & post & -> & Ek'' & ->)|[Hnone ->]].
      * left. exists ((k', rows) :: pre), k'', rows'', post. now repeat split.
      * right. split; [|reflexivity]. intros e [<-|He]; [exact Ek|now apply Hnone].
Qed.

Lemma different_keys_app (ks1 ks2 : list (V * V)) :
  different_keys key_eq (ks1 ++ ks2) <->
  different_keys key_eq ks1 /\ different_keys key_eq ks2 /\
  forall a b, In a ks1 -> In b ks2 -> dbutils.coords_eq key_eq a b = false.
Proof using Type.
  induction ks1 as [|k ks1 IH]; simpl.
  - split; [intros Hd; repeat split; [assumption|intros a b []]|tauto].
  - rewrite IH. split.
    + intros (Hk & Hd1 & Hd2 & Hcross). split; [split; [|assumption]|split; [assumption|]].
      * intros k' Hk'. apply Hk, in_or_app. now left.
      * intros a b [<-|Ha] Hb; [apply Hk, in_or_app; now right|now apply Hcross].
    + intros ((Hk & Hd1) & Hd2 & Hcross). split; [|split; [assumption|split; [assumption|]]].
      * intros k' Hk'. apply in_app_or in Hk'. destruct Hk' as [Hk'|Hk'];
          [now apply Hk|apply Hcross; [now left|assumption]].
      * intros a b Ha Hb. apply Hcross; [now right|assumption].
Qed.

Lemma not_eq_false (b : bool) : b <> true -> b = false.
Proof using Type. now destruct b. Qed.

Lemma at_coordinates_located k r : at_coordinates key_eq k r -> located r.
Proof using Type.
  unfold at_coordinates, located.
  destruct (r !! "longitude") as [[lon|]|]; try tauto.
  destruct (r !! "latitude") as [[lat|]|]; try tauto.
  intros _. now exists lon, lat.
Qed.

Lemma grouped_skip coords rows r :
  ~ located r -> grouped key_eq coords rows -> grouped key_eq coords (rows ++ [r]).
Proof using Type.
  intros Hnot (Hgroups & Hkeys & Hperm). split; [|split; [assumption|]].
  - intros k group Hin. destruct (Hgroups k group Hin) as [-> Hhead].
    split; [|assumption]. rewrite filter_app, filter_cons_False, filter_nil, app_nil_r;
      [reflexivity|]. intros Hat. now apply Hnot, (at_coordinates_located k).
  - now rewrite filter_app, filter_cons_False, filter_nil, app_nil_r.
Qed.

Lemma grouped_append coords rows r (lon lat : V) :
  r !! "longitude" = Some (Some lon) -> r !! "latitude" = Some (Some lat) ->
  grouped key_eq coords rows ->
  grouped key_eq (dbutils.append_to key_eq coords (lon, lat) r) (rows ++ [r]).
Proof using key_eq_equivalence.
  intros Hlon Hlat (Hgroups & Hkeys & Hperm).
  assert (Hloc : located r) by (now exists lon, lat).
  assert (Hat : forall k, at_coordinates key_eq k r
                          <-> dbutils.coords_eq key_eq k (lon, lat) = true).
  { intros k. unfold at_coordinates. now rewrite Hlon, Hlat. }
  assert (Hfilter : forall k,
            filter (at_coordinates key_eq k) (rows ++ [r])
            = filter (at_coordinates key_eq k) rows
                ++ (if dbutils.coords_eq key_eq k (lon, lat) then [r] else [])).
  { intros k. rewrite filter_app.
    destruct (dbutils.coords_eq key_eq k (lon, lat)) eqn:Ek.
    - rewrite filter_cons_True by (now apply Hat). now rewrite filter_nil.
    - rewrite filter_cons_False; [now rewrite filter_nil|].
      intros H. apply Hat in H. congruence. }
  assert (Hlocated : filter located (rows ++ [r]) = filter located rows ++ [r]).
  { rewrite filter_app, filter_cons_True by assumption. now rewrite filter_nil. }
  destruct (append_to_cases coords (lon, lat) r)
    as [(pre & k' & group' & post & -> & Ek' & ->)|[Hnone ->]].
  - rewrite fmap_app, fmap_cons in Hkeys. cbn [fst] in Hkeys.
    apply different_keys_app in Hkeys. destruct Hkeys as (Hpre & [Hk' Hpost] & Hcross).
    assert (Hother : forall k group, In (k, group) (pre ++ post) ->
              dbutils.coords_eq key_eq k (lon, lat) = false).
    { intros k group Hin. apply not_eq_false. intros Ek.
      assert (Ekk : dbutils.coords_eq key_eq k k' = true)
        by (apply (coords_eq_trans _ (lon, lat)); [assumption|now apply coords_eq_sym]).
      apply in_app_or in Hin. destruct Hin as [Hin|Hin].
      - rewrite (Hcross k k') in Ekk; [discriminate| |now left].
        apply List.in_map_iff. now exists (k, group).
      - apply coords_eq_sym in Ekk. rewrite (Hk' k) in Ekk; [discriminate|].
        apply List.in_map_iff. now exists (k, group). }
    split; [|split].
    + intros k group Hin. apply in_app_or in Hin. rewrite Hfilter.
      destruct Hin as [Hin|[Heq|Hin]].
      * rewrite (Hother k group) by (apply in_or_app; now left). rewrite app_nil_r.
        apply Hgroups, in_or_app. now left.
      * inversion Heq; subst k group. rewrite Ek'.
        destruct (Hgroups k' group') as [<- (r0 & Hhead & Hr0)];
          [apply in_or_app; right; now left|].
        split; [reflexivity|]. exists r0. split; [|assumption].
        destruct group'; [discriminate Hhead|exact Hhead].
      * rewrite (Hother k group) by (apply in_or_app; now right). rewrite app_nil_r.
        apply Hgroups, in_or_app. right. now right.
    + rewrite fmap_app, fmap_cons. cbn [fst]. apply different_keys_app.
      split; [assumption|]. split; [split; assumption|assumption].
    + rewrite Hlocated, <- Hperm. rewrite !fmap_app, !fmap_cons, !concat_app.
      cbn [snd concat]. rewrite <- !app_assoc.
      apply Permutation_app_head, Permutation_app_head.
      cbn [app]. rewrite (Permutation_app_comm (concat post.*2) [r]). reflexivity.
  - assert (Hnew : filter (at_coordinates key_eq (lon, lat)) rows = []).
    { destruct (filter (at_coordinates key_eq (lon, lat)) rows) as [|r' l] eqn:Ef;
        [reflexivity|exfalso].
      assert (Hr' : r' ∈ filter (at_coordinates key_eq (lon, lat)) rows)
        by (rewrite Ef; left).
      apply list_elem_of_filter in Hr'. destruct Hr' as [Hat' Hr'].
      assert (Hin : r' ∈ concat coords.*2).
      { rewrite Hperm. apply list_elem_of_filter.
        split; [now apply (at_coordinates_located (lon, lat))|assumption]. }
      apply list_elem_of_In, in_concat in Hin. destruct Hin as (group & Hgroup & Hr'g).
      apply List.in_map_iff in Hgroup. destruct Hgroup as ([k group'] & Heq & Hin).
      cbn [snd] in Heq. subst group'.
      destruct (Hgroups k group Hin) as [Hg _]. rewrite Hg in Hr'g.
      apply list_elem_of_In, list_elem_of_filter in Hr'g. destruct Hr'g as [Hatk _].
      unfold at_coordinates in Hat', Hatk.
      destruct (r' !! "longitude") as [[lon'|]|]; try tauto.
      destruct (r' !! "latitude") as [[lat'|]|]; try tauto.
      specialize (Hnone (k, group) Hin). cbn [fst] in Hnone.
      rewrite (coords_eq_trans k (lon', lat') (lon, lat)) in Hnone;
        [discriminate Hnone|assumption|now apply coords_eq_sym]. }
    split; [|split].
    + intros k group Hin. apply in_app_or in Hin. rewrite Hfilter.
      destruct Hin as [Hin|[Heq|[]]].
      * pose proof (Hnone (k, group) Hin) as Ek. cbn [fst] in Ek.
        rewrite Ek, app_nil_r. now apply Hgroups.
      * inversion Heq; subst k group. rewrite Hnew, coords_eq_refl.
        split; [reflexivity|]. exists r. now repeat split.
    + rewrite fmap_app. cbn [fmap list_fmap fst]. apply different_keys_app.
      split; [assumption|]. split; [split; [intros k' []|exact I]|].
      intros a b Ha [<-|[]]. apply List.in_map_iff in Ha.
      destruct Ha as ([k group] & <- & Hin). exact (Hnone (k, group) Hin).
    + rewrite Hlocated, <- Hperm, fmap_app, concat_app. cbn [fmap list_fmap snd concat].
      now rewrite app_nil_r.
Qed.

Lemma group_by_coordinates_loop_spec (iterable : list (option (gmap string (option V)))) :
  forall coords rows,
    (forall r, In (Some r) iterable ->
       is_Some (r !! "longitude") /\
       (r !! "longitude" <> Some None -> is_Some (r !! "latitude"))) ->
    grouped key_eq coords rows ->
    exists g,
      dbutils.group_by_coordinates_loop key_eq coords iterable = Ok g /\
      grouped key_eq g (rows ++ not_None iterable).
Proof using key_eq_equivalence.
  induction iterable as [|row rest IH]; intros coords rows Hkeys Hinv.
  - exists coords. split; [reflexivity|]. unfold not_None. simpl. now rewrite app_nil_r.
  - cbn [dbutils.group_by_coordinates_loop].
    assert (Hrest : forall r, In (Some r) rest ->
              is_Some (r !! "longitude") /\
              (r !! "longitude" <> Some None -> is_Some (r !! "latitude")))
      by (intros r Hr; apply Hkeys; now right).
    destruct row as [r|].
    2:{ cbn [dbutils.group_by_coordinates_step mbind result_bind].
        destruct (IH coords rows Hrest Hinv) as (g & Hg & Hgrouped).
        exists g. split; assumption. }
    assert (Hsnoc : rows ++ not_None (Some r :: rest) = (rows ++ [r]) ++ not_None rest)
      by (unfold not_None; simpl; now rewrite <- app_assoc).
    rewrite Hsnoc.
    destruct (Hkeys r (or_introl eq_refl)) as [[lon Hlon] Hlat].
    unfold dbutils.group_by_coordinates_step.
    replace (getitem r "longitude") with (@Ok (option V) lon)
      by (unfold getitem; now rewrite Hlon).
    cbn [mbind result_bind].
    destruct lon as [lon|].
    2:{ destruct (IH coords (rows ++ [r]) Hrest) as (g & Hg & Hgrouped).
        - apply grouped_skip; [|assumption]. intros (x & y & Hx & _). congruence.
        - exists g. split; assumption. }
    destruct Hlat as [lat Hlat]; [rewrite Hlon; congruence|].
    replace (getitem r "latitude") with (@Ok (option V) lat)
      by (unfold getitem; now rewrite Hlat).
    cbn [mbind result_bind].
    destruct lat as [lat|].
    2:{ destruct (IH coords (rows ++ [r]) Hrest) as (g & Hg & Hgrouped).
        - apply grouped_skip; [|assumption]. intros (x & y & _ & Hy). congruence.
        - exists g. split; assumption. }
    destruct (IH (dbutils.append_to key_eq coords (lon, lat) r) (rows ++ [r]) Hrest)
      as (g & Hg & Hgrouped).
    + now apply grouped_append.
    + exists g. split; assumption.
Qed.

End group_by_coordinates_facts.

(** For a key equality that is an equivalence, and on rows that have a
    longitude cell and, unless it holds [None], a latitude cell,
    [group_by_coordinates] returns a dictionary in which the group of a
    key holds, in input order, the rows whose two coordinates are set and
    equal the key's; the key is the pair of coordinates of the first row of
    its group; no key equals another key; and the groups together
    rearrange exactly the rows with both coordinates set. *)
Theorem group_by_coordinates_spec {V : Type} (key_eq : V -> V -> bool)
    (iterable : list (option (gmap string (option V)))) :
  equivalence key_eq ->
  (forall r, In (Some r) iterable ->
     is_Some (r !! "longitude") /\
     (r !! "longitude" <> Some None -> is_Some (r !! "latitude"))) ->
  exists g,
    dbutils.group_by_coordinates key_eq iterable = Ok g /\
    (forall k group, In (k, group) g ->
       group = filter (at_coordinates key_eq k) (not_None iterable) /\
       exists r, head group = Some r /\
                 r !! "longitude" = Some (Some k.1) /\ r !! "latitude" = Some (Some k.2)) /\
    (forall pre e post, g = pre ++ e :: post ->
       forall e', In e' (pre ++ post) ->
                  dbutils.coords_eq key_eq e.1 e'.1 = false) /\
    concat g.*2 ≡ₚ filter located (not_None iterable).
Proof.
  intros Heq Hkeys.
  destruct (group_by_coordinates_loop_spec key_eq Heq iterable [] [] Hkeys)
    as (g & Hg & Hgroups & Hdiff & Hperm).
  { split; [intros k group []|]. split; [exact I|reflexivity]. }
  exists g. split; [exact Hg|]. split; [exact Hgroups|]. split; [|exact Hperm].
  intros pre e post -> e' He'.
  rewrite fmap_app, fmap_cons in Hdiff. apply different_keys_app in Hdiff.
  destruct Hdiff as (_ & [He _] & Hcross).
  apply in_app_or in He'. destruct He' as [He'|He'].
  - apply not_eq_false. intros Ee.
    apply (coords_eq_sym key_eq Heq) in Ee.
    rewrite (Hcross e'.1 e.1) in Ee; [discriminate| |now left].
    apply List.in_map_iff. now exists e'.
  - apply He. apply List.in_map_iff. now exists e'.
Qed.

Lemma group_by_coordinates_spec_witness :
  let a : gmap string (option Z) :=
    {[ "longitude" := Some (-3); "latitude" := Some 40; "place" := None ]} in
  let b : gmap string (option Z) := {[ "longitude" := None; "place" := None ]} in
  exists g,
    dbutils.group_by_coordinates Z.eqb [Some a; None; Some b; Some a] = Ok g /\
    forall k group, In (k, group) g ->
      group = filter (at_coordinates Z.eqb k) [a; b; a].
Proof.
  intros a b.
  destruct (group_by_coordinates_spec Z.eqb [Some a; None; Some b; Some a]
              Z_eqb_equivalence) as (g & Hg & Hgroups & _).
  - intros r [Hr|[Hr|[Hr|[Hr|[]]]]]; inversion Hr; subst; split;
      try (eexists; reflexivity); intros Hnn; try (eexists; reflexivity).
    exfalso. apply Hnn. reflexivity.
  - exists g. split; [exact Hg|]. intros k group Hin. now apply Hgroups.
Defined.

(** ** dbutils.py: [check_place_same_coords] *)

Lemma existsb_false {A : Type} (f : A -> bool) (l : list A) :
  existsb f l = false <-> forall x, In x l -> f x = false.
Proof.
  split.
  - intros Hex x Hx. destruct (f x) eqn:Efx; [|reflexivity].
    rewrite <- Hex. symmetry. apply existsb_exists. now exists x.
  - intros Hall. destruct (existsb f l) eqn:Hex; [|reflexivity].
    apply existsb_exists in Hex. destruct Hex as (x & Hx & Hfx).
    now rewrite (Hall x Hx) in Hfx.
Qed.

Lemma list_map_getitem {V : Type} (key : string) (rows : list (gmap string V)) :
  match list_map (fun phot => getitem phot key) rows with
  | Ok vs => vs = column key rows /\ forall r, In r rows -> is_Some (r !! key)
  | Raise e => e = KeyError /\ exists r, In r rows /\ r !! key = None
  end.
Proof.
  unfold column. induction rows as [|row rest IH].
  - simpl. split; [reflexivity|intros r []].
  - cbn [list_map].
    destruct (row !! key) as [v|] eqn:Ev;
      [replace (getitem row key) with (@Ok V v) by (unfold getitem; now rewrite Ev)
      |replace (getitem row key) with (@Raise V KeyError) by (unfold getitem; now rewrite Ev)];
      cbn [mbind result_bind].
    + destruct (list_map (fun phot => getitem phot key) rest) as [vs|e];
        cbn [mbind result_bind].
      * destruct IH as [-> Hall]. split; [simpl; now rewrite Ev|].
        intros r [<-|Hr]; [now rewrite Ev|now apply Hall].
      * destruct IH as [-> (r & Hr & Hnone)]. split; [reflexivity|].
        exists r. split; [now right|assumption].
    + split; [reflexivity|]. exists row. split; [now left|assumption].
Qed.

Section set_facts.
Context {V : Type} (key_eq : V -> V -> bool).
Hypothesis key_eq_equivalence : equivalence key_eq.

Lemma set_add_length (s : list V) (x : V) :
  (length s <= length (dbutils.set_add key_eq s x))%nat.
Proof using Type.
  unfold dbutils.set_add. destruct (existsb _ s); [lia|]. rewrite length_app. lia.
Qed.

Lemma set_of_length (values : list V) :
  forall s, (length s <= length (foldl (dbutils.set_add key_eq) s values))%nat.
Proof using Type.
  induction values as [|x values IH]; intros s; [simpl; lia|].
  simpl. etransitivity; [apply (set_add_length s x)|apply IH].
Qed.

Lemma set_of_one (z : V) (values : list V) :
  if forallb (key_eq z) values
  then foldl (dbutils.set_add key_eq) [z] values = [z]
  else (2 <= length (foldl (dbutils.set_add key_eq) [z] values))%nat.
Proof using Type.
  induction values as [|x values IH]; [reflexivity|].
  cbn [forallb foldl]. unfold dbutils.set_add at 2 4. cbn [existsb].
  destruct (key_eq z x); cbn [orb andb]; [exact IH|].
  apply (set_of_length values [z; x]).
Qed.

(** The set of the values has more than one element exactly when two of
    the values differ. *)
Lemma set_of_differ (values : list V) :
  (1 <? length (dbutils.set_of key_eq values))%nat = true <-> differ key_eq values.
Proof using key_eq_equivalence.
  destruct key_eq_equivalence as (Hrefl & Hsym & Htrans).
  unfold dbutils.set_of. destruct values as [|z values].
  - simpl. split; [discriminate|intros (x & _ & [] & _)].
  - cbn [foldl]. unfold dbutils.set_add at 2. cbn [existsb app].
    pose proof (set_of_one z values) as Hone.
    destruct (forallb (key_eq z) values) eqn:Hall.
    + rewrite Hone. simpl. split; [discriminate|].
      intros (x & y & Hx & Hy & Hxy). exfalso.
      assert (Hz : forall v, In v (z :: values) -> key_eq z v = true).
      { intros v [<-|Hv]; [apply Hrefl|]. rewrite forallb_forall in Hall. now apply Hall. }
      rewrite (Htrans x z y) in Hxy; [discriminate| |now apply Hz].
      apply Hsym. now apply Hz.
    + split; [intros _|intros _; apply Nat.ltb_lt; lia].
      assert (Hex : existsb (fun v => negb (key_eq z v)) values = true).
      { destruct (existsb (fun v => negb (key_eq z v)) values) eqn:Hex; [reflexivity|].
        rewrite <- Hall. apply forallb_forall. intros v Hv.
        pose proof (proj1 (existsb_false _ _) Hex v Hv) as Hv'.
        now apply negb_false_iff in Hv'. }
      apply existsb_exists in Hex. destruct Hex as (v & Hv & Hzv).
      exists z, v. split; [now left|]. split; [now right|]. now apply negb_true_iff.
Qed.

(** The body of [check_place_same_coords] on rows that have their
    coordinates. *)
Lemma check_place_same_coords_body (rows : list (gmap string V)) :
  (forall r, In r rows -> is_Some (r !! "longitude") /\ is_Some (r !! "latitude")) ->
  dbutils.check_place_same_coords key_eq rows
  = if (1 <? length (dbutils.set_of key_eq (column "longitude" rows)))%nat
       || (1 <? length (dbutils.set_of key_eq (column "latitude" rows)))%nat
    then _ ← list_map (fun phot => getitem phot "name") rows; Ok true
    else Ok false.
Proof using Type.
  intros Hall. unfold dbutils.check_place_same_coords.
  pose proof (list_map_getitem "longitude" rows) as Hlon.
  pose proof (list_map_getitem "latitude" rows) as Hlat.
  destruct (list_map (fun phot => getitem phot "longitude") rows) as [lons|e1].
  2:{ destruct Hlon as [_ (r & Hr & Hnone)]. destruct (Hall r Hr) as [[x Hx] _]. congruence. }
  destruct (list_map (fun phot => getitem phot "latitude") rows) as [lats|e2].
  2:{ destruct Hlat as [_ (r & Hr & Hnone)]. destruct (Hall r Hr) as [_ [x Hx]]. congruence. }
  destruct Hlon as [-> _], Hlat as [-> _]. cbn [mbind result_bind].
  destruct (1 <? length (dbutils.set_of key_eq (column "longitude" rows)))%nat;
    destruct (1 <? length (dbutils.set_of key_eq (column "latitude" rows)))%nat;
    cbn [orb mbind result_bind];
    destruct (list_map (fun phot => getitem phot "name") rows); reflexivity.
Qed.

End set_facts.

(** [check_place_same_coords] raises only [KeyError], and exactly when
    some row has no longitude or no latitude, or two rows differ in
    longitude or in latitude (by Python's equality) and some row has no
    ['name'], which the warning lists. It returns [False] exactly when
    every row has both coordinates and no two rows differ in either (so
    also for no row at all), and [True] exactly when every row has both
    coordinates and a name and two rows differ in a coordinate. *)
Theorem check_place_same_coords_spec {V : Type} (key_eq : V -> V -> bool)
    (rows : list (gmap string V)) :
  equivalence key_eq ->
  let have_coordinates :=
    forall r, In r rows -> is_Some (r !! "longitude") /\ is_Some (r !! "latitude") in
  let coordinates_differ :=
    differ key_eq (column "longitude" rows) \/ differ key_eq (column "latitude" rows) in
  (forall e, dbutils.check_place_same_coords key_eq rows = Raise e -> e = KeyError) /\
  (dbutils.check_place_same_coords key_eq rows = Raise KeyError <->
   ~ have_coordinates \/
   (coordinates_differ /\ exists r, In r rows /\ r !! "name" = None)) /\
  (dbutils.check_place_same_coords key_eq rows = Ok false <->
   have_coordinates /\ ~ coordinates_differ) /\
  (dbutils.check_place_same_coords key_eq rows = Ok true <->
   have_coordinates /\ coordinates_differ /\
   forall r, In r rows -> is_Some (r !! "name")).
Proof.
  intros Heq have_coordinates coordinates_differ.
  assert (Hdec : have_coordinates \/
                 (~ have_coordinates /\
                  dbutils.check_place_same_coords key_eq rows = Raise KeyError)).
  { unfold dbutils.check_place_same_coords.
    pose proof (list_map_getitem "longitude" rows) as Hlon.
    pose proof (list_map_getitem "latitude" rows) as Hlat.
    destruct (list_map (fun phot => getitem phot "longitude") rows) as [lons|e1].
    2:{ right. destruct Hlon as [-> (r & Hr & Hnone)]. split; [|reflexivity].
        intros Hall. destruct (Hall r Hr) as [[x Hx] _]. congruence. }
    destruct (list_map (fun phot => getitem phot "latitude") rows) as [lats|e2].
    2:{ right. destruct Hlat as [-> (r & Hr & Hnone)]. split; [|reflexivity].
        intros Hall. destruct (Hall r Hr) as [_ [x Hx]]. congruence. }
    left. intros r Hr. split; [now apply Hlon|now apply Hlat]. }
  destruct Hdec as [Hall|[Hnot Hraise]].
  2:{ rewrite Hraise. split; [intros e [= <-]; reflexivity|].
      split; [split; [intros _; now left|reflexivity]|].
      split; (split; [discriminate|intros [Hall _]; contradiction]). }
  rewrite (check_place_same_coords_body key_eq rows Hall).
  assert (Hdiff : (1 <? length (dbutils.set_of key_eq (column "longitude" rows)))%nat
                  || (1 <? length (dbutils.set_of key_eq (column "latitude" rows)))%nat
                  = true <-> coordinates_differ).
  { unfold coordinates_differ. now rewrite orb_true_iff, !(set_of_differ key_eq Heq). }
  pose proof (list_map_getitem "name" rows) as Hname.
  destruct ((1 <? length (dbutils.set_of key_eq (column "longitude" rows)))%nat
            || (1 <? length (dbutils.set_of key_eq (column "latitude" rows)))%nat).
  - assert (Hd : coordinates_differ) by now apply Hdiff.
    destruct (list_map (fun phot => getitem phot "name") rows) as [names|e];
      cbn [mbind result_bind].
    + destruct Hname as [_ Hnames]. split; [discriminate|]. split; [|split].
      * split; [discriminate|]. intros [Hnot|[_ (r & Hr & Hnone)]]; [contradiction|].
        destruct (Hnames r Hr) as [x Hx]. congruence.
      * split; [discriminate|]. intros [_ Hnd]. contradiction.
      * split; [intros _|reflexivity].
        split; [exact Hall|]. split; [exact Hd|exact Hnames].
    + destruct Hname as [-> (r & Hr & Hnone)]. split; [intros e [= <-]; reflexivity|].
      split; [|split].
      * split; [intros _; right; split; [assumption|now exists r]|reflexivity].
      * split; [discriminate|]. intros [_ Hnd]. contradiction.
      * split; [discriminate|]. intros (_ & _ & Hnames).
        destruct (Hnames r Hr) as [x Hx]. congruence.
  - assert (Hnd : ~ coordinates_differ) by (intros Hd; apply Hdiff in Hd; discriminate Hd).
    split; [discriminate|]. split; [|split].
    + split; [discriminate|]. intros [Hnot|[Hd _]]; contradiction.
    + split; [intros _; now split|reflexivity].
    + split; [discriminate|]. intros (_ & Hd & _). contradiction.
Qed.

Lemma check_place_same_coords_spec_witness :
  let a : gmap string Z := {[ "longitude" := -3; "latitude" := 40 ]} in
  let b : gmap string Z := {[ "longitude" := -4; "latitude" := 40; "name" := 1 ]} in
  dbutils.check_place_same_coords Z.eqb [a; b] = Raise KeyError /\
  dbutils.check_place_same_coords Z.eqb [a; a] = Ok false.
Proof.
  intros a b. split.
  - apply (proj1 (proj2 (check_place_same_coords_spec Z.eqb [a; b] Z_eqb_equivalence))).
    right. split.
    + left. exists (-3), (-4). vm_compute. repeat split; (left + (right; left)); reflexivity.
    + exists a. split; [now left|reflexivity].
  - apply (proj1 (proj2 (proj2 (check_place_same_coords_spec Z.eqb [a; a]
                                  Z_eqb_equivalence)))).
    split.
    + intros r [<-|[<-|[]]]; split; eexists; reflexivity.
    + intros [(x & y & Hx & Hy & Hxy)|(x & y & Hx & Hy & Hxy)];
        vm_compute in Hx, Hy;
        destruct Hx as [<-|[<-|[]]], Hy as [<-|[<-|[]]]; discriminate Hxy.
Defined.

(** ** dbutils.py: [filter_and_flatten] *)

Section filter_and_flatten_facts.
Context `{Countable V}.
Implicit Types (r : gmap string V) (ks : gset V).

Lemma concat_filter_groups (key : string) ks (l : list (V * list (gmap string V))) :
  (forall k rows r, In (k, rows) l -> In r rows -> r !! key = Some k) ->
  concat (snd <$> filter (fun kv => kv.1 ∈ ks) l)
  = filter (key_in key ks) (concat (snd <$> l)).
Proof.
  induction l as [|[k rows] l IH]; intros Hkeys; [reflexivity|].
  rewrite filter_cons. cbn [fmap list_fmap concat snd]. rewrite filter_app.
  assert (IH' := IH (fun k' rows' r' Hin => Hkeys k' rows' r' (or_intror Hin))).
  change (list_fmap _ _ snd ?x) with (snd <$> x) in *.
  assert (Hrows : forall r, In r rows -> r !! key = Some k)
    by (intros r Hr; apply (Hkeys k rows r); [now left|assumption]).
  destruct (decide ((k, rows).1 ∈ ks)) as [Hin|Hnin]; cbn [fst] in *.
  - cbn [fmap list_fmap concat snd]. change (list_fmap _ _ snd ?x) with (snd <$> x).
    rewrite IH'. f_equal.
    clear -Hrows Hin. induction rows as [|r rows IHr]; [reflexivity|].
    rewrite filter_cons, decide_True.
    + f_equal. apply IHr. intros r' Hr'. apply Hrows. now right.
    + unfold key_in. rewrite (Hrows r (or_introl eq_refl)). exact Hin.
  - rewrite IH'.
    assert (Hnone : filter (key_in key ks) rows = []).
    { clear -Hrows Hnin. induction rows as [|r rows IHr]; [reflexivity|].
      rewrite filter_cons, decide_False.
      - apply IHr. intros r' Hr'. apply Hrows. now right.
      - unfold key_in. rewrite (Hrows r (or_introl eq_refl)). exact Hnin. }
    now rewrite Hnone.
Qed.

(** After [group_by], [filter_and_flatten] without keys gives back the
    rows that are not [None], and with keys those whose key value is one of
    the keys (in both cases group after group, so up to order). With the
    keys of [in_A_not_in_B] these are the rows whose key value is no key of
    the other dictionary. *)
Theorem filter_and_flatten_group_by {B : Type}
    (iterable : list (option (gmap string V))) (key : string)
    (g : gmap V (list (gmap string V))) (other : gmap V B) :
  group_by iterable key = Ok g ->
  dbutils.filter_and_flatten g None ≡ₚ not_None iterable /\
  (forall ks, dbutils.filter_and_flatten g (Some ks)
              ≡ₚ filter (key_in key ks) (not_None iterable)) /\
  (forall r, In r (dbutils.filter_and_flatten g (Some (in_A_not_in_B g other))) <->
             In (Some r) iterable /\ exists k, r !! key = Some k /\ other !! k = None).
Proof.
  intros Hg. destruct (group_by_ok_groups iterable key g Hg) as (Hgrp & Hne & Hperm).
  assert (Hkeys : forall k rows r, In (k, rows) (map_to_list g) -> In r rows ->
                                   r !! key = Some k).
  { intros k rows r Hin Hr. apply list_elem_of_In, elem_of_map_to_list in Hin.
    specialize (Hgrp k). unfold group_of in Hgrp. rewrite Hin in Hgrp. simpl in Hgrp.
    rewrite Hgrp in Hr. apply list_elem_of_In, list_elem_of_filter in Hr. tauto. }
  assert (Hsome : forall ks, dbutils.filter_and_flatten g (Some ks)
                             ≡ₚ filter (key_in key ks) (not_None iterable)).
  { intros ks. unfold dbutils.filter_and_flatten.
    rewrite (concat_filter_groups key ks _ Hkeys).
    apply filter_Permutation. exact Hperm. }
  split; [exact Hperm|]. split; [exact Hsome|].
  intros r. rewrite <- list_elem_of_In, (Hsome _), list_elem_of_filter, list_elem_of_In.
  rewrite In_not_None. unfold key_in, in_A_not_in_B. rewrite !list_to_set_keys.
  split.
  - intros [Hk Hin]. split; [assumption|].
    destruct (r !! key) as [k|]; [|destruct Hk]. exists k. split; [reflexivity|].
    apply elem_of_difference in Hk. destruct Hk as [_ Hk].
    now apply not_elem_of_dom in Hk.
  - intros [Hin (k & Hk & Hnone)]. split; [|assumption]. rewrite Hk.
    apply elem_of_difference. split.
    + apply elem_of_dom. destruct (g !! k) as [l|] eqn:Egk; [now exists l|].
      specialize (Hgrp k). unfold group_of in Hgrp. rewrite Egk in Hgrp. simpl in Hgrp.
      assert (Hr : r ∈ filter (fun r => r !! key = Some k) (not_None iterable)).
      { apply list_elem_of_filter. split; [assumption|].
        now apply list_elem_of_In, In_not_None. }
      rewrite <- Hgrp in Hr. now apply not_elem_of_nil in Hr.
    + now apply not_elem_of_dom.
Qed.

End filter_and_flatten_facts.

Lemma filter_and_flatten_group_by_witness :
  let a1 : gmap string string := {[ "name" := "stars1"; "place" := "A" ]} in
  let b1 : gmap string string := {[ "name" := "stars2"; "place" := "B" ]} in
  let other : gmap string nat := {[ "stars1" := 1%nat ]} in
  exists g, group_by [Some a1; None; Some b1] "name" = Ok g /\
    In b1 (dbutils.filter_and_flatten g (Some (in_A_not_in_B g other))) /\
    ~ In a1 (dbutils.filter_and_flatten g (Some (in_A_not_in_B g other))).
Proof.
  intros a1 b1 other.
  destruct (group_by [Some a1; None; Some b1] "name") as [g|e] eqn:Hg;
    [|vm_compute in Hg; discriminate Hg].
  exists g. split; [reflexivity|].
  destruct (filter_and_flatten_group_by _ "name" g other Hg) as (_ & _ & Hmem). split.
  - apply Hmem. split; [right; right; now left|]. exists "stars2"%string. split; reflexivity.
  - intros Habs. apply Hmem in Habs. destruct Habs as [_ (k & Hk & Hnone)].
    vm_compute in Hk. inversion Hk; subst. vm_compute in Hnone. discriminate Hnone.
Defined.

(** ** mongodb.py: [filter_by_names] *)

Section filter_by_names_facts.
Variable other_eq : pyval -> pyval -> bool.

Lemma filter_by_names_spec (iterable : list dict) (names : list pyval) :
  match mongodb.filter_by_names other_eq iterable names with
  | Ok out => out = filter (name_in other_eq names) iterable /\
              forall row, In row iterable -> is_Some (row !! "name")
  | Raise e => e = KeyError /\ exists row, In row iterable /\ row !! "name" = None
  end.
Proof.
  induction iterable as [|row rest IH].
  - simpl. split; [reflexivity|intros r []].
  - cbn [mongodb.filter_by_names].
    destruct (row !! "name") as [n|] eqn:En;
      [replace (getitem row "name") with (@Ok pyval n) by (unfold getitem; now rewrite En)
      |replace (getitem row "name") with (@Raise pyval KeyError)
         by (unfold getitem; now rewrite En)];
      cbn [mbind result_bind].
    + destruct (mongodb.filter_by_names other_eq rest names) as [out|e];
        cbn [mbind result_bind].
      * destruct IH as [-> Hall]. split.
        -- rewrite filter_cons.
           assert (Hrow : name_in other_eq names row
                          <-> mongodb.py_in other_eq n names = true)
             by (unfold name_in; now rewrite En).
           destruct (mongodb.py_in other_eq n names).
           ++ rewrite decide_True; [reflexivity|now apply Hrow].
           ++ rewrite decide_False; [reflexivity|]. intros Habs. apply Hrow in Habs.
              discriminate Habs.
        -- intros r [<-|Hr]; [now rewrite En|now apply Hall].
      * destruct IH as [-> (r & Hr & Hnone)]. split; [reflexivity|].
        exists r. split; [now right|assumption].
    + split; [reflexivity|]. exists row. split; [now left|assumption].
Qed.

(** [filter_by_names] raises [KeyError] exactly when some row has no
    ['name']; otherwise it returns, in their order, the rows whose name is
    one of [names], and filtering its result again changes nothing. *)
Theorem filter_by_names_keeps_named_rows (iterable : list dict) (names : list pyval) :
  (mongodb.filter_by_names other_eq iterable names = Raise KeyError
   <-> exists row, In row iterable /\ row !! "name" = None) /\
  (forall out, mongodb.filter_by_names other_eq iterable names = Ok out ->
     out = filter (name_in other_eq names) iterable /\
     mongodb.filter_by_names other_eq out names = Ok out).
Proof.
  pose proof (filter_by_names_spec iterable names) as Hs. split.
  - split.
    + intros Hr. rewrite Hr in Hs. apply Hs.
    + intros (row & Hrow & Hnone).
      destruct (mongodb.filter_by_names other_eq iterable names) as [out|e].
      * destruct Hs as [_ Hall]. destruct (Hall row Hrow) as [x Hx]. congruence.
      * destruct Hs as [-> _]. reflexivity.
  - intros out Hout. rewrite Hout in Hs. destruct Hs as [-> Hall].
    split; [reflexivity|].
    pose proof (filter_by_names_spec (filter (name_in other_eq names) iterable) names) as Hs2.
    destruct (mongodb.filter_by_names other_eq (filter (name_in other_eq names) iterable) names)
      as [out2|e].
    + destruct Hs2 as [-> _]. f_equal. apply list_filter_filter_l. tauto.
    + destruct Hs2 as [_ (row & Hrow & Hnone)].
      apply list_elem_of_In, list_elem_of_filter in Hrow. destruct Hrow as [_ Hrow].
      destruct (Hall row) as [x Hx]; [now apply list_elem_of_In|congruence].
Qed.

End filter_by_names_facts.

Lemma filter_by_names_keeps_named_rows_witness :
  let oe := fun _ _ : pyval => false in
  let r1 : dict := {[ "name" := PyStr "stars1" ]} in
  let r2 : dict := {[ "name" := PyStr "stars2" ]} in
  mongodb.filter_by_names oe [r2] [PyStr "stars2"; PyStr "stars3"] = Ok [r2].
Proof.
  intros oe r1 r2.
  apply (proj2 (proj2 (filter_by_names_keeps_named_rows oe [r1; r2; r1]
                         [PyStr "stars2"; PyStr "stars3"]) [r2] eq_refl)).
Defined.

(** ** mongodb.py: [remap_mac] *)

Lemma formatted_mac_ok_idempotent (mac : pyval) (m : string) :
  formatted_mac mac = Ok m -> formatted_mac (PyStr m) = Ok m.
Proof.
  destruct mac as [|s|z|f|b|o]; try discriminate. simpl.
  destruct (formatted_mac_str s) as [r|] eqn:E; [|discriminate].
  intros Heq. inversion Heq; subst. now rewrite (formatted_mac_str_idempotent _ _ E).
Qed.

Lemma _map_mac_returns (item item' : dict) :
  mongodb_rows._map_mac item = mongodb_rows.Returns item' <-> mac_remapped item item'.
Proof.
  unfold mongodb_rows._map_mac, mac_remapped, getitem. split.
  - destruct (item !! "mac") as [mac|]; [|discriminate].
    destruct (formatted_mac mac) as [m|e] eqn:Em.
    + intros Heq. inversion Heq; subst. now exists mac, m.
    + destruct e; try discriminate. destruct (item !! "name"); discriminate.
  - intros (mac & m & -> & -> & ->). reflexivity.
Qed.

Lemma remap_mac_returns (items out : list dict) :
  mongodb_rows.remap_mac items = mongodb_rows.Returns out <-> Forall2 mac_remapped items out.
Proof.
  revert out. induction items as [|item rest IH]; intros out; simpl.
  - split.
    + intros Heq. inversion Heq. constructor.
    + intros Hall. inversion Hall. reflexivity.
  - split.
    + destruct (mongodb_rows._map_mac item) as [item'| |] eqn:Ei; try discriminate.
      destruct (mongodb_rows.remap_mac rest) as [rest'| |] eqn:Er; try discriminate.
      intros Heq. inversion Heq; subst. constructor.
      * now apply _map_mac_returns.
      * now apply IH.
    + intros Hall. inversion Hall as [|? item' ? rest' Hi Hr]; subst.
      apply _map_mac_returns in Hi. apply IH in Hr. now rewrite Hi, Hr.
Qed.

(** [remap_mac] returns exactly when every item has a MAC that
    [formatted_mac] accepts, and then gives the items with their MACs
    formatted; remapping its result again changes nothing. It never skips
    an item: at the first item whose MAC is rejected with [ValueError]
    (the item having a ['name'] to log) it ends in [UnboundLocalError]. *)
Theorem remap_mac_all_or_nothing (items : list dict) :
  (forall out, mongodb_rows.remap_mac items = mongodb_rows.Returns out
               <-> Forall2 mac_remapped items out) /\
  (forall out, mongodb_rows.remap_mac items = mongodb_rows.Returns out ->
               mongodb_rows.remap_mac out = mongodb_rows.Returns out) /\
  (forall i item mac,
      (exists out, Forall2 mac_remapped (take i items) out) ->
      items !! i = Some item -> item !! "mac" = Some mac ->
      formatted_mac mac = Raise ValueError -> is_Some (item !! "name") ->
      mongodb_rows.remap_mac items = mongodb_rows.RaisesUnboundLocalError).
Proof.
  split; [|split].
  - intros out. apply remap_mac_returns.
  - intros out Hout. apply remap_mac_returns in Hout. apply remap_mac_returns.
    clear -Hout. induction Hout as [|item item' rest rest' Hi _ IH]; constructor; [|exact IH].
    destruct Hi as (mac & m & Hmac & Hm & ->).
    exists (PyStr m), m. split; [apply lookup_insert_eq|]. split.
    + exact (formatted_mac_ok_idempotent mac m Hm).
    + now rewrite insert_insert_eq.
  - induction items as [|item0 rest IH]; intros i item mac (out & Hpre) Hi Hmac Hbad Hname;
      [discriminate Hi|].
    destruct i as [|i]; simpl in Hi, Hpre.
    + inversion Hi; subst. simpl. unfold mongodb_rows._map_mac, getitem.
      rewrite Hmac, Hbad. destruct Hname as [n ->]. reflexivity.
    + inversion Hpre as [|? item0' ? out' H0 Hrest]; subst.
      apply _map_mac_returns in H0. simpl. rewrite H0.
      rewrite (IH i item mac (ex_intro _ out' Hrest) Hi Hmac Hbad Hname). reflexivity.
Qed.

Lemma remap_mac_all_or_nothing_witness :
  let good : dict := {[ "name" := PyStr "stars1"; "mac" := PyStr "1a:2:3:4:5:6" ]} in
  let bad : dict := {[ "name" := PyStr "stars2"; "mac" := PyStr "nonsense" ]} in
  mongodb_rows.remap_mac [<["mac" := PyStr "1A:02:03:04:05:06"]> good]
  = mongodb_rows.Returns [<["mac" := PyStr "1A:02:03:04:05:06"]> good] /\
  mongodb_rows.remap_mac [good; bad; good] = mongodb_rows.RaisesUnboundLocalError.
Proof.
  intros good bad. split.
  - apply (proj1 (proj2 (remap_mac_all_or_nothing [good]))). reflexivity.
  - apply (proj2 (proj2 (remap_mac_all_or_nothing [good; bad; good]))
             1%nat bad (PyStr "nonsense")).
    + eexists. constructor; [|constructor].
      eexists _, _. split; [reflexivity|]. split; reflexivity.
    + reflexivity.
    + reflexivity.
    + reflexivity.
    + eexists; reflexivity.
Defined.

(** ** mongodb.py: [merge_info], [remap_nominatim] *)

Lemma merge_info_spec (a b : list dict) :
  match mongodb_rows.merge_info a b with
  | Ok out => (length a <= length b)%nat /\ out = zip_with (fun x y => y ∪ x) a b
  | Raise e => e = IndexError /\ (length b < length a)%nat
  end.
Proof.
  revert b. induction a as [|x a IH]; intros [|y b]; simpl.
  - split; [lia|reflexivity].
  - split; [lia|reflexivity].
  - split; [reflexivity|lia].
  - specialize (IH b). destruct (mongodb_rows.merge_info a b) as [out|e]; simpl.
    + destruct IH as [Hlen ->]. split; [lia|reflexivity].
    + destruct IH as [-> Hlen]. split; [reflexivity|lia].
Qed.

(** [merge_info] raises [IndexError] exactly when the second list is
    shorter than the first. Otherwise it returns one row per row of the
    first list (rows of the second list beyond that are ignored), and in
    row [i] every key has the value of the second list's row when that row
    has the key, else the value of the first list's row. *)
Theorem merge_info_merges (a b : list dict) :
  (mongodb_rows.merge_info a b = Raise IndexError <-> (length b < length a)%nat) /\
  ((length a <= length b)%nat ->
   exists out,
     mongodb_rows.merge_info a b = Ok out /\ length out = length a /\
     forall i x y, a !! i = Some x -> b !! i = Some y ->
       exists row, out !! i = Some row /\
         forall k, row !! k = match y !! k with Some v => Some v | None => x !! k end).
Proof.
  pose proof (merge_info_spec a b) as Hs.
  destruct (mongodb_rows.merge_info a b) as [out|e].
  - destruct Hs as [Hlen ->]. split.
    + split; [discriminate|lia].
    + intros _. eexists. split; [reflexivity|]. split.
      * rewrite length_zip_with. lia.
      * intros i x y Hx Hy. exists (y ∪ x). split.
        -- rewrite lookup_zip_with, Hx. simpl. now rewrite Hy.
        -- intros k. rewrite lookup_union. destruct (y !! k), (x !! k); reflexivity.
  - destruct Hs as [-> Hlen]. split.
    + split; [intros _; exact Hlen|reflexivity].
    + lia.
Qed.

Lemma merge_info_merges_witness :
  let x : dict := {[ "name" := PyStr "stars1"; "place" := PyStr "Roof" ]} in
  let y : dict := {[ "name" := PyStr "stars1"; "nominatim_place" := PyStr "Observatory" ]} in
  exists out, mongodb_rows.merge_info [x] [y; x] = Ok out /\ length out = 1%nat.
Proof.
  intros x y.
  destruct (proj2 (merge_info_merges [x] [y; x])) as (out & Hout & Hlen & _);
    [simpl; lia|].
  exists out. split; assumption.
Defined.

Section prefix_keys_facts.
Variables (prefix : string) (row : dict).

Lemma append_inj (a b : string) :
  String.append prefix a = String.append prefix b -> a = b.
Proof using Type.
  induction prefix as [|c p IH]; simpl; [tauto|].
  intros Heq. inversion Heq. now apply IH.
Qed.

Lemma prefix_keys_spec (keys : list string) :
  forall acc,
    match mongodb_rows.prefix_keys prefix keys row acc with
    | Ok new_row =>
        (forall key, In key keys -> is_Some (row !! key)) /\
        (forall key, In key keys -> new_row !! String.append prefix key = row !! key) /\
        (forall k, (forall key, In key keys -> k <> String.append prefix key) ->
                   new_row !! k = acc !! k)
    | Raise e => e = KeyError /\ exists key, In key keys /\ row !! key = None
    end.
Proof using Type.
  induction keys as [|key rest IH]; intros acc.
  - simpl. split; [intros k []|]. split; [intros k []|reflexivity].
  - cbn [mongodb_rows.prefix_keys].
    destruct (row !! key) as [v|] eqn:Ev;
      [replace (getitem row key) with (@Ok pyval v) by (unfold getitem; now rewrite Ev)
      |replace (getitem row key) with (@Raise pyval KeyError)
         by (unfold getitem; now rewrite Ev)];
      cbn [mbind result_bind].
    + specialize (IH (<[String.append prefix key := v]> acc)).
      destruct (mongodb_rows.prefix_keys prefix rest row
                  (<[String.append prefix key := v]> acc)) as [new_row|e].
      * destruct IH as (Hall & Hpre & Hother). split; [|split].
        -- intros k [<-|Hk]; [now rewrite Ev|now apply Hall].
        -- intros k [<-|Hk]; [|now apply Hpre].
           destruct (decide (key ∈ rest)) as [Hin|Hnin].
           ++ apply Hpre. now apply list_elem_of_In.
           ++ rewrite Hother.
              ** now rewrite lookup_insert_eq.
              ** intros key' Hkey' Heq. apply append_inj in Heq. subst key'.
                 apply Hnin. now apply list_elem_of_In.
        -- intros k Hk. rewrite Hother.
           ++ apply lookup_insert_ne. intros Heq. apply (Hk key); [now left|now symmetry].
           ++ intros key' Hkey'. apply Hk. now right.
      * destruct IH as [-> (k & Hk & Hnone)]. split; [reflexivity|].
        exists k. split; [now right|assumption].
    + split; [reflexivity|]. exists key. split; [now left|assumption].
Qed.

Lemma copy_keys_spec (l : list string) (acc : dict) :
  (forall k, In k l -> is_Some (row !! k)) ->
  exists new_row,
    foldr (fun key acc => new_row ← acc; v ← getitem row key; Ok (<[key := v]> new_row))
          (Ok acc) l = Ok new_row /\
    forall k, new_row !! k = if decide (k ∈ l) then row !! k else acc !! k.
Proof using Type.
  induction l as [|key l IH]; intros Hl.
  - exists acc. split; [reflexivity|]. intros k.
    destruct (decide (k ∈ [])) as [Hin|]; [now apply not_elem_of_nil in Hin|reflexivity].
  - destruct IH as (new_row & Hnew & Hlook); [intros k Hk; apply Hl; now right|].
    destruct (Hl key (or_introl eq_refl)) as [v Hv].
    exists (<[key := v]> new_row). split.
    + cbn [foldr]. rewrite Hnew. cbn [mbind result_bind]. unfold getitem. now rewrite Hv.
    + intros k. rewrite lookup_insert. destruct (decide (key = k)) as [->|Hne].
      * rewrite decide_True by left. now rewrite Hv.
      * rewrite Hlook. destruct (decide (k ∈ l)) as [Hin|Hnin].
        -- now rewrite decide_True by (now right).
        -- rewrite decide_False; [reflexivity|].
           intros Hin. apply elem_of_cons in Hin. destruct Hin; congruence.
Qed.

Lemma copy_other_keys_spec (keys : list string) (acc : dict) :
  exists new_row,
    mongodb_rows.copy_other_keys keys row acc = Ok new_row /\
    forall k, new_row !! k
              = if decide (is_Some (row !! k) /\ k ∉ keys) then row !! k else acc !! k.
Proof using Type.
  unfold mongodb_rows.copy_other_keys.
  set (l := elements (dom row ∖ (list_to_set keys : gset string))).
  assert (Hl : forall k, k ∈ l <-> is_Some (row !! k) /\ k ∉ keys).
  { intros k. unfold l. rewrite elem_of_elements, elem_of_difference, elem_of_dom,
      elem_of_list_to_set. reflexivity. }
  destruct (copy_keys_spec l acc) as (new_row & Hnew & Hlook).
  { intros k Hk. apply list_elem_of_In, Hl in Hk. tauto. }
  exists new_row. split; [exact Hnew|]. intros k. rewrite Hlook.
  destruct (decide (k ∈ l)) as [Hin|Hnin].
  - rewrite decide_True; [reflexivity|now apply Hl].
  - rewrite decide_False; [reflexivity|]. intros Habs. now apply Hnin, Hl.
Qed.

End prefix_keys_facts.

Lemma remap_keys_spec (prefix : string) (keys : list string) (row : dict) :
  (forall key key', In key keys -> key <> String.append prefix key') ->
  match (new_row ← mongodb_rows.prefix_keys prefix keys row ∅;
         mongodb_rows.copy_other_keys keys row new_row) with
  | Ok new_row =>
      (forall key, In key keys -> is_Some (row !! key)) /\
      (forall key, In key keys -> new_row !! key = None) /\
      (forall key, In key keys ->
         new_row !! String.append prefix key
         = match row !! String.append prefix key with
           | Some v => Some v
           | None => row !! key
           end) /\
      (forall k, ~ In k keys -> (forall key, In key keys -> k <> String.append prefix key) ->
                 new_row !! k = row !! k)
  | Raise e => e = KeyError /\ exists key, In key keys /\ row !! key = None
  end.
Proof.
  intros Hfresh.
  pose proof (prefix_keys_spec prefix row keys ∅) as Hp.
  destruct (mongodb_rows.prefix_keys prefix keys row ∅) as [acc|e];
    cbn [mbind result_bind]; [|exact Hp].
  destruct Hp as (Hall & Hpre & Hother).
  destruct (copy_other_keys_spec row keys acc) as (new_row & -> & Hlook).
  split; [exact Hall|]. split; [|split].
  - intros key Hkey. rewrite Hlook, decide_False.
    + rewrite Hother; [apply lookup_empty|].
      intros key' _. now apply Hfresh.
    + intros [_ Hnin]. apply Hnin. now apply list_elem_of_In.
  - intros key Hkey. rewrite Hlook.
    destruct (decide (is_Some (row !! String.append prefix key)
                      /\ String.append prefix key ∉ keys)) as [[[v Hv] _]|Hno].
    + now rewrite Hv.
    + rewrite (Hpre key Hkey).
      destruct (row !! String.append prefix key) as [v|] eqn:Ev; [|reflexivity].
      exfalso. apply Hno. split; [now exists v|].
      intros Hin. apply list_elem_of_In in Hin. now apply (Hfresh _ key Hin).
  - intros k Hk Hform. rewrite Hlook.
    destruct (decide (is_Some (row !! k) /\ k ∉ keys)) as [_|Hno]; [reflexivity|].
    rewrite (Hother k Hform), lookup_empty.
    destruct (row !! k) as [v|] eqn:Ev; [|reflexivity].
    exfalso. apply Hno. split; [now exists v|].
    intros Hin. now apply list_elem_of_In in Hin.
Qed.

Lemma nominatim_keys_fresh (key key' : string) :
  In key mongodb_rows.nominatim_keys -> key <> String.append "nominatim_" key'.
Proof.
  unfold mongodb_rows.nominatim_keys. cbn [In].
  intros H Heq. repeat (destruct H as [<-|H]; [discriminate Heq|]). exact H.
Qed.

(** [remap_nominatim] raises [KeyError] exactly when the row lacks one of
    the eleven listed keys. Otherwise the new row has none of the listed
    keys under its plain name; under ["nominatim_" + key] it has the row's
    value of [key], unless the row has a key of that prefixed name itself,
    whose value then wins; every other key is as in the row. *)
Theorem remap_nominatim_renames (row : dict) :
  (mongodb_rows.remap_nominatim row = Raise KeyError <->
   exists key, In key mongodb_rows.nominatim_keys /\ row !! key = None) /\
  ((forall key, In key mongodb_rows.nominatim_keys -> is_Some (row !! key)) ->
   exists new_row,
     mongodb_rows.remap_nominatim row = Ok new_row /\
     (forall key, In key mongodb_rows.nominatim_keys -> new_row !! key = None) /\
     (forall key, In key mongodb_rows.nominatim_keys ->
        new_row !! String.append "nominatim_" key
        = match row !! String.append "nominatim_" key with
          | Some v => Some v
          | None => row !! key
          end) /\
     (forall k, ~ In k mongodb_rows.nominatim_keys ->
        (forall key, In key mongodb_rows.nominatim_keys ->
                     k <> String.append "nominatim_" key) ->
        new_row !! k = row !! k)).
Proof.
  pose proof (remap_keys_spec "nominatim_" mongodb_rows.nominatim_keys row
                (fun key key' => nominatim_keys_fresh key key')) as Hs.
  fold (mongodb_rows.remap_nominatim row) in Hs.
  destruct (mongodb_rows.remap_nominatim row) as [new_row|e].
  - destruct Hs as (Hall & Hs). split.
    + split; [discriminate|]. intros (key & Hkey & Hnone).
      destruct (Hall key Hkey) as [v Hv]. congruence.
    + intros _. exists new_row. split; [reflexivity|exact Hs].
  - destruct Hs as [-> (key & Hkey & Hnone)]. split.
    + split; [intros _; now exists key|reflexivity].
    + intros Hall. destruct (Hall key Hkey) as [v Hv]. congruence.
Qed.

Lemma remap_nominatim_renames_witness :
  let row : dict :=
    list_to_map
      (("name", PyStr "stars1") ::
       map (fun key => (key, PyStr key)) mongodb_rows.nominatim_keys) in
  exists new_row,
    mongodb_rows.remap_nominatim row = Ok new_row /\
    new_row !! "place"%string = None /\
    new_row !! "nominatim_place"%string = Some (PyStr "place") /\
    new_row !! "name"%string = Some (PyStr "stars1").
Proof.
  intros row.
  destruct (proj2 (remap_nominatim_renames row)) as (new_row & Hnew & Hgone & Hpre & Hother).
  { unfold mongodb_rows.nominatim_keys. cbn [In]. intros key H.
    repeat (destruct H as [<-|H]; [eexists; vm_compute; reflexivity|]). destruct H. }
  exists new_row. split; [exact Hnew|]. split; [|split].
  - apply Hgone. now left.
  - change "nominatim_place"%string with (String.append "nominatim_" "place").
    rewrite (Hpre "place"%string) by now left. vm_compute. reflexivity.
  - rewrite (Hother "name"%string).
    + vm_compute. reflexivity.
    + unfold mongodb_rows.nominatim_keys. cbn [In]. intros H.
      repeat (destruct H as [H|H]; [discriminate H|]). exact H.
    + intros key _ Heq. discriminate Heq.
Defined.

Lemma tzfinder_keys_fresh (key key' : string) :
  In key ["timezone"%string] -> key <> String.append "tzfinder_" key'.
Proof.
  cbn [In]. intros [<-|[]] Heq. cbn in Heq. inversion Heq.
Qed.

(** [remap_tzfinder] raises [KeyError] exactly when the row has no
    ['timezone']. Otherwise the new row has no ['timezone']; its
    ['tzfinder_timezone'] is the row's ['tzfinder_timezone'] when the row
    has one, else the row's ['timezone']; every other key is as in the
    row. *)
Theorem remap_tzfinder_renames (row : dict) :
  (mongodb_rows.remap_tzfinder row = Raise KeyError <-> row !! "timezone"%string = None) /\
  (is_Some (row !! "timezone"%string) ->
   exists new_row,
     mongodb_rows.remap_tzfinder row = Ok new_row /\
     new_row !! "timezone"%string = None /\
     new_row !! "tzfinder_timezone"%string
     = match row !! "tzfinder_timezone"%string with
       | Some v => Some v
       | None => row !! "timezone"%string
       end /\
     (forall k, k <> "timezone"%string -> k <> "tzfinder_timezone"%string ->
                new_row !! k = row !! k)).
Proof.
  pose proof (remap_keys_spec "tzfinder_" ["timezone"%string] row
                (fun key key' => tzfinder_keys_fresh key key')) as Hs.
  fold (mongodb_rows.remap_tzfinder row) in Hs.
  destruct (mongodb_rows.remap_tzfinder row) as [new_row|e].
  - destruct Hs as (Hall & Hgone & Hpre & Hother). split.
    + split; [discriminate|]. intros Hnone.
      destruct (Hall "timezone"%string (or_introl eq_refl)) as [v Hv]. congruence.
    + intros _. exists new_row. split; [reflexivity|]. split; [|split].
      * apply Hgone. now left.
      * apply (Hpre "timezone"%string). now left.
      * intros k Hk1 Hk2. apply Hother.
        -- intros [<-|[]]. now apply Hk1.
        -- intros key [<-|[]]. exact Hk2.
  - destruct Hs as [-> (key & [<-|[]] & Hnone)]. split.
    + split; [intros _; exact Hnone|reflexivity].
    + intros [v Hv]. congruence.
Qed.

Lemma remap_tzfinder_renames_witness :
  let row : dict := {[ "name" := PyStr "stars1"; "timezone" := PyStr "Europe/Madrid" ]} in
  exists new_row,
    mongodb_rows.remap_tzfinder row = Ok new_row /\
    new_row !! "timezone"%string = None /\
    new_row !! "tzfinder_timezone"%string = Some (PyStr "Europe/Madrid").
Proof.
  intros row.
  destruct (proj2 (remap_tzfinder_renames row)) as (new_row & Hnew & Hgone & Hpre & _).
  { eexists. vm_compute. reflexivity. }
  exists new_row. split; [exact Hnew|]. split; [exact Hgone|].
  rewrite Hpre. vm_compute. reflexivity.
Defined.

(** ** tessdb.py: the related histories *)

Lemma related_loop_chain (sql : string -> list tessdb.history_row)
    (key : tessdb.history_row -> string) (fuel : nat) :
  forall t h q history complicated queries,
    related.loop sql key fuel t h q = Some (history, complicated, queries) ->
    exists rows t',
      history = h ++ rows ++ (if complicated then sql t' else []) /\
      (fix linked (t : string) (rows : list tessdb.history_row) : Prop :=
         match rows with
         | [] => t = t'
         | row :: rest => sql t = [row] /\ linked (key row) rest
         end) t rows /\
      (if complicated then (1 < length (sql t'))%nat else sql t' = []).
Proof.
  induction fuel as [|fuel IH]; intros t h q history complicated queries Hloop;
    [discriminate|].
  cbn [related.loop] in Hloop.
  destruct (sql t) as [|row [|row' rest]] eqn:Esql.
  - inversion Hloop; subst. exists [], t. rewrite !app_nil_r. now split.
  - apply IH in Hloop. destruct Hloop as (rows & t' & -> & Hlinked & Hend).
    exists (row :: rows), t'. split; [now rewrite <- !app_assoc|].
    split; [split; assumption|assumption].
  - inversion Hloop; subst. exists [], t. rewrite Esql. cbn [app length].
    split; [reflexivity|]. split; [reflexivity|lia].
Qed.

Section related_chains.
Import tessdb history.
Variables (db : database) (name_ : option string).

Lemma next_sql_length (t : string) :
  length (name_mac_next_related_history_sql db name_ t)
  = length (filter (fun r => valid_since r = t) db).
Proof using Type.
  unfold name_mac_next_related_history_sql. now rewrite length_fmap, order_by_length.
Qed.

Lemma previous_sql_length (t : string) :
  length (name_mac_previous_related_history_sql db name_ t)
  = length (filter (fun r => valid_until r = t) db).
Proof using Type.
  unfold name_mac_previous_related_history_sql. now rewrite length_fmap, order_by_length.
Qed.

Lemma next_sql_single (t : string) (row : history_row) :
  name_mac_next_related_history_sql db name_ t = [row] ->
  exists r, filter (fun r => valid_since r = t) db = [r] /\
            row = select_history (is_Some_b name_) r.
Proof using Type.
  unfold name_mac_next_related_history_sql. intros Hsql.
  pose proof (select_order_by_cases db (fun r => valid_since r = t) (is_Some_b name_)) as H.
  rewrite Hsql in H. destruct H as (r & Hr & ->). now exists r.
Qed.

Lemma previous_sql_single (t : string) (row : history_row) :
  name_mac_previous_related_history_sql db name_ t = [row] ->
  exists r, filter (fun r => valid_until r = t) db = [r] /\
            row = select_history (is_Some_b name_) r.
Proof using Type.
  unfold name_mac_previous_related_history_sql. intros Hsql.
  pose proof (select_order_by_cases db (fun r => valid_until r = t) (is_Some_b name_)) as H.
  rewrite Hsql in H. destruct H as (r & Hr & ->). now exists r.
Qed.

Lemma next_loop_chain (fuel : nat) (t : string) (history : list history_row)
    (complicated : bool) (queries : list string) :
  next_loop fuel db name_ t [] [] = Some (history, complicated, queries) ->
  exists rows t',
    next_chain db (is_Some_b name_) t rows t' /\
    history = rows ++ (if complicated
                       then name_mac_next_related_history_sql db name_ t' else []) /\
    (if complicated then (1 < length (filter (fun r => valid_since r = t') db))%nat
     else filter (fun r => valid_since r = t') db = []).
Proof using Type.
  rewrite next_loop_related. intros Hloop.
  apply related_loop_chain in Hloop. destruct Hloop as (rows & t' & -> & Hlinked & Hend).
  exists rows, t'. split; [|split; [reflexivity|]].
  - clear Hend. revert t Hlinked. induction rows as [|row rest IH]; intros t Hl; [exact Hl|].
    destruct Hl as [Hsql Hl]. split; [now apply next_sql_single|now apply IH].
  - destruct complicated.
    + now rewrite <- next_sql_length.
    + apply length_zero_iff_nil. rewrite <- next_sql_length, Hend. reflexivity.
Qed.

Lemma previous_loop_chain (fuel : nat) (t : string) (history : list history_row)
    (complicated : bool) (queries : list string) :
  previous_loop fuel db name_ t [] [] = Some (history, complicated, queries) ->
  exists rows t',
    previous_chain db (is_Some_b name_) t rows t' /\
    history = rows ++ (if complicated
                       then name_mac_previous_related_history_sql db name_ t' else []) /\
    (if complicated then (1 < length (filter (fun r => valid_until r = t') db))%nat
     else filter (fun r => valid_until r = t') db = []).
Proof using Type.
  rewrite previous_loop_related. intros Hloop.
  apply related_loop_chain in Hloop. destruct Hloop as (rows & t' & -> & Hlinked & Hend).
  exists rows, t'. split; [|split; [reflexivity|]].
  - clear Hend. revert t Hlinked. induction rows as [|row rest IH]; intros t Hl; [exact Hl|].
    destruct Hl as [Hsql Hl]. split; [now apply previous_sql_single|now apply IH].
  - destruct complicated.
    + now rewrite <- previous_sql_length.
    + apply length_zero_iff_nil. rewrite <- previous_sql_length, Hend. reflexivity.
Qed.

End related_chains.

(** On a table where the chain of time stamps that starts at [end_tstamp]
    never comes back to one, [name_mac_next_related_history] returns (with
    fuel for one query per record and one more) a history made of a chain
    of records, each the only record of the table that starts where the
    one before it ends, the first one at [end_tstamp]. [complicated] is
    [True] exactly when two or more records start where the chain ends,
    and the history then ends with all of them; it is [False] exactly when
    no record starts there. *)
Theorem next_related_history_chain (db : tessdb.database) (end_tstamp : string)
    (name_ mac : option string) :
  history.never_revisits (history.next_step db) end_tstamp ->
  exists history complicated queries rows t',
    (forall fuel, (length db + 1 <= fuel)%nat ->
       tessdb.name_mac_next_related_history fuel db end_tstamp name_ mac
       = Some (history, complicated, queries)) /\
    history.next_chain db (tessdb.is_Some_b name_) end_tstamp rows t' /\
    history = rows ++ (if complicated
                       then tessdb.name_mac_next_related_history_sql db name_ t' else []) /\
    (complicated = true <->
     (1 < length (filter (fun r => tessdb.valid_since r = t') db))%nat) /\
    (complicated = false <-> filter (fun r => tessdb.valid_since r = t') db = []).
Proof.
  intros Hnr.
  destruct (next_history_terminates db end_tstamp name_ mac Hnr)
    as ([[history complicated] queries] & Hres & _).
  pose proof (Hres (length db + 1)%nat (le_n _)) as Hrun.
  unfold tessdb.name_mac_next_related_history in Hrun.
  apply next_loop_chain in Hrun. destruct Hrun as (rows & t' & Hchain & Hhist & Hend).
  exists history, complicated, queries, rows, t'.
  split; [exact Hres|]. split; [exact Hchain|]. split; [exact Hhist|].
  destruct complicated.
  - split; [tauto|]. split; [discriminate|]. intros Hnil. rewrite Hnil in Hend.
    simpl in Hend. lia.
  - split; [|tauto]. split; [discriminate|]. rewrite Hend. simpl. lia.
Qed.

Lemma next_related_history_chain_witness :
  exists history complicated queries rows t',
    (forall fuel, (3 + 1 <= fuel)%nat ->
       tessdb.name_mac_next_related_history fuel samples.db_history
         "2020-01-01 00:00:00" (Some "stars1") None
       = Some (history, complicated, queries)) /\
    history.next_chain samples.db_history true "2020-01-01 00:00:00" rows t' /\
    history = rows ++ (if complicated
                       then tessdb.name_mac_next_related_history_sql
                              samples.db_history (Some "stars1") t'
                       else []) /\
    (complicated = true <->
     (1 < length (filter (fun r => tessdb.valid_since r = t') samples.db_history))%nat) /\
    (complicated = false <->
     filter (fun r => tessdb.valid_since r = t') samples.db_history = []).
Proof.
  apply (next_related_history_chain samples.db_history "2020-01-01 00:00:00"
           (Some "stars1") None).
  apply (strict_intervals_acyclic _ samples_db_history_strict).
Defined.

(** The same for [name_mac_previous_related_history], backwards in time and
    with the collected rows reversed at the end: the history is the reverse
    of a chain of records, each the only record of the table that ends
    where the one before it starts (the first one at [start_tstamp]),
    followed, when [complicated], by all the records that end where the
    chain stops; [complicated] is [True] exactly when there are two or more
    of these, [False] exactly when there is none. *)
Theorem previous_related_history_chain (db : tessdb.database) (start_tstamp : string)
    (name_ mac : option string) :
  history.never_revisits (history.previous_step db) start_tstamp ->
  exists history complicated queries rows t',
    (forall fuel, (length db + 1 <= fuel)%nat ->
       tessdb.name_mac_previous_related_history fuel db start_tstamp name_ mac
       = Some (history, complicated, queries)) /\
    history.previous_chain db (tessdb.is_Some_b name_) start_tstamp rows t' /\
    history = rev (rows ++ (if complicated
                            then tessdb.name_mac_previous_related_history_sql db name_ t'
                            else [])) /\
    (complicated = true <->
     (1 < length (filter (fun r => tessdb.valid_until r = t') db))%nat) /\
    (complicated = false <-> filter (fun r => tessdb.valid_until r = t') db = []).
Proof.
  intros Hnr.
  destruct (previous_history_terminates db start_tstamp name_ mac Hnr)
    as ([[history complicated] queries] & Hres & _).
  pose proof (Hres (length db + 1)%nat (le_n _)) as Hrun.
  unfold tessdb.name_mac_previous_related_history in Hrun.
  destruct (tessdb.previous_loop (length db + 1) db name_ start_tstamp [] [])
    as [[[h c] q]|] eqn:Eloop; [|discriminate].
  inversion Hrun; subst. clear Hrun.
  apply previous_loop_chain in Eloop. destruct Eloop as (rows & t' & Hchain & -> & Hend).
  exists (rev (rows ++ (if complicated
                        then tessdb.name_mac_previous_related_history_sql db name_ t'
                        else []))), complicated, queries, rows, t'.
  split; [exact Hres|]. split; [exact Hchain|]. split; [reflexivity|].
  destruct complicated.
  - split; [tauto|]. split; [discriminate|]. intros Hnil. rewrite Hnil in Hend.
    simpl in Hend. lia.
  - split; [|tauto]. split; [discriminate|]. rewrite Hend. simpl. lia.
Qed.

Lemma previous_related_history_chain_witness :
  exists history complicated queries rows t',
    (forall fuel, (3 + 1 <= fuel)%nat ->
       tessdb.name_mac_previous_related_history fuel samples.db_history
         "2999-12-31 23:59:59" (Some "stars3") None
       = Some (history, complicated, queries)) /\
    history.previous_chain samples.db_history true "2999-12-31 23:59:59" rows t' /\
    history = rev (rows ++ (if complicated
                            then tessdb.name_mac_previous_related_history_sql
                                   samples.db_history (Some "stars3") t'
                            else [])) /\
    (complicated = true <->
     (1 < length (filter (fun r => tessdb.valid_until r = t') samples.db_history))%nat) /\
    (complicated = false <->
     filter (fun r => tessdb.valid_until r = t') samples.db_history = []).
Proof.
  apply (previous_related_history_chain samples.db_history "2999-12-31 23:59:59"
           (Some "stars3") None).
  apply (strict_intervals_acyclic _ samples_db_history_strict).
Defined.

(** ** tessdb.py: [photometers_easy], [photometers_not_easy] *)

Lemma name_since_leb_total (a b : tessdb.name_to_mac) :
  tessdb.name_since_leb a b = true \/ tessdb.name_since_leb b a = true.
Proof.
  unfold tessdb.name_since_leb.
  rewrite (String.compare_antisym (tessdb.name b) (tessdb.name a)).
  destruct (String.compare (tessdb.name a) (tessdb.name b)); simpl;
    [apply String.leb_total|now left|now right].
Qed.

Lemma name_since_leb_trans (a b c : tessdb.name_to_mac) :
  tessdb.name_since_leb a b = true -> tessdb.name_since_leb b c = true ->
  tessdb.name_since_leb a c = true.
Proof.
  unfold tessdb.name_since_leb.
  destruct (String.compare (tessdb.name a) (tessdb.name b)) eqn:Eab; try discriminate;
    destruct (String.compare (tessdb.name b) (tessdb.name c)) eqn:Ebc; try discriminate;
    intros Hab Hbc.
  - apply String.compare_eq_iff in Eab, Ebc. rewrite Eab, Ebc, string_compare_refl.
    now apply (string_leb_trans _ (tessdb.valid_since b)).
  - apply String.compare_eq_iff in Eab. now rewrite Eab, Ebc.
  - apply String.compare_eq_iff in Ebc. now rewrite <- Ebc, Eab.
  - now rewrite (str_lt_trans _ _ _ Eab Ebc).
Qed.

Lemma photometer_dict_inj (r r' : tessdb.name_to_mac) :
  tessdb.photometer_dict r = tessdb.photometer_dict r' -> r = r'.
Proof.
  destruct r, r'. unfold tessdb.photometer_dict. simpl. intros Heq.
  inversion Heq. reflexivity.
Qed.

Section easy_facts.
Import tessdb.
Variable db : database.

Lemma count_ge_1 (P : name_to_mac -> Prop) `{forall r, Decision (P r)} (r : name_to_mac) :
  In r db -> P r -> (1 <= length (filter P db))%nat.
Proof using Type.
  intros Hin HP.
  assert (Hr : r ∈ filter P db)
    by (apply list_elem_of_filter; split; [assumption|now apply list_elem_of_In]).
  destruct (filter P db); [now apply not_elem_of_nil in Hr|simpl; lia].
Qed.

Lemma count_1_only (P : name_to_mac -> Prop) `{forall r, Decision (P r)}
    (r r' : name_to_mac) :
  length (filter P db) = 1%nat -> In r db -> P r -> In r' db -> P r' -> r' = r.
Proof using Type.
  intros Hlen Hin HP Hin' HP'.
  assert (Hr : r ∈ filter P db)
    by (apply list_elem_of_filter; split; [assumption|now apply list_elem_of_In]).
  assert (Hr' : r' ∈ filter P db)
    by (apply list_elem_of_filter; split; [assumption|now apply list_elem_of_In]).
  destruct (filter P db) as [|x [|y l]]; simpl in Hlen; try lia.
  apply list_elem_of_singleton in Hr, Hr'. congruence.
Qed.

Lemma photometers_easy_records (d : photometer) :
  In d (photometers_easy db) <->
  exists r, d = photometer_dict r /\ In r db /\ easy_mac db (mac_address r) = true.
Proof using Type.
  unfold photometers_easy.
  rewrite <- list_elem_of_In, list_elem_of_fmap. split.
  - intros (r & -> & Hr). exists r. split; [reflexivity|].
    rewrite order_by_perm in Hr. apply list_elem_of_filter in Hr.
    destruct Hr as [Hne Hr]. split; [now apply list_elem_of_In|assumption].
  - intros (r & -> & Hr & Hne). exists r. split; [reflexivity|].
    rewrite order_by_perm. apply list_elem_of_filter.
    split; [assumption|now apply list_elem_of_In].
Qed.

Lemma easy_mac_not_easy_mac (m : string) :
  easy_mac db m = true -> not_easy_mac db m = false.
Proof using Type.
  unfold easy_mac, not_easy_mac. intros H.
  apply andb_prop in H. destruct H as [H H3]. apply andb_prop in H. destruct H as [_ H2].
  apply negb_true_iff in H2, H3. now rewrite H2, H3.
Qed.

Lemma easy_mac_spec (r : name_to_mac) :
  In r db ->
  easy_mac db (mac_address r) = true <->
  like_prefix "stars" (name r) = true /\
  length (filter (fun r' => name r' = name r) db) = 1%nat /\
  length (filter (fun r' => mac_address r' = mac_address r) db) = 1%nat.
Proof using Type.
  intros Hin.
  pose proof (count_ge_1 (fun r' => name r' = name r) r Hin eq_refl) as Hn1.
  pose proof (count_ge_1 (fun r' => mac_address r' = mac_address r) r Hin eq_refl) as Hm1.
  unfold easy_mac. rewrite !andb_true_iff, !negb_true_iff, !existsb_false. split.
  - intros [[H1 H2] H3].
    assert (Hm : length (filter (fun r' => mac_address r' = mac_address r) db) = 1%nat).
    { specialize (H3 r Hin). rewrite bool_decide_eq_true_2 in H3 by reflexivity.
      cbn [andb] in H3. unfold mac_repeated in H3. apply Nat.ltb_ge in H3. lia. }
    split; [|split; [|exact Hm]].
    + apply existsb_exists in H1. destruct H1 as (r' & Hin' & Hr').
      apply andb_prop in Hr'. destruct Hr' as [Hmac Hlike].
      apply bool_decide_eq_true in Hmac.
      now rewrite (count_1_only (fun r' => mac_address r' = mac_address r) r r'
                     Hm Hin eq_refl Hin' Hmac) in Hlike.
    + specialize (H2 r Hin). rewrite bool_decide_eq_true_2 in H2 by reflexivity.
      cbn [andb] in H2. unfold name_repeated in H2. apply Nat.ltb_ge in H2. lia.
  - intros (Hlike & Hn & Hm). split; [split|].
    + apply existsb_exists. exists r. split; [assumption|].
      now rewrite bool_decide_eq_true_2, Hlike by reflexivity.
    + intros r' Hin'. destruct (bool_decide (mac_address r' = mac_address r)) eqn:Emac;
        [|reflexivity].
      apply bool_decide_eq_true in Emac.
      rewrite (count_1_only (fun r' => mac_address r' = mac_address r) r r'
                 Hm Hin eq_refl Hin' Emac).
      cbn [andb]. unfold name_repeated. apply Nat.ltb_ge. lia.
    + intros r' Hin'. destruct (bool_decide (mac_address r' = mac_address r)) eqn:Emac;
        [|reflexivity].
      apply bool_decide_eq_true in Emac. rewrite Emac.
      cbn [andb]. unfold mac_repeated. apply Nat.ltb_ge. lia.
Qed.

Lemma not_easy_mac_spec (m : string) :
  not_easy_mac db m = true <->
  exists r', In r' db /\ mac_address r' = m /\
    ((1 < length (filter (fun r => name r = name r') db))%nat \/
     (1 < length (filter (fun r => mac_address r = m) db))%nat).
Proof using Type.
  unfold not_easy_mac. rewrite orb_true_iff, !existsb_exists. split.
  - intros [(r' & Hin & Hr')|(r' & Hin & Hr')];
      apply andb_prop in Hr'; destruct Hr' as [Hmac Hrep];
      apply bool_decide_eq_true in Hmac; exists r';
      (split; [assumption|]); (split; [assumption|]).
    + left. now apply Nat.ltb_lt.
    + right. rewrite <- Hmac. now apply Nat.ltb_lt.
  - intros (r' & Hin & Hmac & [Hrep|Hrep]); [left|right]; exists r';
      (split; [assumption|]); rewrite bool_decide_eq_true_2 by assumption; cbn [andb].
    + now apply Nat.ltb_lt.
    + unfold mac_repeated. rewrite Hmac. now apply Nat.ltb_lt.
Qed.

End easy_facts.

(** [photometers_easy] lists exactly the records of the table whose name
    is [LIKE 'stars%'], whose name occurs in one record only and whose MAC
    occurs in one record only; it lists them ordered by name, then by
    [valid_since]; and none of them is listed by [photometers_not_easy]. *)
Theorem photometers_easy_spec (db : tessdb.database) :
  (forall d, In d (tessdb.photometers_easy db) <->
     exists r, d = tessdb.photometer_dict r /\ In r db /\
       tessdb.like_prefix "stars" (tessdb.name r) = true /\
       length (filter (fun r' => tessdb.name r' = tessdb.name r) db) = 1%nat /\
       length (filter (fun r' => tessdb.mac_address r' = tessdb.mac_address r) db) = 1%nat) /\
  (exists records,
     tessdb.photometers_easy db = tessdb.photometer_dict <$> records /\
     StronglySorted (fun a b => tessdb.name_since_leb a b = true) records) /\
  (forall d, In d (tessdb.photometers_easy db) -> ~ In d (tessdb.photometers_not_easy db)).
Proof.
  split; [|split].
  - intros d. rewrite photometers_easy_records. split.
    + intros (r & -> & Hin & Heasy). exists r. split; [reflexivity|].
      split; [assumption|]. now apply easy_mac_spec.
    + intros (r & -> & Hin & Hspec). exists r. split; [reflexivity|].
      split; [assumption|]. now apply easy_mac_spec.
  - eexists. split; [reflexivity|].
    apply order_by_sorted; [exact name_since_leb_total|exact name_since_leb_trans].
  - intros d Heasy Hnot.
    apply photometers_easy_records in Heasy. destruct Heasy as (r & -> & _ & Heasy).
    apply photometers_not_easy_records in Hnot. destruct Hnot as (r' & Heq & _ & Hnot).
    apply photometer_dict_inj in Heq. subst r'.
    apply easy_mac_not_easy_mac in Heasy. congruence.
Qed.

(** [photometers_not_easy] lists exactly the records of the table whose
    MAC is the MAC of a record with a repeated name or occurs in several
    records, each as often as the table holds it, ordered by name, then by
    [valid_since]. *)
Theorem photometers_not_easy_spec (db : tessdb.database) :
  (forall d, In d (tessdb.photometers_not_easy db) <->
     exists r, d = tessdb.photometer_dict r /\ In r db /\
       exists r', In r' db /\ tessdb.mac_address r' = tessdb.mac_address r /\
         ((1 < length (filter (fun x => tessdb.name x = tessdb.name r') db))%nat \/
          (1 < length (filter (fun x => tessdb.mac_address x = tessdb.mac_address r) db))%nat)) /\
  (exists records,
     tessdb.photometers_not_easy db = tessdb.photometer_dict <$> records /\
     records ≡ₚ filter (fun r => tessdb.not_easy_mac db (tessdb.mac_address r) = true) db /\
     StronglySorted (fun a b => tessdb.name_since_leb a b = true) records).
Proof.
  split.
  - intros d. rewrite photometers_not_easy_records. split.
    + intros (r & -> & Hin & Hne). exists r. split; [reflexivity|].
      split; [assumption|]. now apply not_easy_mac_spec.
    + intros (r & -> & Hin & Hspec). exists r. split; [reflexivity|].
      split; [assumption|]. now apply not_easy_mac_spec.
  - eexists. split; [reflexivity|]. split; [apply order_by_perm|].
    apply order_by_sorted; [exact name_since_leb_total|exact name_since_leb_trans].
Qed.

(** ** tessdb.py: [photometers_repaired], [photometers_renamed] *)

Section pure_facts.
Import tessdb history.
Variable db : database.

Lemma adjacent_breaks_nil (rows : list history_row) :
  adjacent_breaks rows = [] <->
  forall i h h', rows !! i = Some h -> rows !! S i = Some h' -> item3 h = item2 h'.
Proof using Type.
  induction rows as [|h [|h' rest] IH].
  - split; [intros _ i h h' Hi; discriminate Hi|reflexivity].
  - split; [|reflexivity]. intros _ [|i] a b Ha Hb; discriminate Hb.
  - rewrite adjacent_breaks_cons. destruct (decide (item3 h <> item2 h')) as [Hne|Heq].
    + split; [discriminate|]. intros Hall. exfalso. apply Hne.
      now apply (Hall 0%nat).
    + cbn [app]. rewrite IH. split.
      * intros Hall [|i] a b Ha Hb.
        -- simpl in Ha, Hb. inversion Ha; inversion Hb; subst.
           destruct (decide (item3 a = item2 b)); [assumption|now exfalso].
        -- now apply (Hall i).
      * intros Hall i a b Ha Hb. now apply (Hall (S i)).
Qed.

Lemma current_history_breaks (name_ mac : option string) :
  (exists r, In r db /\ matches name_ mac r) ->
  let rows := name_mac_current_history_sql db name_ mac in
  exists truncated,
    name_mac_current_history db name_ mac
    = Ok ((breaks rows).1.1, (breaks rows).1.2, (breaks rows).2, truncated).
Proof using Type.
  intros (r0 & Hin & Hmatch) rows.
  assert (Hlen : (0 < length rows)%nat).
  { unfold rows. rewrite name_mac_current_history_sql_matches, length_fmap, order_by_length.
    assert (Hr0 : r0 ∈ filter (matches name_ mac) db)
      by (apply list_elem_of_filter; split; [assumption|now apply list_elem_of_In]).
    destruct (filter (matches name_ mac) db); [now apply not_elem_of_nil in Hr0|simpl; lia]. }
  assert (Hbody : exists truncated,
    (let '(history, break_end_tstamps, break_start_tstamps) := mark_breaks rows in
     h ← last_item history;
     Ok (history, break_end_tstamps, break_start_tstamps,
         bool_decide (item5 h = "Expired")))
    = Ok ((breaks rows).1.1, (breaks rows).1.2, (breaks rows).2, truncated)).
  { rewrite mark_breaks_breaks.
    pose proof (breaks_length rows) as Hbl.
    destruct (breaks rows) as [[history ends] starts]. simpl in Hbl. cbn [fst snd].
    destruct (last history) as [hl|] eqn:El.
    - exists (bool_decide (item5 hl = "Expired")). unfold last_item. now rewrite El.
    - apply last_None in El. subst history. simpl in Hbl. lia. }
  unfold name_mac_current_history. fold rows.
  destruct name_ as [n|], mac as [m|]; try exact Hbody.
  exfalso. simpl in Hmatch. discriminate Hmatch.
Qed.

Lemma previous_history_nil (fuel : nat) (t : string) (name_ mac : option string)
    (h : list history_row) (c : bool) (q : list string) :
  name_mac_previous_related_history fuel db t name_ mac = Some (h, c, q) ->
  h = [] <-> filter (fun r => valid_until r = t) db = [].
Proof using Type.
  unfold name_mac_previous_related_history.
  destruct (previous_loop fuel db name_ t [] []) as [[[h' c'] q']|] eqn:Eloop;
    [|discriminate].
  intros Heq. inversion Heq; subst. clear Heq.
  apply previous_loop_chain in Eloop. destruct Eloop as (rows & t' & Hchain & -> & Hend).
  split.
  - intros Hnil. apply (f_equal (@length _)) in Hnil.
    rewrite length_rev, length_app in Hnil. simpl in Hnil.
    destruct rows as [|row rest]; [|simpl in Hnil; lia].
    simpl in Hchain. subst t'. destruct c; [|exact Hend].
    rewrite previous_sql_length in Hnil. simpl in Hnil. lia.
  - intros Hnil. destruct rows as [|row rest].
    + simpl in Hchain. subst t'. rewrite Hnil in Hend. destruct c; [simpl in Hend; lia|].
      reflexivity.
    + destruct Hchain as [(r & Hr & _) _]. congruence.
Qed.

Lemma next_history_nil (fuel : nat) (t : string) (name_ mac : option string)
    (h : list history_row) (c : bool) (q : list string) :
  name_mac_next_related_history fuel db t name_ mac = Some (h, c, q) ->
  h = [] <-> filter (fun r => valid_since r = t) db = [].
Proof using Type.
  unfold name_mac_next_related_history. intros Eloop.
  apply next_loop_chain in Eloop. destruct Eloop as (rows & t' & Hchain & -> & Hend).
  split.
  - intros Hnil. apply (f_equal (@length _)) in Hnil.
    rewrite length_app in Hnil. simpl in Hnil.
    destruct rows as [|row rest]; [|simpl in Hnil; lia].
    simpl in Hchain. subst t'. destruct c; [|exact Hend].
    rewrite next_sql_length in Hnil. simpl in Hnil. lia.
  - intros Hnil. destruct rows as [|row rest].
    + simpl in Hchain. subst t'. rewrite Hnil in Hend. destruct c; [simpl in Hend; lia|].
      reflexivity.
    + destruct Hchain as [(r & Hr & _) _]. congruence.
Qed.

Lemma flagged_item2 (rows : list history_row) (i : nat) (h : history_row) :
  item2 (flagged rows i h) = item2 h.
Proof using Type. unfold flagged. now destruct (adjacent_break rows i). Qed.

Hypothesis db_acyclic : acyclic db.

Lemma pure_history_spec (name_ mac : option string) :
  (exists r, In r db /\ matches name_ mac r) ->
  exists b : bool,
    (forall fuel, (length db + 1 <= fuel)%nat ->
       pure_history fuel db name_ mac = Some (Ok b)) /\
    (b = true <-> pure db name_ mac).
Proof using db_acyclic.
  intros Hmatch.
  destruct (current_history_breaks name_ mac Hmatch) as [truncated Hcur].
  cbv zeta in Hcur.
  set (records := order_by since_leb (filter (matches name_ mac) db)).
  set (rows := select_history (is_Some_b name_) <$> records).
  assert (Hrows : name_mac_current_history_sql db name_ mac = rows)
    by apply name_mac_current_history_sql_matches.
  rewrite Hrows in Hcur.
  assert (Hne : records <> []).
  { destruct Hmatch as (r0 & Hin & Hm).
    assert (Hr0 : r0 ∈ records).
    { unfold records. rewrite order_by_perm. apply list_elem_of_filter.
      split; [assumption|now apply list_elem_of_In]. }
    intros Hnil. rewrite Hnil in Hr0. now apply not_elem_of_nil in Hr0. }
  destruct records as [|r0 rest] eqn:Erec; [congruence|]. clear Hne.
  destruct (last (r0 :: rest)) as [rl|] eqn:El; [|apply last_None in El; discriminate El].
  pose proof (breaks_length rows) as Hbl.
  pose proof (breaks_lookup rows 0) as Hb0.
  pose proof (breaks_last rows) as Hblast.
  pose proof (proj1 (breaks_tstamps rows)) as Hends.
  destruct (breaks rows) as [[history ends] starts]. cbn [fst snd] in *.
  assert (Hlast : last rows = Some (select_history (is_Some_b name_) rl))
    by (unfold rows; now rewrite fmap_last, El).
  destruct history as [|h0 hrest]; [simpl in Hbl; discriminate Hbl|].
  assert (Hh0 : item2 h0 = valid_since r0).
  { simpl in Hb0. inversion Hb0. now rewrite flagged_item2. }
  rewrite Hlast in Hblast.
  destruct (previous_history_terminates db (item2 h0) name_ mac
              (proj1 (db_acyclic (item2 h0)))) as ([[ph pc] pq] & Hprev & _).
  destruct (next_history_terminates db (valid_until rl) name_ mac
              (proj2 (db_acyclic (valid_until rl)))) as ([[nh nc] nq] & Hnext & _).
  pose proof (previous_history_nil _ _ _ _ _ _ _ (Hprev _ (le_n _))) as Hpnil.
  pose proof (next_history_nil _ _ _ _ _ _ _ (Hnext _ (le_n _))) as Hnnil.
  rewrite Hh0 in Hpnil.
  exists ((1 <? length (h0 :: hrest))%nat && (length ends =? 0)%nat
          && (length ph =? 0)%nat && (length nh =? 0)%nat).
  split.
  - intros fuel Hfuel. unfold pure_history. rewrite Hcur.
    cbn [first_item]. unfold last_item. rewrite Hblast.
    cbn [item3 select_history]. now rewrite (Hprev fuel Hfuel), (Hnext fuel Hfuel).
  - unfold pure. fold records. rewrite Erec.
    rewrite !andb_true_iff, Nat.ltb_lt, !Nat.eqb_eq, !length_zero_iff_nil.
    rewrite Hbl. unfold rows at 1. rewrite length_fmap.
    rewrite Hpnil, Hnnil, Hends.
    assert (Hadj : (adjacent_breaks rows).*1 = [] <->
                   forall i r r', (r0 :: rest) !! i = Some r -> (r0 :: rest) !! S i = Some r' ->
                                  valid_until r = valid_since r').
    { split.
      - intros Hnil. apply fmap_nil_inv in Hnil.
        pose proof (proj1 (adjacent_breaks_nil rows) Hnil) as Hall.
        intros i r r' Hr Hr'.
        apply (Hall i (select_history (is_Some_b name_) r)
                 (select_history (is_Some_b name_) r'));
          unfold rows; rewrite list_lookup_fmap; [now rewrite Hr|now rewrite Hr'].
      - intros Hall.
        rewrite (proj2 (adjacent_breaks_nil rows)); [reflexivity|].
        intros i h h' Hh Hh'. unfold rows in Hh, Hh'.
        rewrite list_lookup_fmap in Hh, Hh'.
        destruct ((r0 :: rest) !! i) as [r|] eqn:Er; [|discriminate].
        destruct ((r0 :: rest) !! S i) as [r'|] eqn:Er'; [|discriminate].
        simpl in Hh, Hh'. inversion Hh; inversion Hh'; subst. simpl.
        exact (Hall i r r' Er Er'). }
    rewrite Hadj. rewrite El. cbn [head]. split.
    + intros [[[Hlen Hc] Hp] Hn]. split; [exact Hlen|]. split; [exact Hc|].
      split; [now intros ? [= <-]|now intros ? [= <-]].
    + intros (Hlen & Hc & Hp & Hn). repeat split; [exact Hlen|exact Hc|now apply Hp|now apply Hn].
Qed.

Lemma photometers_repaired_loop_spec (rows : list photometer) :
  (forall d, In d rows -> exists r, d = photometer_dict r /\ In r db) ->
  exists selected,
    sublist selected rows /\
    (forall d, In d selected <->
       exists r, d = photometer_dict r /\ In d rows /\ pure db (Some (name r)) None) /\
    forall output fuel, (length db + 1 <= fuel)%nat ->
      photometers_repaired_loop fuel db rows output = Some (Ok (output ++ selected)).
Proof using db_acyclic.
  induction rows as [|row rest IH]; intros Hrows.
  - exists []. split; [constructor|]. split.
    + intros d. split; [intros []|intros (r & _ & [] & _)].
    + intros output fuel _. simpl. now rewrite app_nil_r.
  - destruct (Hrows row (or_introl eq_refl)) as (r & -> & Hr).
    destruct (pure_history_spec (Some (name r)) None) as (b & Hrun & Hb).
    { exists r. split; [assumption|reflexivity]. }
    destruct IH as (selected & Hsub & Hmem & Hloop).
    { intros d Hd. apply Hrows. now right. }
    exists (if b then photometer_dict r :: selected else selected). split; [|split].
    + destruct b; [now apply sublist_skip|now apply sublist_cons].
    + intros d. destruct b.
      * split.
        -- intros [<-|Hd]; [exists r; split; [reflexivity|]; split; [now left|now apply Hb]|].
           apply Hmem in Hd. destruct Hd as (r' & -> & Hin & Hp).
           exists r'. split; [reflexivity|]. split; [now right|assumption].
        -- intros (r' & -> & [Heq|Hin] & Hp); [left; exact Heq|].
           right. apply Hmem. exists r'. split; [reflexivity|]. split; assumption.
      * rewrite Hmem. split.
        -- intros (r' & -> & Hin & Hp). exists r'. split; [reflexivity|].
           split; [now right|assumption].
        -- intros (r' & -> & [Heq|Hin] & Hp).
           ++ apply photometer_dict_inj in Heq. subst r'. apply Hb in Hp. discriminate Hp.
           ++ exists r'. split; [reflexivity|]. split; assumption.
    + intros output fuel Hfuel.
      cbn [photometers_repaired_loop].
      change (lookup_item (photometer_dict r) "name") with (@Ok string (name r)).
      cbv iota beta. rewrite (Hrun fuel Hfuel), (Hloop _ fuel Hfuel).
      destruct b; [now rewrite <- app_assoc|reflexivity].
Qed.

Lemma photometers_renamed_loop_spec (rows : list photometer) :
  (forall d, In d rows -> exists r, d = photometer_dict r /\ In r db) ->
  exists selected,
    sublist selected rows /\
    (forall d, In d selected <->
       exists r, d = photometer_dict r /\ In d rows /\
                 pure db None (Some (mac_address r))) /\
    forall output fuel, (length db + 1 <= fuel)%nat ->
      photometers_renamed_loop fuel db rows output = Some (Ok (output ++ selected)).
Proof using db_acyclic.
  induction rows as [|row rest IH]; intros Hrows.
  - exists []. split; [constructor|]. split.
    + intros d. split; [intros []|intros (r & _ & [] & _)].
    + intros output fuel _. simpl. now rewrite app_nil_r.
  - destruct (Hrows row (or_introl eq_refl)) as (r & -> & Hr).
    destruct (pure_history_spec None (Some (mac_address r))) as (b & Hrun & Hb).
    { exists r. split; [assumption|reflexivity]. }
    destruct IH as (selected & Hsub & Hmem & Hloop).
    { intros d Hd. apply Hrows. now right. }
    exists (if b then photometer_dict r :: selected else selected). split; [|split].
    + destruct b; [now apply sublist_skip|now apply sublist_cons].
    + intros d. destruct b.
      * split.
        -- intros [<-|Hd]; [exists r; split; [reflexivity|]; split; [now left|now apply Hb]|].
           apply Hmem in Hd. destruct Hd as (r' & -> & Hin & Hp).
           exists r'. split; [reflexivity|]. split; [now right|assumption].
        -- intros (r' & -> & [Heq|Hin] & Hp); [left; exact Heq|].
           right. apply Hmem. exists r'. split; [reflexivity|]. split; assumption.
      * rewrite Hmem. split.
        -- intros (r' & -> & Hin & Hp). exists r'. split; [reflexivity|].
           split; [now right|assumption].
        -- intros (r' & -> & [Heq|Hin] & Hp).
           ++ apply photometer_dict_inj in Heq. subst r'. apply Hb in Hp. discriminate Hp.
           ++ exists r'. split; [reflexivity|]. split; assumption.
    + intros output fuel Hfuel.
      cbn [photometers_renamed_loop].
      change (lookup_item (photometer_dict r) "mac") with (@Ok string (mac_address r)).
      cbv iota beta. rewrite (Hrun fuel Hfuel), (Hloop _ fuel Hfuel).
      destruct b; [now rewrite <- app_assoc|reflexivity].
Qed.

End pure_facts.

(** On a table whose chains never revisit a time stamp,
    [photometers_repaired] returns (with fuel for one query per record and
    one more) the entries of [photometers_not_easy], in their order, whose
    name passes the [pure_repair] test on the table: the records of the
    name, ordered by [valid_since], are two or more, each ends where the
    next one starts, no record of the table ends where the first one
    starts and none starts where the last one ends. *)
Theorem photometers_repaired_spec (db : tessdb.database) :
  history.acyclic db ->
  exists only_repaired,
    (forall fuel, (length db + 1 <= fuel)%nat ->
       tessdb.photometers_repaired fuel db = Some (Ok only_repaired)) /\
    sublist only_repaired (tessdb.photometers_not_easy db) /\
    (forall d, In d only_repaired <->
       exists r, d = tessdb.photometer_dict r /\ In d (tessdb.photometers_not_easy db) /\
                 history.pure db (Some (tessdb.name r)) None).
Proof.
  intros Hacyclic.
  destruct (photometers_repaired_loop_spec db Hacyclic (tessdb.photometers_not_easy db))
    as (selected & Hsub & Hmem & Hloop).
  { intros d Hd. apply photometers_not_easy_records in Hd.
    destruct Hd as (r & -> & Hr & _). now exists r. }
  exists selected. split; [|split; assumption].
  intros fuel Hfuel. unfold tessdb.photometers_repaired. now rewrite (Hloop [] fuel Hfuel).
Qed.

Lemma photometers_repaired_spec_witness :
  exists only_repaired,
    (forall fuel, (3 + 1 <= fuel)%nat ->
       tessdb.photometers_repaired fuel samples.db_history = Some (Ok only_repaired)) /\
    sublist only_repaired (tessdb.photometers_not_easy samples.db_history) /\
    (forall d, In d only_repaired <->
       exists r, d = tessdb.photometer_dict r /\
                 In d (tessdb.photometers_not_easy samples.db_history) /\
                 history.pure samples.db_history (Some (tessdb.name r)) None).
Proof.
  apply (photometers_repaired_spec samples.db_history).
  apply (strict_intervals_acyclic _ samples_db_history_strict).
Defined.

(** The same for [photometers_renamed], with the [pure_renaming] test on
    the records of the entry's MAC. *)
Theorem photometers_renamed_spec (db : tessdb.database) :
  history.acyclic db ->
  exists only_renamed,
    (forall fuel, (length db + 1 <= fuel)%nat ->
       tessdb.photometers_renamed fuel db = Some (Ok only_renamed)) /\
    sublist only_renamed (tessdb.photometers_not_easy db) /\
    (forall d, In d only_renamed <->
       exists r, d = tessdb.photometer_dict r /\ In d (tessdb.photometers_not_easy db) /\
                 history.pure db None (Some (tessdb.mac_address r))).
Proof.
  intros Hacyclic.
  destruct (photometers_renamed_loop_spec db Hacyclic (tessdb.photometers_not_easy db))
    as (selected & Hsub & Hmem & Hloop).
  { intros d Hd. apply photometers_not_easy_records in Hd.
    destruct Hd as (r & -> & Hr & _). now exists r. }
  exists selected. split; [|split; assumption].
  intros fuel Hfuel. unfold tessdb.photometers_renamed. now rewrite (Hloop [] fuel Hfuel).
Qed.

Lemma photometers_renamed_spec_witness :
  exists only_renamed,
    (forall fuel, (3 + 1 <= fuel)%nat ->
       tessdb.photometers_renamed fuel samples.db_history = Some (Ok only_renamed)) /\
    sublist only_renamed (tessdb.photometers_not_easy samples.db_history) /\
    (forall d, In d only_renamed <->
       exists r, d = tessdb.photometer_dict r /\
                 In d (tessdb.photometers_not_easy samples.db_history) /\
                 history.pure samples.db_history None (Some (tessdb.mac_address r))).
Proof.
  apply (photometers_renamed_spec samples.db_history).
  apply (strict_intervals_acyclic _ samples_db_history_strict).
Defined.
